(** * LayeredHashMap: a shallow embedding of the sequential behaviour

    The development follows the C++ sources file by file:
    - [LayeredHashMapMathematics.h]: the tables [__Primes_*], [NextPower_*]
      and the bit-twiddling [IntLog2];
    - [AtomicRWLock.h]: the lock word of a slot;
    - [ThreadManager/PlatformAtomic.h], [ThreadManager/ThreadManager.h]:
      the per-thread counter and its manager;
    - [LayeredHashMap.h]: slot addressing, [AllocateLayer], [Write],
      [Delete], [Read], [GetSize].

    Machine integers are values of [Z] with the wrap-around written out;
    arrays are lists read with stdpp's lookup, an out-of-range access being
    an explicit outcome.

    [MAP_ALLOC] and the operations built on it describe the executions in
    which [std::vector::resize] gets the storage it asks for.
    [vector_resize], [MAP_ALLOC_in], [AllocateLayer_in], [RESIZE_FUNC_in]
    and the constructors [LayeredHashMap_ctor_in] and
    [LayeredHashMap_ctor_sized_in] take the environment of the resize,
    which can refuse the storage with [std::length_error] or
    [std::bad_alloc]. *)

From Stdlib Require Import ZArith List Lia Bool.
From stdpp Require Import base list.
Import ListNotations.

#[local] Open Scope Z_scope.

(** ** Compilation targets

    The sources select their tables with [sizeof(size_t) <= 4] and their
    atomic primitives with the [_MSC_VER] test of [PlatformAtomic.h]. *)

Inductive word_size := W32 | W64.
Inductive atomics := MSVC_native | StdAtomic.

Record target := { word : word_size; plat : atomics }.

Definition x86_msvc : target := {| word := W32; plat := MSVC_native |}.
Definition amd64_msvc : target := {| word := W64; plat := MSVC_native |}.
Definition generic32 : target := {| word := W32; plat := StdAtomic |}.
Definition generic64 : target := {| word := W64; plat := StdAtomic |}.

Definition bits (tg : target) : Z :=
  match word tg with W32 => 32 | W64 => 64 end.

(** [size_t] / [uInt]: the value modulo [2^bits]. *)
Definition to_uInt (tg : target) (z : Z) : Z := z mod 2 ^ bits tg.

(** [sInt] / [ptrdiff_t]: two's complement on [bits] bits. *)
Definition to_sInt (tg : target) (z : Z) : Z :=
  (z + 2 ^ (bits tg - 1)) mod 2 ^ bits tg - 2 ^ (bits tg - 1).

(** ** LayeredHashMapMathematics.h *)

Definition b32 : list Z := [0x2; 0xC; 0xF0; 0xFF00; 0xFFFF0000].
Definition b64 : list Z :=
  [0x2; 0xC; 0xF0; 0xFF00; 0xFFFF0000; 0xFFFFFFFF00000000].

Definition b (tg : target) : list Z :=
  match word tg with W32 => b32 | W64 => b64 end.

(** The shift table [S] of the source ([S] is taken by [nat]). *)
Definition S_ : list Z := [1; 2; 4; 8; 16; 32].

Definition Log2Iterations (tg : target) : nat :=
  match word tg with W32 => 4%nat | W64 => 5%nat end.

(** The body of the [for] loop of [IntLog2], for the iterations
    [i = n-1, ..., 0]. *)
Fixpoint IntLog2_loop (tg : target) (n : nat) (X Result : Z) : Z :=
  match n with
  | O => Result
  | S i =>
      if negb (Z.land X (nth i (b tg) 0) =? 0)
      then IntLog2_loop tg i (Z.shiftr X (nth i S_ 0)) (Z.lor Result (nth i S_ 0))
      else IntLog2_loop tg i X Result
  end.

Definition IntLog2 (tg : target) (X : Z) : Z :=
  IntLog2_loop tg (S (Log2Iterations tg)) X 0.

Definition __Primes_32b : list Z :=
  [ 0; 757; 1783; 3833; 7937;
    16141; 32537; 65327; 130873;
    261977; 524123; 1048433; 2097013;
    4194167; 8388473; 16777121; 33554341;
    67108777; 134217649; 268435399; 536870869;
    1073741789; 2147483629; 4294967291 ].

Definition __Primes_64b : list Z :=
  [ 0; 2633; 6733; 14929; 31321; 64091;
    129643; 260723; 522883; 1047173; 2095759;
    4192919; 8387231; 16775849; 33553103; 67107569;
    134216461; 268434193; 536869651; 1073740571; 2147482417;
    4294966099; 8589933397; 17179867997; 34359737227; 68719475599;
    137438952341; 274877905823; 549755812831; 1099511626727; 2199023254517;
    4398046510073; 8796093021181; 17592186043451; 35184372087881; 70368744176729;
    140737488354413; 281474976709757; 562949953420457; 1125899906841811; 2251799813684467;
    4503599627369863; 9007199254740397 ].

Definition NextPower_32b : list Z :=
  [ Z.shiftl 1 10 - 1; Z.shiftl 1 11 - 1; Z.shiftl 1 12 - 1; Z.shiftl 1 13 - 1;
    Z.shiftl 1 14 - 1; Z.shiftl 1 15 - 1; Z.shiftl 1 16 - 1; Z.shiftl 1 17 - 1;
    Z.shiftl 1 18 - 1; Z.shiftl 1 19 - 1; Z.shiftl 1 20 - 1; Z.shiftl 1 21 - 1;
    Z.shiftl 1 22 - 1; Z.shiftl 1 23 - 1; Z.shiftl 1 24 - 1; Z.shiftl 1 25 - 1;
    Z.shiftl 1 26 - 1; Z.shiftl 1 27 - 1; Z.shiftl 1 28 - 1; Z.shiftl 1 29 - 1;
    Z.shiftl 1 30 - 1; Z.shiftl 1 31 - 1; 4294967295 ].

Definition NextPower_64b : list Z :=
  [ Z.shiftl 1 12 - 1; Z.shiftl 1 13 - 1;
    Z.shiftl 1 14 - 1; Z.shiftl 1 15 - 1; Z.shiftl 1 16 - 1; Z.shiftl 1 17 - 1;
    Z.shiftl 1 18 - 1; Z.shiftl 1 19 - 1; Z.shiftl 1 20 - 1; Z.shiftl 1 21 - 1;
    Z.shiftl 1 22 - 1; Z.shiftl 1 23 - 1; Z.shiftl 1 24 - 1; Z.shiftl 1 25 - 1;
    Z.shiftl 1 26 - 1; Z.shiftl 1 27 - 1; Z.shiftl 1 28 - 1; Z.shiftl 1 29 - 1;
    Z.shiftl 1 30 - 1; Z.shiftl 1 31 - 1; Z.shiftl 1 32 - 1; Z.shiftl 1 33 - 1;
    Z.shiftl 1 34 - 1; Z.shiftl 1 35 - 1; Z.shiftl 1 36 - 1; Z.shiftl 1 37 - 1;
    Z.shiftl 1 38 - 1; Z.shiftl 1 39 - 1; Z.shiftl 1 40 - 1; Z.shiftl 1 41 - 1;
    Z.shiftl 1 42 - 1; Z.shiftl 1 43 - 1; Z.shiftl 1 44 - 1; Z.shiftl 1 45 - 1;
    Z.shiftl 1 46 - 1; Z.shiftl 1 47 - 1; Z.shiftl 1 48 - 1; Z.shiftl 1 49 - 1;
    Z.shiftl 1 50 - 1; Z.shiftl 1 51 - 1; Z.shiftl 1 52 - 1; Z.shiftl 1 53 - 1 ].

Definition __Primes (tg : target) : list Z :=
  match word tg with W32 => __Primes_32b | W64 => __Primes_64b end.

Definition NextPower_table (tg : target) : list Z :=
  match word tg with W32 => NextPower_32b | W64 => NextPower_64b end.

(** [NextPower[i]] for a [size_t] index; [None] is a read outside the
    array. *)
Definition NextPower (tg : target) (i : Z) : option Z :=
  if i <? 0 then None else NextPower_table tg !! Z.to_nat i.

(** [Primes] points at [__Primes[1]], so that [Primes[i]] is
    [__Primes[i + 1]]; the index is a [size_t], and [Primes[0 - 1]] wraps to
    [__Primes[0]].  [None] is a read outside the array. *)
Definition Primes (tg : target) (i : Z) : option Z :=
  __Primes tg !! Z.to_nat (to_uInt tg (i + 1)).

Definition LowestExponent (tg : target) : Z :=
  match word tg with W32 => 9 | W64 => 11 end.

Definition MaxLayerCount (tg : target) : Z :=
  match word tg with W32 => 23 | W64 => 42 end.

Definition LowestNextPower (tg : target) : Z :=
  match word tg with W32 => 512 | W64 => 2048 end.

(** ** LayeredHashMap.h: slot addressing

    The three private helpers, on the hash value [h = Hash()(Key)]. *)

(** [RawHash]: [(Hash()(Key) & NextPower[LayerLastIdx]) % Primes[LayerLastIdx]].
    A zero divisor is undefined behaviour. *)
Definition RawHash (tg : target) (LayerLastIdx h : Z) : option Z :=
  np ← NextPower tg LayerLastIdx;
  p ← Primes tg LayerLastIdx;
  if p =? 0 then None else Some (Z.land h np mod p).

(** The value of a C++ [bool] used as an integer. *)
Definition b2z (c : bool) : Z := if c then 1 else 0.

Definition GetLayer (tg : target) (rawHash : Z) : option Z :=
  let LayerIdx :=
    to_uInt tg
      (IntLog2 tg
         (to_uInt tg (rawHash + b2z (rawHash <? LowestNextPower tg) * LowestNextPower tg))
       - LowestExponent tg) in
  p ← Primes tg LayerIdx;
  Some (to_uInt tg (LayerIdx + b2z (p <=? rawHash))).

Definition GetSlot (tg : target) (rawHash LayerIdx : Z) : option Z :=
  p ← Primes tg (to_uInt tg (LayerIdx - 1));
  Some (to_uInt tg (rawHash - p)).

(** The address computed at the head of [Write], [Delete] and [Read]:
    [LayerIdx = GetLayer(rawHash)], [SlotIdx = GetSlot(rawHash, LayerIdx)]. *)
Definition slot_address (tg : target) (rawHash : Z) : option (Z * Z) :=
  LayerIdx ← GetLayer tg rawHash;
  SlotIdx ← GetSlot tg rawHash LayerIdx;
  Some (LayerIdx, SlotIdx).

(** Executable check that [Primes[j]] lies between the two powers of two
    around it, used to enumerate the tables. *)
Definition prime_in_window (tg : target) (j : nat) : bool :=
  match Primes tg (Z.of_nat j) with
  | Some p =>
      (2 ^ (LowestExponent tg + Z.of_nat j) <=? p)
      && (p <? 2 ^ (LowestExponent tg + Z.of_nat j + 1))
  | None => false
  end.

(** ** AtomicRWLock.h

    The lock word, an [uint_fast32_t] (modelled on 32 bits, the width its
    masks are written for).  In a sequential execution no other thread can
    release a lock, so an acquisition that would have to wait never
    completes: the lock functions return [None] there. *)

Definition EMPTY : Z := 0x00000000.
Definition POPULATED : Z := 0x80000000.
Definition VALUE_BITS_MASK : Z := 0x80000000.
Definition WRITER_BIT_MASK : Z := 0x40000000.
Definition READER_COUNT_MASK : Z := 0x3FFFFFFF.

Definition to_fast32 (z : Z) : Z := z mod 2 ^ 32.

(** [read_lock]: the new lock word and the returned [VALUE_BITS]. *)
Definition read_lock (ThisLock : Z) : option (Z * Z) :=
  let OldLock := ThisLock in
  if Z.land OldLock WRITER_BIT_MASK =? 0
  then Some (to_fast32 (OldLock + 1), Z.land OldLock VALUE_BITS_MASK)
  else None.

(** [write_lock]: the new lock word and the returned [VALUE_BITS]. *)
Definition write_lock (ThisLock : Z) : option (Z * Z) :=
  let OldLock := ThisLock in
  if Z.land OldLock WRITER_BIT_MASK =? 0
  then
    let NewLock := Z.lor OldLock WRITER_BIT_MASK in
    if Z.land NewLock READER_COUNT_MASK =? 0
    then Some (NewLock, Z.land OldLock VALUE_BITS_MASK)
    else None
  else None.

Definition write_unlock (X : Z) : Z := X.

Definition read_unlock (ThisLock : Z) : Z := to_fast32 (ThisLock - 1).

(** ** ThreadManager/PlatformAtomic.h

    [INCREMENT(X)] and [DECREMENT(X)] update [X] and have a value: with the
    native macros [(++X)] is the new value, with [std::atomic] [fetch_add]
    returns the value held before.  Each returns the new content of [X]
    and the value of the expression. *)

Definition INCREMENT (tg : target) (X : Z) : Z * Z :=
  let X' := to_sInt tg (X + 1) in
  match plat tg with
  | MSVC_native => (X', X')
  | StdAtomic => (X', X)
  end.

Definition DECREMENT (tg : target) (X : Z) : Z * Z :=
  let X' := to_sInt tg (X - 1) in
  match plat tg with
  | MSVC_native => (X', X')
  | StdAtomic => (X', X)
  end.

(** ** Outcomes of the stateful operations *)

(** Undefined behaviour met by the code. *)
Inductive fault :=
| TableOutOfRange      (* a read outside [__Primes] or [NextPower] *)
| SlotsOutOfRange      (* an access outside [Slots] or one of its layers *)
| CounterOutOfRange    (* a counter that is not registered *)
| DivisionByZero.

(** The exceptions of the standard library that reach the code:
    [std::out_of_range], thrown by [Read]; [std::length_error] and
    [std::bad_alloc], thrown by [std::vector::resize]; [std::system_error],
    thrown by [std::unique_lock::lock] on a lock it already owns. *)
Inductive exception := out_of_range | length_error | bad_alloc | system_error.

Inductive outcome (St A : Type) :=
| Returned (a : A) (s : St)
| Thrown (e : exception) (s : St)
| Undefined (f : fault)
| Spins.

Arguments Returned {St A} a s.
Arguments Thrown {St A} e s.
Arguments Undefined {St A} f.
Arguments Spins {St A}.

Definition M (St A : Type) : Type := St -> outcome St A.

Definition ret {St A} (a : A) : M St A := fun s => Returned a s.

Definition bind {St A B} (c : M St A) (k : A -> M St B) : M St B :=
  fun s =>
    match c s with
    | Returned a s' => k a s'
    | Thrown e s' => Thrown e s'
    | Undefined f => Undefined f
    | Spins => Spins
    end.

Definition get {St} : M St St := fun s => Returned s s.
Definition modify {St} (f : St -> St) : M St unit := fun s => Returned tt (f s).
Definition throw {St A} (e : exception) : M St A := fun s => Thrown e s.
Definition undefined {St A} (f : fault) : M St A := fun _ => Undefined f.
Definition spins {St A} : M St A := fun _ => Spins.

(** A value that is there unless the access was out of range. *)
Definition checked {St A} (f : fault) (o : option A) : M St A :=
  match o with Some a => ret a | None => undefined f end.

(** A lock acquisition. *)
Definition acquired {St A} (o : option A) : M St A :=
  match o with Some a => ret a | None => spins end.

Declare Scope m_scope.
Delimit Scope m_scope with M.
Notation "'let*' x ':=' c 'in' k" := (bind c (fun x => k))
  (at level 10, x name, c at level 100, k at level 200) : m_scope.
Notation "'let*' ( x , y ) ':=' c 'in' k" := (bind c (fun xy => let '(x, y) := xy in k))
  (at level 10, x name, y name, c at level 100, k at level 200) : m_scope.
Notation "c ';;' k" := (bind c (fun _ => k))
  (at level 100, k at level 200, right associativity) : m_scope.

(** ** The state: one map, its manager and the registered counters *)

(** [std::find_if]: the position of the first element satisfying [p], or
    [None] for [end()]. *)
Fixpoint find_if {A} (p : A -> bool) (l : list A) : option (nat * A) :=
  match l with
  | [] => None
  | x :: l' =>
      if p x then Some (O, x)
      else match find_if p l' with
           | Some (i, y) => Some (S i, y)
           | None => None
           end
  end.

(** Modelled from the spec: [AtomicLock] ([AtomicLock.h] is not among the
    sources), the spin lock of the manager: "a registry lock and a quiesce
    lock", each "a spinlock that yields to the OS scheduler between
    unsuccessful attempts".  The state is whether the lock is held;
    [lock] and [wait] never complete on a held lock in a sequential
    execution, [try_lock] takes a free lock and reports it. *)
Definition AtomicLock_lock (held : bool) : option bool :=
  if held then None else Some true.
Definition AtomicLock_try_lock (held : bool) : bool * bool :=
  if held then (true, false) else (true, true).
Definition AtomicLock_unlock (held : bool) : bool := false.
Definition AtomicLock_wait (held : bool) : option unit :=
  if held then None else Some tt.

(** [ThreadValue]: the fields [Value] and [Threshold]. *)
Record ThreadValue := { Value : Z; Threshold : Z }.

(** [ThreadManager].  [ThreadValues] holds the registered counters
    themselves (the source keeps pointers to them); [ManagerLock] and
    [ValueUniqueLock] tell whether the lock is held.  The [Callback] of the
    manager of a map is [RESIZE_FUNC], installed by [MAP_INIT]. *)
Record ThreadManager := {
  DTOR_ThreadValuesSum : Z;
  ThreadValues : list ThreadValue;
  ManagerLock : bool;
  ValueUniqueLock : bool
}.

Section Map.

Variable tg : target.

(** Template parameters: keys, values, [Hash] and [Pred]; [K_new] and
    [T_new] are the value-initialised [K()] and [T()] that
    [std::vector::resize] puts in a new slot. *)
Context {K T : Type}.
Variable Hash : K -> Z.
Variable Pred : K -> K -> bool.
Variable K_new : K.
Variable T_new : T.

(** [_sInt(Threshold * MAX_ERROR)], a product of doubles truncated to an
    integer: floating point is outside the embedding, and the function
    from [Threshold] to that value is a parameter. *)
Variable MAX_ERROR_margin : Z -> Z.

Definition Pair : Type := K * T.

Record Slot := { Lock : Z; Main : Pair; Collisions : list Pair }.

Record LayeredHashMap := {
  Slots : list (list Slot);
  LayerLastIdx : Z;
  Manager : ThreadManager          (* [Managers[InstanceIdx]] *)
}.

#[local] Open Scope m_scope.

Definition Op (A : Type) : Type := M LayeredHashMap A.

Definition Slot_new : Slot :=
  {| Lock := EMPTY; Main := (K_new, T_new); Collisions := [] |}.

(** [Slots[LayerIdx][SlotIdx]], without bounds check in the source. *)
Definition layer_slot (m : LayeredHashMap) (l i : nat) : option Slot :=
  v ← Slots m !! l; v !! i.

Definition slot_at (m : LayeredHashMap) (LayerIdx SlotIdx : Z) : option Slot :=
  layer_slot m (Z.to_nat LayerIdx) (Z.to_nat SlotIdx).

Definition slot_load (LayerIdx SlotIdx : Z) : Op Slot :=
  let* m := get in checked SlotsOutOfRange (slot_at m LayerIdx SlotIdx).

Definition set_Slots (f : list (list Slot) -> list (list Slot)) (m : LayeredHashMap) :=
  {| Slots := f (Slots m); LayerLastIdx := LayerLastIdx m; Manager := Manager m |}.

Definition set_LayerLastIdx (i : Z) (m : LayeredHashMap) :=
  {| Slots := Slots m; LayerLastIdx := i; Manager := Manager m |}.

Definition set_Manager (f : ThreadManager -> ThreadManager) (m : LayeredHashMap) :=
  {| Slots := Slots m; LayerLastIdx := LayerLastIdx m; Manager := f (Manager m) |}.

(** An assignment to fields of [Slots[LayerIdx][SlotIdx]]. *)
Definition slot_update (LayerIdx SlotIdx : Z) (f : Slot -> Slot) : Op unit :=
  let* s := slot_load LayerIdx SlotIdx in
  modify (set_Slots (alter (<[Z.to_nat SlotIdx := f s]>) (Z.to_nat LayerIdx))).

Definition set_Lock (x : Z) (s : Slot) : Slot :=
  {| Lock := x; Main := Main s; Collisions := Collisions s |}.
Definition set_Main (p : Pair) (s : Slot) : Slot :=
  {| Lock := Lock s; Main := p; Collisions := Collisions s |}.
Definition set_Collisions (c : list Pair) (s : Slot) : Slot :=
  {| Lock := Lock s; Main := Main s; Collisions := c |}.

(** [std::vector::resize(Size)] when the storage is granted and the
    slots the vector holds stay where they are: the first [Size] slots
    are kept and value-initialised slots are appended.  The layers the
    code resizes are the empty vectors of the [std::array];
    [vector_resize] below is the resize in an environment that can refuse
    the storage. *)
Definition resize_layer (Size : Z) (l : list Slot) : list Slot :=
  take (Z.to_nat Size) l ++ replicate (Z.to_nat Size - length l) Slot_new.

(** [MAP_ALLOC(Idx, Size)]: [Slots[Idx].resize(Size)] on the
    [std::array] of [MaxLayerCount] vectors, the storage being granted
    ([MAP_ALLOC_in] is the macro in an environment that can refuse
    it). *)
Definition MAP_ALLOC (Idx Size : Z) : Op unit :=
  let* m := get in
  let* _ := checked SlotsOutOfRange (Slots m !! Z.to_nat Idx) in
  modify (set_Slots (alter (resize_layer Size) (Z.to_nat Idx))).

Definition AllocateLayer : Op unit :=
  let* m := get in
  let* OldPrime := checked TableOutOfRange (Primes tg (LayerLastIdx m)) in
  let LayerLastIdx' := to_uInt tg (LayerLastIdx m + 1) in
  modify (set_LayerLastIdx LayerLastIdx');;
  let* NewPrime := checked TableOutOfRange (Primes tg LayerLastIdx') in
  let DeltaPrime := to_uInt tg (NewPrime - OldPrime) in
  MAP_ALLOC LayerLastIdx' DeltaPrime.

(** The lambda [RESIZE_FUNC], the callback of the manager. *)
Definition RESIZE_FUNC (GlobalValue : Z) : Op Z :=
  let* m := get in
  let* p := checked TableOutOfRange (Primes tg (LayerLastIdx m)) in
  (if p <? GlobalValue then AllocateLayer else ret tt);;
  let* m' := get in
  checked TableOutOfRange (Primes tg (LayerLastIdx m')).

(** *** ThreadManager/ThreadManager.h *)

Definition set_ThreadValues (f : list ThreadValue -> list ThreadValue)
    (g : ThreadManager) : ThreadManager :=
  {| DTOR_ThreadValuesSum := DTOR_ThreadValuesSum g;
     ThreadValues := f (ThreadValues g);
     ManagerLock := ManagerLock g;
     ValueUniqueLock := ValueUniqueLock g |}.

Definition set_ManagerLock (x : bool) (g : ThreadManager) : ThreadManager :=
  {| DTOR_ThreadValuesSum := DTOR_ThreadValuesSum g;
     ThreadValues := ThreadValues g;
     ManagerLock := x;
     ValueUniqueLock := ValueUniqueLock g |}.

Definition set_ValueUniqueLock (x : bool) (g : ThreadManager) : ThreadManager :=
  {| DTOR_ThreadValuesSum := DTOR_ThreadValuesSum g;
     ThreadValues := ThreadValues g;
     ManagerLock := ManagerLock g;
     ValueUniqueLock := x |}.

(** The constructor of [ThreadManager]. *)
Definition ThreadManager_new : ThreadManager :=
  {| DTOR_ThreadValuesSum := 0; ThreadValues := [];
     ManagerLock := false; ValueUniqueLock := false |}.

(** The [for_each] that adds up [GetThreadValue()] in an [_sInt]. *)
Definition ThreadValuesSum (l : list ThreadValue) : Z :=
  fold_left (fun acc ThrValue => to_sInt tg (acc + Value ThrValue)) l 0.

Definition AdjustThreadThreshold (Adjustment : Z) (v : ThreadValue) : ThreadValue :=
  {| Value := Value v; Threshold := to_sInt tg (Value v + Adjustment) |}.

Definition ManagerLock_lock : Op unit :=
  let* m := get in
  let* held := acquired (AtomicLock_lock (ManagerLock (Manager m))) in
  modify (set_Manager (set_ManagerLock held)).

Definition ManagerLock_unlock : Op unit :=
  modify (set_Manager (fun g => set_ManagerLock (AtomicLock_unlock (ManagerLock g)) g)).

Definition _UpdateManagerInternal : Op unit :=
  let* m := get in
  let Sum := ThreadValuesSum (ThreadValues (Manager m)) in
  let GlobalValue := to_uInt tg (Sum + DTOR_ThreadValuesSum (Manager m)) in
  let* Threshold_ := RESIZE_FUNC GlobalValue in
  let* m' := get in
  let size := Z.of_nat (length (ThreadValues (Manager m'))) in
  if size =? 0 then undefined DivisionByZero
  else
    let NewMargin :=
      to_uInt tg (Z.max (to_sInt tg (to_uInt tg (Threshold_ - GlobalValue)))
                        (MAX_ERROR_margin Threshold_))
      / size in
    modify (set_Manager (set_ThreadValues
              (map (AdjustThreadThreshold (to_sInt tg NewMargin))))).

(** [ThreadValue::ThreadValue], which calls [ConstructThreadValue(this)];
    [Threshold] is not initialised before the update writes it.  The
    result is the position of the counter in [ThreadValues]. *)
Definition ConstructThreadValue : Op nat :=
  ManagerLock_lock;;
  modify (set_Manager (set_ThreadValues
            (fun l => l ++ [{| Value := 0; Threshold := 0 |}])));;
  _UpdateManagerInternal;;
  ManagerLock_unlock;;
  let* m := get in
  ret (length (ThreadValues (Manager m)) - 1)%nat.

Definition UpdateManager : Op unit :=
  let* m := get in
  let '(held, ok) := AtomicLock_try_lock (ManagerLock (Manager m)) in
  if negb ok then acquired (AtomicLock_wait held)
  else
    modify (set_Manager (set_ManagerLock held));;
    _UpdateManagerInternal;;
    ManagerLock_unlock.

Definition WaitForGlobalValue : Op unit :=
  let* m := get in
  if ValueUniqueLock (Manager m) then spins else ret tt.

(** [std::unique_lock<AtomicLock>::lock()]: a lock that is already
    owned throws [std::system_error] (the standard's
    [resource_deadlock_would_occur]); otherwise the [AtomicLock] behind
    it is taken. *)
Definition unique_lock_lock (owns : bool) : Op bool :=
  if owns then throw system_error else acquired (AtomicLock_lock owns).

(** [GetGlobalValue]. *)
Definition GetGlobalValue : Op Z :=
  let* m := get in
  let* owned := unique_lock_lock (ValueUniqueLock (Manager m)) in
  modify (set_Manager (set_ValueUniqueLock owned));;
  ManagerLock_lock;;
  let* m' := get in
  let Sum := ThreadValuesSum (ThreadValues (Manager m')) in
  ManagerLock_unlock;;
  modify (set_Manager (set_ValueUniqueLock false));;
  let* m'' := get in
  ret (to_uInt tg (Sum + DTOR_ThreadValuesSum (Manager m''))).

(** The counter [Values[InstanceIdx]] of the calling thread, found at
    position [self] of the registry. *)
Definition counter_load (self : nat) : Op ThreadValue :=
  let* m := get in
  checked CounterOutOfRange (ThreadValues (Manager m) !! self).

Definition counter_store_Value (self : nat) (X : Z) : Op unit :=
  modify (set_Manager (set_ThreadValues
            (alter (fun v => {| Value := X; Threshold := Threshold v |}) self))).

Definition Increment (self : nat) : Op unit :=
  let* v := counter_load self in
  let '(X', r) := INCREMENT tg (Value v) in
  counter_store_Value self X';;
  (if Threshold v <=? r then UpdateManager else ret tt);;
  WaitForGlobalValue.

Definition Decrement (self : nat) : Op unit :=
  let* v := counter_load self in
  let '(X', _) := DECREMENT tg (Value v) in
  counter_store_Value self X';;
  WaitForGlobalValue.

(** *** LayeredHashMap.h: the public operations *)

(** The members before the constructor body runs, with the manager
    [Managers[InstanceIdx]] in the state given. *)
Definition LayeredHashMap_members (g : ThreadManager) : LayeredHashMap :=
  {| Slots := replicate (Z.to_nat (MaxLayerCount tg)) [];
     LayerLastIdx := 0;
     Manager := g |}.

(** [MAP_INIT()]: the callback is installed, layer 0 is allocated. *)
Definition MAP_INIT : Op unit :=
  let* FirstPrime := checked TableOutOfRange (Primes tg 0) in
  MAP_ALLOC 0 FirstPrime.

(** [LayeredHashMap()]. *)
Definition LayeredHashMap_ctor (g : ThreadManager) : outcome LayeredHashMap unit :=
  MAP_INIT (LayeredHashMap_members g).

(** The loop of [LayeredHashMap(InitialSize)]; every turn advances
    [LayerLastIdx], so [MaxLayerCount + 1] turns reach the end of the
    table. *)
Fixpoint grow_until (fuel : nat) (InitialSize : Z) : Op unit :=
  match fuel with
  | O => spins
  | S fuel' =>
      let* m := get in
      let* p := checked TableOutOfRange (Primes tg (LayerLastIdx m)) in
      if p <? InitialSize then AllocateLayer;; grow_until fuel' InitialSize
      else ret tt
  end.

Definition LayeredHashMap_ctor_sized (g : ThreadManager) (InitialSize : Z)
    : outcome LayeredHashMap unit :=
  (MAP_INIT;; grow_until (S (Z.to_nat (MaxLayerCount tg))) InitialSize)
    (LayeredHashMap_members g).

(** The three lines at the head of [Write], [Delete] and [Read]. *)
Definition locate (Key : K) : Op (Z * Z) :=
  let* m := get in
  let* rawHash :=
    checked TableOutOfRange (RawHash tg (LayerLastIdx m) (to_uInt tg (Hash Key))) in
  let* LayerIdx := checked TableOutOfRange (GetLayer tg rawHash) in
  let* SlotIdx := checked TableOutOfRange (GetSlot tg rawHash LayerIdx) in
  ret (LayerIdx, SlotIdx).

(** [WriteWrapper]: the constructor takes the lock and keeps the
    [VALUE_BITS]; the destructor stores the wrapper's value. *)
Definition WriteWrapper_ctor (LayerIdx SlotIdx : Z) : Op Z :=
  let* s := slot_load LayerIdx SlotIdx in
  let* (NewLock, Val) := acquired (write_lock (Lock s)) in
  slot_update LayerIdx SlotIdx (set_Lock NewLock);;
  ret Val.

Definition WriteWrapper_dtor (LayerIdx SlotIdx Val : Z) : Op unit :=
  slot_update LayerIdx SlotIdx (set_Lock (write_unlock Val)).

Definition ReadWrapper_ctor (LayerIdx SlotIdx : Z) : Op Z :=
  let* s := slot_load LayerIdx SlotIdx in
  let* (NewLock, Val) := acquired (read_lock (Lock s)) in
  slot_update LayerIdx SlotIdx (set_Lock NewLock);;
  ret Val.

Definition ReadWrapper_dtor (LayerIdx SlotIdx : Z) : Op unit :=
  slot_update LayerIdx SlotIdx (fun s => set_Lock (read_unlock (Lock s)) s).

Definition key_is (Key : K) (_KeyVal : Pair) : bool := Pred (fst _KeyVal) Key.

Definition Write (self : nat) (Key : K) (Val : T) : Op unit :=
  let* (LayerIdx, SlotIdx) := locate Key in
  let* status := WriteWrapper_ctor LayerIdx SlotIdx in
  let* s := slot_load LayerIdx SlotIdx in
  (if status =? EMPTY then
     slot_update LayerIdx SlotIdx (set_Main (Key, Val));;
     Increment self
   else if Pred (fst (Main s)) Key then
     slot_update LayerIdx SlotIdx (set_Main (fst (Main s), Val))
   else
     match find_if (key_is Key) (Collisions s) with
     | None =>
         slot_update LayerIdx SlotIdx (set_Collisions (Collisions s ++ [(Key, Val)]));;
         Increment self
     | Some (i, kv) =>
         slot_update LayerIdx SlotIdx
           (set_Collisions (<[i := (fst kv, Val)]> (Collisions s)))
     end);;
  WriteWrapper_dtor LayerIdx SlotIdx POPULATED.

(** [SWAP_AND_POP(Dest, Src)] with [Src] the collision vector; [back()]
    of an empty vector is undefined. *)
Definition SWAP_AND_POP_Main (LayerIdx SlotIdx : Z) : Op unit :=
  let* s := slot_load LayerIdx SlotIdx in
  let* x := checked SlotsOutOfRange (last (Collisions s)) in
  slot_update LayerIdx SlotIdx
    (fun s => set_Collisions (removelast (Collisions s)) (set_Main x s)).

Definition SWAP_AND_POP_at (LayerIdx SlotIdx : Z) (i : nat) : Op unit :=
  let* s := slot_load LayerIdx SlotIdx in
  let* x := checked SlotsOutOfRange (last (Collisions s)) in
  slot_update LayerIdx SlotIdx
    (set_Collisions (removelast (<[i := x]> (Collisions s)))).

Definition Delete (self : nat) (Key : K) : Op bool :=
  let* (LayerIdx, SlotIdx) := locate Key in
  let* NewSlotStatus := WriteWrapper_ctor LayerIdx SlotIdx in
  let* s := slot_load LayerIdx SlotIdx in
  let* (deletionOccured, NewSlotStatus') :=
    (if NewSlotStatus =? EMPTY then ret (false, NewSlotStatus)
     else if Pred (fst (Main s)) Key then
       match Collisions s with
       | _ :: _ => SWAP_AND_POP_Main LayerIdx SlotIdx;; ret (true, NewSlotStatus)
       | [] => ret (true, EMPTY)
       end
     else
       match find_if (key_is Key) (Collisions s) with
       | Some (i, _) => SWAP_AND_POP_at LayerIdx SlotIdx i;; ret (true, NewSlotStatus)
       | None => ret (false, NewSlotStatus)
       end) in
  (if deletionOccured : bool then Decrement self else ret tt);;
  WriteWrapper_dtor LayerIdx SlotIdx NewSlotStatus';;
  ret deletionOccured.

(** [Read]; the destructor of the [ReadWrapper] runs on every way out. *)
Definition Read (Key : K) : Op T :=
  let* (LayerIdx, SlotIdx) := locate Key in
  let* status := ReadWrapper_ctor LayerIdx SlotIdx in
  let* s := slot_load LayerIdx SlotIdx in
  if status =? EMPTY then
    ReadWrapper_dtor LayerIdx SlotIdx;; throw out_of_range
  else if Pred (fst (Main s)) Key then
    ReadWrapper_dtor LayerIdx SlotIdx;; ret (snd (Main s))
  else
    match find_if (key_is Key) (Collisions s) with
    | None => ReadWrapper_dtor LayerIdx SlotIdx;; throw out_of_range
    | Some (_, kv) => ReadWrapper_dtor LayerIdx SlotIdx;; ret (snd kv)
    end.

Definition GetSize : Op Z := GetGlobalValue.

(** *** Relations between two states, for the statements *)

(** The effect of one [AllocateLayer] that returns: the next layer is
    resized to the difference of two primes of the table. *)
Definition allocated (m m' : LayeredHashMap) : Prop :=
  exists OldPrime NewPrime v,
    let last' := to_uInt tg (LayerLastIdx m + 1) in
    Primes tg (LayerLastIdx m) = Some OldPrime /\
    Primes tg last' = Some NewPrime /\
    Slots m !! Z.to_nat last' = Some v /\
    m' = {| Slots := alter (resize_layer (to_uInt tg (NewPrime - OldPrime)))
                       (Z.to_nat last') (Slots m);
            LayerLastIdx := last';
            Manager := Manager m |}.

(** A step that leaves the slots alone or allocates one layer. *)
Definition same_table (m m' : LayeredHashMap) : Prop :=
  Slots m' = Slots m /\ LayerLastIdx m' = LayerLastIdx m.

Definition grown (m m' : LayeredHashMap) : Prop :=
  same_table m m' \/
  exists m1 m2, Slots m1 = Slots m /\ LayerLastIdx m1 = LayerLastIdx m /\
                allocated m1 m2 /\ same_table m2 m'.

(** Layer [i] is allocated with the length [Primes[i] - Primes[i-1]]. *)
Definition layer_allocated (m : LayeredHashMap) (i : Z) : Prop :=
  exists v lo hi,
    Slots m !! Z.to_nat i = Some v /\
    Primes tg (i - 1) = Some lo /\ Primes tg i = Some hi /\
    Z.of_nat (length v) = hi - lo.

(** The shape the constructors set up and [AllocateLayer] extends: the
    [std::array] has [MaxLayerCount] vectors, [LayerLastIdx] is an index
    of the table, and the layers up to it are allocated. *)
Definition well_formed (m : LayeredHashMap) : Prop :=
  length (Slots m) = Z.to_nat (MaxLayerCount tg) /\
  0 <= LayerLastIdx m < MaxLayerCount tg /\
  forall i, 0 <= i <= LayerLastIdx m -> layer_allocated m i.

(** [n] calls of [AllocateLayer]. *)
Fixpoint AllocateLayers (n : nat) : Op unit :=
  match n with
  | O => ret tt
  | S n' => AllocateLayer;; AllocateLayers n'
  end.

(** *** Statements compared with the code *)

(** Address stability for every key: the address located before any
    number of [AllocateLayer] calls is the one located after them. *)
Definition address_stable : Prop :=
  forall (Key : K) (m m' : LayeredHashMap) (n : nat) (a : Z * Z),
    well_formed m ->
    AllocateLayers n m = Returned tt m' ->
    locate Key m = Returned a m ->
    locate Key m' = Returned a m'.

(** *** The slot invariant *)

(** A slot nobody holds: its lock word is [EMPTY] or [POPULATED] (no
    writer bit, no reader), and its collision vector is empty unless the
    occupancy bit is set. *)
Definition slot_inv (s : Slot) : Prop :=
  (Lock s = EMPTY \/ Lock s = POPULATED) /\
  (Lock s = EMPTY -> Collisions s = []).

Definition slots_inv (m : LayeredHashMap) : Prop :=
  forall l i s, layer_slot m l i = Some s -> slot_inv s.

(** The pairs a slot holds for the operations: [Main] counts only behind
    a set occupancy bit, and the collisions follow it. *)
Definition stored (s : Slot) : list Pair :=
  if Z.land (Lock s) VALUE_BITS_MASK =? EMPTY then []
  else Main s :: Collisions s.

(** What [Write] and [Delete] do to the pairs of the slot they address:
    the first pair with an equal key gets the new value, or the pair is
    appended; the first pair with an equal key is overwritten by the last
    pair, which is then dropped. *)
Definition write_pairs (Key : K) (Val : T) (ps : list Pair) : list Pair :=
  match find_if (key_is Key) ps with
  | Some (i, kv) => <[i := (fst kv, Val)]> ps
  | None => ps ++ [(Key, Val)]
  end.

Definition delete_pairs (Key : K) (ps : list Pair) : list Pair :=
  match find_if (key_is Key) ps, last ps with
  | Some (i, _), Some x => removelast (<[i := x]> ps)
  | _, _ => ps
  end.

(** The slot at [(LayerIdx, SlotIdx)] goes from [s] to [s'] and nothing
    else changes in the table. *)
Definition slot_changed (LayerIdx SlotIdx : Z) (m m' : LayeredHashMap)
    (s s' : Slot) : Prop :=
  slot_at m LayerIdx SlotIdx = Some s /\
  slot_at m' LayerIdx SlotIdx = Some s' /\
  (forall l i, (l, i) <> (Z.to_nat LayerIdx, Z.to_nat SlotIdx) ->
               layer_slot m' l i = layer_slot m l i) /\
  length <$> Slots m' = length <$> Slots m /\
  LayerLastIdx m' = LayerLastIdx m.

(** The counter of the calling thread is registered and no lock of the
    manager is held. *)
Definition quiescent (self : nat) (m : LayeredHashMap) : Prop :=
  is_Some (ThreadValues (Manager m) !! self) /\
  ManagerLock (Manager m) = false /\
  ValueUniqueLock (Manager m) = false.

(** The invariant of all the slots but the one at [(l0, i0)], which
    holds while that slot is locked. *)
Definition slots_inv_except (l0 i0 : nat) (m : LayeredHashMap) : Prop :=
  forall l i s, (l, i) <> (l0, i0) -> layer_slot m l i = Some s -> slot_inv s.

(** *** ThreadManager/ThreadManager.h: the end of a counter, [Reset] *)

Definition set_DTOR_ThreadValuesSum (x : Z) (g : ThreadManager) : ThreadManager :=
  {| DTOR_ThreadValuesSum := x;
     ThreadValues := ThreadValues g;
     ManagerLock := ManagerLock g;
     ValueUniqueLock := ValueUniqueLock g |}.

(** [DestructThreadValue]: [find_if] compares pointers, so the counter
    of the calling thread is found at its position [self] of the
    registry, and [end()] is dereferenced when it is not registered.  Its
    value is added to [DTOR_ThreadValuesSum], it is swapped with
    [back()] and popped: the counter that was last takes the position
    [self]. *)
Definition DestructThreadValue (self : nat) : Op unit :=
  ManagerLock_lock;;
  let* m := get in
  let* v := checked CounterOutOfRange (ThreadValues (Manager m) !! self) in
  modify (set_Manager (fun g =>
            set_DTOR_ThreadValuesSum
              (to_sInt tg (DTOR_ThreadValuesSum g + Value v)) g));;
  let* bk := checked CounterOutOfRange (last (ThreadValues (Manager m))) in
  modify (set_Manager (set_ThreadValues (fun l => removelast (<[self := bk]> l))));;
  ManagerLock_unlock.

(** [ThreadManager::Reset]: the sum of the destroyed counters is cleared
    and [ValueUniqueLock] is replaced by a lock that is not owned; the
    registry [ThreadValues] is left as it is. *)
Definition ThreadManager_Reset (g : ThreadManager) : ThreadManager :=
  {| DTOR_ThreadValuesSum := 0;
     ThreadValues := ThreadValues g;
     ManagerLock := ManagerLock g;
     ValueUniqueLock := false |}.

(** *** LayeredHashMap.h: the pool of instance indices

    [ConcurrentList<size_t>]: the list [Data]; the constructor pushes
    [0 .. MAX_INSTANCE_COUNT - 1] at the front, [pop_front] takes
    [front()], which is undefined on an empty list ([None]). *)

Definition MAX_INSTANCE_COUNT : nat := 1024.

Definition ConcurrentList_ctor : list nat :=
  fold_left (fun Data i => i :: Data) (seq 0 MAX_INSTANCE_COUNT) [].

Definition push_front (Val : nat) (Data : list nat) : list nat := Val :: Data.

Definition pop_front (Data : list nat) : option (nat * list nat) :=
  match Data with
  | [] => None
  | Ret :: Data' => Some (Ret, Data')
  end.

(** The statics [AvailableInstanceIdx] and [Managers]. *)
Record Process := {
  AvailableInstanceIdx : list nat;
  Managers : list ThreadManager
}.

Definition Process_start : Process :=
  {| AvailableInstanceIdx := ConcurrentList_ctor;
     Managers := replicate MAX_INSTANCE_COUNT ThreadManager_new |}.

(** [LayeredHashMap()] in a process: [InstanceIdx] is popped from the
    pool and the map works on [Managers[InstanceIdx]], which it holds
    until its destructor gives it back.  [None] is undefined
    behaviour. *)
Definition LayeredHashMap_construct (w : Process)
    : option (nat * LayeredHashMap * Process) :=
  '(InstanceIdx, Data) ← pop_front (AvailableInstanceIdx w);
  g ← Managers w !! InstanceIdx;
  match LayeredHashMap_ctor g with
  | Returned _ m =>
      Some (InstanceIdx, m,
            {| AvailableInstanceIdx := Data; Managers := Managers w |})
  | _ => None
  end.

(** [~LayeredHashMap()]: [Managers[InstanceIdx].Reset()], then the index
    goes back to the front of the pool. *)
Definition LayeredHashMap_destruct (InstanceIdx : nat) (m : LayeredHashMap)
    (w : Process) : Process :=
  {| AvailableInstanceIdx := push_front InstanceIdx (AvailableInstanceIdx w);
     Managers := <[InstanceIdx := ThreadManager_Reset (Manager m)]> (Managers w) |}.

(** [n] maps constructed one after the other, none destroyed: the
    indices they got, first map first. *)
Fixpoint construct_many (n : nat) (w : Process) : option (list nat * Process) :=
  match n with
  | O => Some ([], w)
  | S n' =>
      '(InstanceIdx, _, w') ← LayeredHashMap_construct w;
      '(l, w'') ← construct_many n' w';
      Some (InstanceIdx :: l, w'')
  end.

(** *** What the counters count *)

Definition sum_with {A} (f : A -> Z) (l : list A) : Z :=
  fold_right (fun a n => f a + n) 0 l.

(** The global value of a manager, as [GetGlobalValue] and
    [_UpdateManagerInternal] compute it. *)
Definition GlobalValue (g : ThreadManager) : Z :=
  to_uInt tg (ThreadValuesSum (ThreadValues g) + DTOR_ThreadValuesSum g).

(** The number of pairs the slots of the table hold. *)
Definition stored_count (s : Slot) : Z := Z.of_nat (length (stored s)).

Definition total_pairs (m : LayeredHashMap) : Z :=
  sum_with (sum_with stored_count) (Slots m).

(** The layers above [LayerLastIdx] are the empty vectors of the
    [std::array]. *)
Definition upper_layers_empty (m : LayeredHashMap) : Prop :=
  forall i v, LayerLastIdx m < Z.of_nat i -> Slots m !! i = Some v -> v = [].

(** A manager no map has counted on: no lock is held and the global
    value is zero (a new manager, or one on which threads have
    registered counters that were never incremented). *)
Definition unused (g : ThreadManager) : Prop :=
  ManagerLock g = false /\ ValueUniqueLock g = false /\ GlobalValue g = 0.

(** The states of a map in a sequential execution: the map is
    constructed on an unused manager, threads register and unregister
    their counters, and the public operations are called, each running to
    its end. *)
Inductive reachable : LayeredHashMap -> Prop :=
| reach_ctor g u m :
    unused g -> LayeredHashMap_ctor g = Returned u m -> reachable m
| reach_ctor_sized g InitialSize u m :
    unused g -> LayeredHashMap_ctor_sized g InitialSize = Returned u m ->
    reachable m
| reach_ConstructThreadValue m self m' :
    reachable m -> ConstructThreadValue m = Returned self m' -> reachable m'
| reach_DestructThreadValue m self u m' :
    reachable m -> DestructThreadValue self m = Returned u m' -> reachable m'
| reach_Write m self Key Val u m' :
    reachable m -> Write self Key Val m = Returned u m' -> reachable m'
| reach_Delete m self Key r m' :
    reachable m -> Delete self Key m = Returned r m' -> reachable m'
| reach_Read m Key v m' :
    reachable m -> Read Key m = Returned v m' -> reachable m'
| reach_Read_throws m Key e m' :
    reachable m -> Read Key m = Thrown e m' -> reachable m'
| reach_GetSize m n m' :
    reachable m -> GetSize m = Returned n m' -> reachable m'.

(** What holds of every such state. *)
Definition consistent (m : LayeredHashMap) : Prop :=
  well_formed m /\ slots_inv m /\ upper_layers_empty m /\
  ManagerLock (Manager m) = false /\ ValueUniqueLock (Manager m) = false /\
  GlobalValue (Manager m) = to_uInt tg (total_pairs m).

(** The keys of the pairs a slot holds are pairwise different. *)
Definition keys_distinct (m : LayeredHashMap) : Prop :=
  forall l i s, layer_slot m l i = Some s -> NoDup (fst <$> stored s).

(** Two states of a manager that differ by the thresholds of the
    counters at most. *)
Definition same_values (g g' : ThreadManager) : Prop :=
  DTOR_ThreadValuesSum g' = DTOR_ThreadValuesSum g /\
  Value <$> ThreadValues g' = Value <$> ThreadValues g /\
  ManagerLock g' = ManagerLock g /\
  ValueUniqueLock g' = ValueUniqueLock g.

(** Whether a list of pairs holds a pair with a key equal to [Key]. *)
Definition holds_key (Key : K) (ps : list Pair) : bool :=
  if find_if (key_is Key) ps is Some _ then true else false.

(** A step that moves the global value by [d], gives the locks of the
    manager back as it found them and keeps the counters registered. *)
Definition counted_step (d : Z) (g g' : ThreadManager) : Prop :=
  ManagerLock g' = ManagerLock g /\
  ValueUniqueLock g' = ValueUniqueLock g /\
  GlobalValue g' = to_uInt tg (GlobalValue g + d) /\
  length (ThreadValues g') = length (ThreadValues g).

(** *** [std::vector::resize] in its environment

    [std::vector::resize(n)] throws [std::length_error] when [n] is
    above [max_size()], and [std::bad_alloc] comes out of it when the
    allocator does not provide the storage; the vector is then left as
    it was.  The environment of a call is [max_size()] of the vector of
    slots and the answer of the allocator to a request for [n] slots. *)

Record Allocator := { max_size : Z; grants : Z -> bool }.

(** What stands in the way of new storage for [Size] slots. *)
Definition refused (a : Allocator) (Size : Z) : option exception :=
  if max_size a <? Size then Some length_error
  else if grants a Size then None
  else Some bad_alloc.

(** [std::vector::resize(Size)].  A vector that does not grow keeps
    its storage.  A vector that grows asks for new storage (a vector
    that was only resized has no spare capacity): the slots it holds are
    copied there, the copy of an [AtomicRWLock] being [EMPTY], and
    value-initialised slots follow them. *)
Definition vector_resize (a : Allocator) (Size : Z) (v : list Slot)
    : exception + list Slot :=
  if Size <=? Z.of_nat (length v) then inr (take (Z.to_nat Size) v)
  else
    match refused a Size with
    | Some e => inl e
    | None =>
        inr ((set_Lock EMPTY <$> v)
               ++ replicate (Z.to_nat Size - length v) Slot_new)
    end.

(** [MAP_ALLOC(Idx, Size)]. *)
Definition MAP_ALLOC_in (a : Allocator) (Idx Size : Z) : Op unit :=
  let* m := get in
  let* v := checked SlotsOutOfRange (Slots m !! Z.to_nat Idx) in
  match vector_resize a Size v with
  | inl e => throw e
  | inr v' => modify (set_Slots (<[Z.to_nat Idx := v']>))
  end.

(** [AllocateLayer]: [LayerLastIdx] is advanced before the resize, and
    stays advanced when the resize throws. *)
Definition AllocateLayer_in (a : Allocator) : Op unit :=
  let* m := get in
  let* OldPrime := checked TableOutOfRange (Primes tg (LayerLastIdx m)) in
  let LayerLastIdx' := to_uInt tg (LayerLastIdx m + 1) in
  modify (set_LayerLastIdx LayerLastIdx');;
  let* NewPrime := checked TableOutOfRange (Primes tg LayerLastIdx') in
  let DeltaPrime := to_uInt tg (NewPrime - OldPrime) in
  MAP_ALLOC_in a LayerLastIdx' DeltaPrime.

Definition RESIZE_FUNC_in (a : Allocator) (GlobalValue : Z) : Op Z :=
  let* m := get in
  let* p := checked TableOutOfRange (Primes tg (LayerLastIdx m)) in
  (if p <? GlobalValue then AllocateLayer_in a else ret tt);;
  let* m' := get in
  checked TableOutOfRange (Primes tg (LayerLastIdx m')).

Definition MAP_INIT_in (a : Allocator) : Op unit :=
  let* FirstPrime := checked TableOutOfRange (Primes tg 0) in
  MAP_ALLOC_in a 0 FirstPrime.

(** [LayeredHashMap()]; an exception leaves the constructor and no map
    exists. *)
Definition LayeredHashMap_ctor_in (a : Allocator) (g : ThreadManager)
    : outcome LayeredHashMap unit :=
  MAP_INIT_in a (LayeredHashMap_members g).

Fixpoint grow_until_in (a : Allocator) (fuel : nat) (InitialSize : Z) : Op unit :=
  match fuel with
  | O => spins
  | S fuel' =>
      let* m := get in
      let* p := checked TableOutOfRange (Primes tg (LayerLastIdx m)) in
      if p <? InitialSize then AllocateLayer_in a;; grow_until_in a fuel' InitialSize
      else ret tt
  end.

(** [LayeredHashMap(InitialSize)]. *)
Definition LayeredHashMap_ctor_sized_in (a : Allocator) (g : ThreadManager)
    (InitialSize : Z) : outcome LayeredHashMap unit :=
  (MAP_INIT_in a;; grow_until_in a (S (Z.to_nat (MaxLayerCount tg))) InitialSize)
    (LayeredHashMap_members g).

(** The number of slots of layer [i], [Primes[i] - Primes[i - 1]], and
    what stands in the way of its storage. *)
Definition layer_size (i : Z) : option Z :=
  lo ← Primes tg (i - 1); hi ← Primes tg i; Some (to_uInt tg (hi - lo)).

Definition layer_refused (a : Allocator) (i : Z) : option exception :=
  Size ← layer_size i; refused a Size.

(** A call whose exception the caller catches:
    [try { c; } catch (...) { }]. *)
Definition caught (c : Op unit) : Op unit :=
  fun m =>
    match c m with
    | Thrown _ m' => Returned tt m'
    | o => o
    end.

(** [n] calls of the public [AllocateLayer], each in a [try] block. *)
Fixpoint AllocateLayers_caught (a : Allocator) (n : nat) : Op unit :=
  match n with
  | O => ret tt
  | S n' => caught (AllocateLayer_in a);; AllocateLayers_caught a n'
  end.

(** The maps a program gets from the constructor and calls of the
    public [AllocateLayer], in any environment, the exceptions of the
    calls being caught. *)
Inductive grown_by_calls : LayeredHashMap -> Prop :=
| grown_ctor a g m :
    LayeredHashMap_ctor_in a g = Returned tt m -> grown_by_calls m
| grown_returned a m m' :
    grown_by_calls m -> AllocateLayer_in a m = Returned tt m' -> grown_by_calls m'
| grown_caught a e m m' :
    grown_by_calls m -> AllocateLayer_in a m = Thrown e m' -> grown_by_calls m'.

(** The shape of these maps: the [std::array] has [MaxLayerCount]
    vectors, [LayerLastIdx] is an index of the table and the layers
    above it are empty. *)
Definition table_shape (m : LayeredHashMap) : Prop :=
  length (Slots m) = Z.to_nat (MaxLayerCount tg) /\
  0 <= LayerLastIdx m < MaxLayerCount tg /\
  upper_layers_empty m.

(** Growth guarded by a capacity check: in a map whose [LayerLastIdx]
    names the last layer of the table, [AllocateLayer] fails with an
    error. *)
Definition capacity_checked : Prop :=
  forall (a : Allocator) (m : LayeredHashMap),
    grown_by_calls m ->
    LayerLastIdx m = MaxLayerCount tg - 1 ->
    exists e m', AllocateLayer_in a m = Thrown e m'.

End Map.

(** ** Statements about the tables

    The relation the comment of [LayeredHashMapMathematics.h] gives between
    two successive entries of [NextPower], "NP[i + 1] = 2 * NP[i]". *)
Definition NextPower_doubles (tg : target) (i : Z) : Prop :=
  exists n n', NextPower tg i = Some n /\ NextPower tg (i + 1) = Some n' /\ n' = 2 * n.

(** ** A concrete instance: integer keys and values

    Keys and values are integers, [LayeredHash] casts the key to [size_t]
    and [Pred] is [std::equal_to].  The scenarios below only meet the
    thresholds 757 and 1783, whose product with [MAX_ERROR = 0.00001] is
    below one and truncates to zero, as does the quotient by 100000. *)
Module Ints.

Definition Hash (Key : Z) : Z := Key.
Definition Pred (a b : Z) : bool := a =? b.
Definition MAX_ERROR_margin (Threshold : Z) : Z := Threshold / 100000.

Definition St : Type := @LayeredHashMap Z Z.

Definition Write (tg : target) := @Write tg Z Z Hash Pred 0 0 MAX_ERROR_margin.
Definition Delete (tg : target) := @Delete tg Z Z Hash Pred.
Definition Read (tg : target) := @Read tg Z Z Hash Pred.
Definition GetSize (tg : target) : Op Z := @GetSize tg Z Z.
Definition Increment (tg : target) := @Increment tg Z Z 0 0 MAX_ERROR_margin.
Definition ConstructThreadValue (tg : target) : Op nat :=
  @ConstructThreadValue tg Z Z 0 0 MAX_ERROR_margin.

(** An outcome without its final state. *)
Definition result {A} (o : outcome St A) : outcome unit A :=
  match o with
  | Returned a _ => Returned a tt
  | Thrown e _ => Thrown e tt
  | Undefined f => Undefined f
  | Spins => Spins
  end.

(** A fresh process: the map is constructed, then the thread registers its
    counter (the [thread_local] vector [Values] is built when the thread
    first uses it) and runs [c] with the position of its counter. *)
Definition fresh {A} (tg : target) (c : nat -> Op A) : outcome St A :=
  match LayeredHashMap_ctor tg 0 0 ThreadManager_new with
  | Returned _ m => bind (ConstructThreadValue tg) c m
  | Thrown e m => Thrown e m
  | Undefined f => Undefined f
  | Spins => Spins
  end.

(** [Write(k, k + 1000)] for the keys [0 .. n-1], in order. *)
Fixpoint write_keys (tg : target) (self : nat) (from : Z) (n : nat) : Op unit :=
  match n with
  | O => ret tt
  | S n' => bind (Write tg self from (from + 1000))
                 (fun _ => write_keys tg self (from + 1) n')
  end.

(** [n] calls of [Increment] on the counter at [self]. *)
Fixpoint increments (tg : target) (self : nat) (n : nat) : Op unit :=
  match n with
  | O => ret tt
  | S n' => bind (Increment tg self) (fun _ => increments tg self n')
  end.

(** Two threads have registered their counters, in turn, and the first
    has incremented its counter [n] times. *)
Definition two_counters (tg : target) (n : nat) : outcome St unit :=
  fresh tg (fun self =>
    bind (ConstructThreadValue tg) (fun _ => increments tg self n)).

Definition counters {A} (o : outcome St A) : list ThreadValue :=
  match o with
  | Returned _ m => ThreadValues (Manager m)
  | Thrown _ m => ThreadValues (Manager m)
  | _ => []
  end.

(** The pairs held by the slot at [(LayerIdx, SlotIdx)] of the final
    state. *)
Definition final_stored {A} (o : outcome St A) (LayerIdx SlotIdx : Z)
    : option (list (Z * Z)) :=
  match o with
  | Returned _ m => stored <$> slot_at m LayerIdx SlotIdx
  | Thrown _ m => stored <$> slot_at m LayerIdx SlotIdx
  | _ => None
  end.

(** The final state of an outcome that has one. *)
Definition state_of {A} (o : outcome St A) : St :=
  match o with
  | Returned _ m => m
  | Thrown _ m => m
  | _ => LayeredHashMap_members x86_msvc ThreadManager_new
  end.

(** A new map on the 32-bit tables, the map after its first thread has
    registered its counter, and that map after [Write(5, 7)]. *)
Definition constructed : St :=
  state_of (LayeredHashMap_ctor x86_msvc 0 0 ThreadManager_new).

Definition new_map : St :=
  state_of (ConstructThreadValue x86_msvc constructed).

Definition one_key : St :=
  state_of (Write x86_msvc 0 5 7 new_map).

(** [one_key] after [Delete(5)], and after [Write(9, 3)]. *)
Definition deleted : St :=
  state_of (Delete x86_msvc 0 5 one_key).

Definition two_keys : St :=
  state_of (Write x86_msvc 0 9 3 one_key).

(** [one_key] after [Write(762, 3)], a key that addresses the slot of the
    key 5, and that map after [Delete(5)]. *)
Definition colliding : St :=
  state_of (Write x86_msvc 0 762 3 one_key).

Definition colliding_deleted : St :=
  state_of (Delete x86_msvc 0 5 colliding).

(** An environment of the 32-bit build: with slots of 24 bytes the
    vector of slots has [max_size() = (2^32 - 1) / 24], and the heap
    grants up to 4096 slots at a time. *)
Definition small_heap : Allocator :=
  {| max_size := 178956970; grants := fun Size => Size <=? 4096 |}.

(** The new map after [MaxLayerCount - 1 = 22] calls of [AllocateLayer] in
    this environment, the program catching the exceptions: the layers 1
    and 2 were granted, the later ones refused. *)
Definition at_capacity : St :=
  state_of (AllocateLayers_caught x86_msvc 0 0 small_heap 22 constructed).

(** The process after its first map has been constructed. *)
Definition after_first_map : Process :=
  match LayeredHashMap_construct x86_msvc (K:=Z) (T:=Z) 0 0 Process_start with
  | Some (_, _, w) => w
  | None => Process_start
  end.

End Ints.

(** ** LayeredHash.h

    [_Hash] of a [basic_string]: the characters are given by their values
    as integers; the sum and the shift are taken in [size_t]. *)
Definition _Hash_step (tg : target) (Hash c : Z) : Z :=
  let Hash := to_uInt tg (Hash + c) in
  to_uInt tg (Z.shiftl Hash 5 + Hash).

Definition _Hash_string (tg : target) (Str : list Z) : Z :=
  fold_left (_Hash_step tg) Str 5381.

(** [_Hash] of a [std::pair], from the hashes of the two components. *)
Definition _Hash_pair {X Y} (_Hash_X : X -> Z) (_Hash_Y : Y -> Z) (Pair : X * Y) : Z :=
  Z.lxor (_Hash_X (fst Pair)) (_Hash_Y (snd Pair)).

(** ** AtomicRWLock.h: the fields of the lock word *)
Definition reader_count (ThisLock : Z) : Z := Z.land ThisLock READER_COUNT_MASK.
Definition writer_bit (ThisLock : Z) : Z := Z.land ThisLock WRITER_BIT_MASK.
Definition value_bits (ThisLock : Z) : Z := Z.land ThisLock VALUE_BITS_MASK.

(** * Properties *)

(** ** Integer logarithm *)

Lemma testbit_above_pow2 (x n i : Z) :
  0 <= x < 2 ^ n -> 0 <= n <= i -> Z.testbit x i = false.
Proof.
  intros Hx Hi.
  rewrite <- (Z.mod_small x (2 ^ n)) by lia.
  apply Z.mod_pow2_bits_high. lia.
Qed.

(** The mask [b[i]] selects the upper half of a [2*s]-bit value. *)
Lemma land_upper_mask (s X : Z) :
  0 < s -> 0 <= X < 2 ^ (2 * s) ->
  Z.land X (2 ^ (2 * s) - 2 ^ s) = Z.shiftl (Z.shiftr X s) s.
Proof.
  intros Hs HX.
  replace (2 ^ (2 * s) - 2 ^ s) with (Z.shiftl (Z.ones s) s).
  2:{ rewrite Z.shiftl_mul_pow2, Z.ones_equiv by lia.
      replace (2 * s) with (s + s) by lia. rewrite Z.pow_add_r by lia. lia. }
  apply Z.bits_inj'. intros n Hn.
  rewrite Z.land_spec.
  destruct (Z.lt_ge_cases n s) as [Hlt|Hge].
  - rewrite !Z.shiftl_spec_low by lia. apply andb_false_r.
  - rewrite !Z.shiftl_spec by lia. rewrite Z.shiftr_spec by lia.
    replace (n - s + s) with n by lia.
    destruct (Z.lt_ge_cases n (2 * s)) as [Hlt2|Hge2].
    + rewrite Z.ones_spec_low by lia. apply andb_true_r.
    + rewrite (testbit_above_pow2 X (2 * s) n) by lia. reflexivity.
Qed.

Lemma land_upper_mask_zero (s X : Z) :
  0 < s -> 0 <= X < 2 ^ (2 * s) ->
  Z.land X (2 ^ (2 * s) - 2 ^ s) = 0 <-> X < 2 ^ s.
Proof.
  intros Hs HX. rewrite land_upper_mask by lia.
  rewrite Z.shiftl_eq_0_iff by lia.
  rewrite Z.shiftr_div_pow2 by lia.
  assert (0 < 2 ^ s) by (apply Z.pow_pos_nonneg; lia).
  split; intros H1.
  - apply Z.div_small_iff in H1; lia.
  - apply Z.div_small; lia.
Qed.

Lemma lor_pow2_add (q i : Z) :
  0 <= i -> Z.lor (q * 2 ^ (i + 1)) (2 ^ i) = q * 2 ^ (i + 1) + 2 ^ i.
Proof.
  intros Hi.
  assert (Hland : Z.land (q * 2 ^ (i + 1)) (2 ^ i) = 0).
  { apply Z.bits_inj'. intros n Hn.
    rewrite Z.land_spec, Z.bits_0, Z.pow2_bits_eqb by lia.
    destruct (Z.eqb_spec i n) as [->|Hne]; [|apply andb_false_r].
    rewrite <- Z.shiftl_mul_pow2 by lia.
    rewrite Z.shiftl_spec_low by lia. reflexivity. }
  rewrite (Z.add_nocarry_lxor _ _ Hland).
  symmetry. apply (Z.lxor_lor _ _ Hland).
Qed.

Lemma IntLog2_tables (tg : target) (i : nat) :
  (i <= Log2Iterations tg)%nat ->
  nth i (b tg) 0 = 2 ^ (2 * 2 ^ Z.of_nat i) - 2 ^ (2 ^ Z.of_nat i) /\
  nth i S_ 0 = 2 ^ Z.of_nat i.
Proof.
  intros Hi.
  destruct tg as [[] p]; cbv [Log2Iterations word] in Hi;
    do 6 (destruct i as [|i]; [first [lia | split; vm_compute; reflexivity]|]); lia.
Qed.

Lemma IntLog2_loop_spec (tg : target) (n : nat) :
  (n <= S (Log2Iterations tg))%nat ->
  forall X R q, 0 < X < 2 ^ (2 ^ Z.of_nat n) ->
    R = q * 2 ^ Z.of_nat n ->
    IntLog2_loop tg n X R = R + Z.log2 X.
Proof.
  induction n as [|i IH]; intros Hn X R q HX HR.
  - simpl in *. assert (X = 1) by lia. subst X. simpl. lia.
  - cbn [IntLog2_loop].
    destruct (IntLog2_tables tg i ltac:(lia)) as [Hb Hs].
    rewrite Hb, Hs.
    rewrite Nat2Z.inj_succ, <- Z.add_1_r in HR.
    rewrite Nat2Z.inj_succ, Z.pow_succ_r in HX by lia.
    assert (Hlor : Z.lor R (2 ^ Z.of_nat i) = R + 2 ^ Z.of_nat i).
    { subst R. apply lor_pow2_add. lia. }
    assert (HR' : R = 2 * q * 2 ^ Z.of_nat i).
    { rewrite HR, Z.pow_add_r by lia. lia. }
    clear HR.
    set (s := 2 ^ Z.of_nat i) in *.
    assert (Hspos : 0 < s) by (apply Z.pow_pos_nonneg; lia).
    assert (H2s : 0 < 2 ^ s) by (apply Z.pow_pos_nonneg; lia).
    destruct (Z.land X (2 ^ (2 * s) - 2 ^ s) =? 0) eqn:E; cbn [negb].
    + apply Z.eqb_eq in E. apply land_upper_mask_zero in E; [|lia|lia].
      apply (IH ltac:(lia) X R (2 * q)); fold s; lia.
    + apply Z.eqb_neq in E. rewrite land_upper_mask_zero in E by lia.
      rewrite (IH ltac:(lia) (Z.shiftr X s) (Z.lor R s) (2 * q + 1)); fold s.
      * rewrite Z.log2_shiftr by lia.
        assert (s <= Z.log2 X) by (apply (proj1 (Z.log2_le_pow2 X s (proj1 HX))); lia).
        lia.
      * rewrite Z.shiftr_div_pow2 by lia. split.
        -- apply Z.div_str_pos. lia.
        -- apply Z.div_lt_upper_bound; [lia|].
           rewrite <- Z.pow_add_r by lia. replace (s + s) with (2 * s) by lia. lia.
      * lia.
Qed.

Lemma IntLog2_spec (tg : target) (X : Z) :
  0 < X < 2 ^ bits tg -> IntLog2 tg X = Z.log2 X.
Proof.
  intros HX. unfold IntLog2.
  rewrite (IntLog2_loop_spec tg _ (le_n _) X 0 0); [lia| |lia].
  destruct tg as [[] p]; exact HX.
Qed.

(** ** The tables *)

Lemma to_uInt_small (tg : target) (z : Z) :
  0 <= z < 2 ^ bits tg -> to_uInt tg z = z.
Proof. intros H. unfold to_uInt. apply Z.mod_small. exact H. Qed.

Lemma to_uInt_range (tg : target) (z : Z) : 0 <= to_uInt tg z < 2 ^ bits tg.
Proof.
  unfold to_uInt. apply Z.mod_pos_bound.
  destruct tg as [[] p]; reflexivity.
Qed.

Lemma Primes_wrap (tg : target) (i : Z) :
  Primes tg (to_uInt tg i) = Primes tg i.
Proof.
  unfold Primes, to_uInt. rewrite Zplus_mod_idemp_l. reflexivity.
Qed.

Lemma Primes_minus_one (tg : target) : Primes tg (-1) = Some 0.
Proof. destruct tg as [[] p]; reflexivity. Qed.

Lemma LowestNextPower_pow2 (tg : target) :
  LowestNextPower tg = 2 ^ LowestExponent tg.
Proof. destruct tg as [[] p]; reflexivity. Qed.

Lemma MaxLayerCount_bits (tg : target) :
  LowestExponent tg + MaxLayerCount tg = bits tg \/
  LowestExponent tg + MaxLayerCount tg < bits tg.
Proof. destruct tg as [[] p]; cbv; auto. Qed.

Lemma prime_in_window_all (tg : target) :
  forallb (prime_in_window tg) (seq 0 (Z.to_nat (MaxLayerCount tg))) = true.
Proof. destruct tg as [[] p]; vm_compute; reflexivity. Qed.

(** Every prime of the table sits in its own binary window:
    [2^e <= Primes[e - LowestExponent] < 2^(e+1)]. *)
Lemma Primes_window (tg : target) (e : Z) :
  LowestExponent tg <= e < LowestExponent tg + MaxLayerCount tg ->
  exists p, Primes tg (e - LowestExponent tg) = Some p /\ 2 ^ e <= p < 2 ^ (e + 1).
Proof.
  intros He.
  pose proof (prime_in_window_all tg) as Hall.
  rewrite forallb_forall in Hall.
  specialize (Hall (Z.to_nat (e - LowestExponent tg))).
  unfold prime_in_window in Hall.
  rewrite Z2Nat.id in Hall by lia.
  replace (LowestExponent tg + (e - LowestExponent tg)) with e in Hall by lia.
  destruct (Primes tg (e - LowestExponent tg)) as [p|].
  - exists p. split; [reflexivity|].
    assert (Hin : In (Z.to_nat (e - LowestExponent tg))
                     (seq 0 (Z.to_nat (MaxLayerCount tg)))).
    { apply in_seq. lia. }
    apply Hall in Hin. apply andb_true_iff in Hin. lia.
  - assert (Hin : In (Z.to_nat (e - LowestExponent tg))
                     (seq 0 (Z.to_nat (MaxLayerCount tg)))).
    { apply in_seq. lia. }
    apply Hall in Hin. discriminate.
Qed.

Lemma pow2_bits_bound (tg : target) (e : Z) :
  0 <= e < LowestExponent tg + MaxLayerCount tg -> 2 ^ (e + 1) <= 2 ^ bits tg.
Proof.
  intros He. apply Z.pow_le_mono_r; [lia|].
  destruct (MaxLayerCount_bits tg); lia.
Qed.

(** ** Slot addressing *)

Lemma LowestExponent_pos (tg : target) : 0 < LowestExponent tg.
Proof. destruct tg as [[] p]; reflexivity. Qed.

Lemma MaxLayerCount_pos (tg : target) : 0 < MaxLayerCount tg.
Proof. destruct tg as [[] p]; reflexivity. Qed.

(** What [GetLayer] and [GetSlot] compute on a raw hash below
    [Primes[last]]. *)
Lemma address_spec (tg : target) (last pl rh : Z) :
  0 <= last < MaxLayerCount tg ->
  Primes tg last = Some pl ->
  0 <= rh < pl ->
  exists layer lo hi,
    0 <= layer <= last /\
    GetLayer tg rh = Some layer /\
    GetSlot tg rh layer = Some (rh - lo) /\
    Primes tg (layer - 1) = Some lo /\
    Primes tg layer = Some hi /\
    lo <= rh < hi.
Proof.
  intros Hlast Hpl Hrh.
  pose proof (LowestExponent_pos tg) as HLE.
  pose proof (Primes_window tg) as PW.
  pose proof (pow2_bits_bound tg) as PB.
  unfold GetLayer. rewrite LowestNextPower_pow2.
  remember (LowestExponent tg) as LE eqn:ELE.
  destruct (PW (LE + last) ltac:(lia)) as (pl' & Hpl' & Hwl).
  replace (LE + last - LE) with last in Hpl' by lia.
  rewrite Hpl in Hpl'. injection Hpl' as <-.
  pose proof (PB (LE + last) ltac:(lia)) as Hbits.
  assert (HLNP : 0 < 2 ^ LE) by (apply Z.pow_pos_nonneg; lia).
  set (arg := rh + b2z (rh <? 2 ^ LE) * 2 ^ LE).
  assert (Harg : 2 ^ LE <= arg < 2 ^ (LE + last + 1)).
  { unfold arg. destruct (Z.ltb_spec rh (2 ^ LE)); cbn [b2z]; [|lia].
    assert (2 ^ (LE + 1) <= 2 ^ (LE + last + 1)) by (apply Z.pow_le_mono_r; lia).
    rewrite Z.pow_add_r in H0 by lia. change (2 ^ 1) with 2 in H0. lia. }
  rewrite (to_uInt_small tg arg) by lia.
  rewrite IntLog2_spec by lia.
  set (e := Z.log2 arg).
  assert (He : LE <= e <= LE + last).
  { split.
    - apply (proj1 (Z.log2_le_pow2 arg LE ltac:(lia))). lia.
    - assert (e < LE + last + 1); [|lia].
      apply (proj1 (Z.log2_lt_pow2 arg (LE + last + 1) ltac:(lia))). lia. }
  assert (Hspec : 2 ^ e <= arg < 2 ^ (e + 1)).
  { pose proof (Z.log2_spec arg ltac:(lia)) as Hs. fold e in Hs.
    rewrite <- Z.add_1_r in Hs. exact Hs. }
  assert (Hb64 : 2 ^ bits tg > LE + last) .
  { pose proof (Z.pow_gt_lin_r 2 (LE + last + 1) ltac:(lia)). lia. }
  rewrite (to_uInt_small tg (e - LE)) by lia.
  destruct (PW e ltac:(lia)) as (pj & Hpj & Hwj).
  rewrite Hpj. cbn [mbind option_bind].
  destruct (Z.ltb_spec rh (2 ^ LE)) as [Hlow|Hhigh].
  - (* rawHash < LowestNextPower: layer 0 *)
    assert (e = LE).
    { apply Z.log2_unique; [lia|]. rewrite <- Z.add_1_r.
      assert (Ha : arg = rh + 2 ^ LE).
      { unfold arg. destruct (Z.ltb_spec rh (2 ^ LE)); cbn [b2z]; lia. }
      rewrite Z.pow_add_r by lia. change (2 ^ 1) with 2. lia. }
    replace (e - LE) with 0 in * by lia.
    assert (Hcmp : (pj <=? rh) = false).
    { apply Z.leb_gt. assert (2 ^ LE <= 2 ^ e) by (apply Z.pow_le_mono_r; lia). lia. }
    rewrite Hcmp. cbn [b2z]. rewrite to_uInt_small by lia.
    exists 0, 0, pj. unfold GetSlot. cbn [Z.add Z.sub Z.opp].
    rewrite Primes_wrap, Primes_minus_one. cbn [mbind option_bind].
    rewrite Z.sub_0_r, to_uInt_small by lia.
    repeat split; try lia; auto using Primes_minus_one.
  - assert (Ha : arg = rh).
    { unfold arg. destruct (Z.ltb_spec rh (2 ^ LE)); cbn [b2z]; lia. }
    rewrite Ha in Hspec.
    destruct (Z.leb_spec pj rh) as [Hge|Hlt]; cbn [b2z].
    + (* rawHash >= Primes[LayerIdx]: the next layer *)
      assert (Hnext : e + 1 <= LE + last).
      { destruct (Z.eq_dec e (LE + last)) as [->|]; [|lia].
        replace (LE + last - LE) with last in Hpj by lia. rewrite Hpl in Hpj.
        injection Hpj as <-. lia. }
      destruct (PW (e + 1) ltac:(lia)) as (pn & Hpn & Hwn).
      rewrite to_uInt_small by lia.
      exists (e - LE + 1), pj, pn. unfold GetSlot.
      replace (e - LE + 1 - 1) with (e - LE) by lia.
      rewrite Primes_wrap, Hpj. cbn [mbind option_bind].
      rewrite to_uInt_small by lia.
      replace (e - LE + 1) with (e + 1 - LE) by lia.
      repeat split; try lia; auto.
    + rewrite Z.add_0_r, to_uInt_small by lia.
      destruct (Z.eq_dec e LE) as [Heq|Hne].
      * replace (e - LE) with 0 in * by lia.
        exists 0, 0, pj. unfold GetSlot. cbn [Z.add Z.sub Z.opp].
        rewrite Primes_wrap, Primes_minus_one. cbn [mbind option_bind].
        rewrite Z.sub_0_r, to_uInt_small by lia.
        repeat split; try lia; auto using Primes_minus_one.
      * destruct (PW (e - 1) ltac:(lia)) as (pp & Hpp & Hwp).
        replace (e - 1 + 1) with e in Hwp by lia.
        replace (e - 1 - LE) with (e - LE - 1) in Hpp by lia.
        exists (e - LE), pp, pj. unfold GetSlot.
        rewrite Primes_wrap, Hpp. cbn [mbind option_bind].
        rewrite to_uInt_small by lia.
        repeat split; try lia; auto.
Qed.

(** ** C9: the prime and power tables *)

Lemma Z_range_cases (n : nat) (P : Z -> Prop) :
  Forall P (map Z.of_nat (seq 0 n)) ->
  forall i, 0 <= i < Z.of_nat n -> P i.
Proof.
  intros HF i Hi. rewrite Forall_forall in HF. apply HF.
  apply list_elem_of_In, in_map_iff. exists (Z.to_nat i). split; [lia|].
  apply in_seq. lia.
Qed.

(** C9 (as amended).  For both table pairs and every index [i] with
    [i + 1] in range: [P] is strictly increasing, [NP[i] < P[i+1] < NP[i+1]],
    every [NP] entry is a power of two minus one, two successive entries
    satisfy [NP[i+1] = 2 * NP[i] + 1] (the powers of two double, the masks
    do not), [P[i+1] > P[i] + NP[i]] and [P[i] - NP[i] < P[0]]. *)
Theorem tables_invariants (tg : target) (i : Z) :
  0 <= i -> i + 1 < MaxLayerCount tg ->
  exists p p' n n' p0,
    Primes tg i = Some p /\ Primes tg (i + 1) = Some p' /\
    NextPower tg i = Some n /\ NextPower tg (i + 1) = Some n' /\
    Primes tg 0 = Some p0 /\
    p < p' /\
    n < p' < n' /\
    n = 2 ^ (LowestExponent tg + 1 + i) - 1 /\
    n' = 2 ^ (LowestExponent tg + 1 + (i + 1)) - 1 /\
    n' = 2 * n + 1 /\
    p' > p + n /\
    p - n < p0.
Proof.
  intros H0 H1. revert i H0 H1.
  enough (H : forall i, 0 <= i < Z.of_nat (Z.to_nat (MaxLayerCount tg - 1)) ->
            exists p p' n n' p0,
              Primes tg i = Some p /\ Primes tg (i + 1) = Some p' /\
              NextPower tg i = Some n /\ NextPower tg (i + 1) = Some n' /\
              Primes tg 0 = Some p0 /\
              p < p' /\ n < p' < n' /\
              n = 2 ^ (LowestExponent tg + 1 + i) - 1 /\
              n' = 2 ^ (LowestExponent tg + 1 + (i + 1)) - 1 /\
              n' = 2 * n + 1 /\ p' > p + n /\ p - n < p0).
  { intros i H0 H1. apply H. lia. }
  apply Z_range_cases.
  destruct tg as [[] pl]; cbv [MaxLayerCount word Z.sub Z.add Z.opp Z.pos_sub Z.to_nat
    Pos.to_nat Pos.iter_op Init.Nat.add Pos.pred_double seq map];
    repeat (apply Forall_cons; split;
      [ do 5 eexists; repeat (split; [vm_compute; reflexivity|]);
        vm_compute; repeat split; congruence | ]);
    apply Forall_nil; exact I.
Qed.

Lemma tables_invariants_witness :
  exists p p' n n' p0,
    Primes amd64_msvc 3 = Some p /\ Primes amd64_msvc (3 + 1) = Some p' /\
    NextPower amd64_msvc 3 = Some n /\ NextPower amd64_msvc (3 + 1) = Some n' /\
    Primes amd64_msvc 0 = Some p0 /\
    p < p' /\
    n < p' < n' /\
    n = 2 ^ (LowestExponent amd64_msvc + 1 + 3) - 1 /\
    n' = 2 ^ (LowestExponent amd64_msvc + 1 + (3 + 1)) - 1 /\
    n' = 2 * n + 1 /\
    p' > p + n /\
    p - n < p0.
Proof.
  apply (tables_invariants amd64_msvc 3); [lia | reflexivity].
Defined.

(** C9 (as stated): [NP[1] = 2047] is not twice [NP[0] = 1023]. *)
Lemma NextPower_not_doubled : ~ NextPower_doubles x86_msvc 0.
Proof.
  intros (n & n' & Hn & Hn' & Hd).
  vm_compute in Hn, Hn'. injection Hn as <-. injection Hn' as <-. discriminate.
Qed.

(** ** C3: the layer and the offset of a raw hash *)

(** C3.  For every [last] in range and every raw hash below [Primes[last]],
    [GetLayer] and [GetSlot] return a layer and an offset with
    [P[layer-1] <= rawHash < P[layer]] and [offset < P[layer] - P[layer-1]],
    where [Primes[-1] = 0]; no table read is out of range. *)
Theorem layer_math (tg : target) (last pl rawHash : Z) :
  0 <= last < MaxLayerCount tg ->
  Primes tg last = Some pl ->
  0 <= rawHash < pl ->
  exists layer offset lo hi,
    GetLayer tg rawHash = Some layer /\
    GetSlot tg rawHash layer = Some offset /\
    Primes tg (layer - 1) = Some lo /\
    Primes tg layer = Some hi /\
    lo <= rawHash < hi /\
    0 <= offset < hi - lo.
Proof.
  intros Hlast Hpl Hrh.
  destruct (address_spec tg last pl rawHash Hlast Hpl Hrh)
    as (layer & lo & hi & Hl & HL & HS & Hlo & Hhi & Hb).
  exists layer, (rawHash - lo), lo, hi. repeat split; auto; lia.
Qed.

Lemma layer_math_witness :
  exists layer offset lo hi,
    GetLayer x86_msvc 1000 = Some layer /\
    GetSlot x86_msvc 1000 layer = Some offset /\
    Primes x86_msvc (layer - 1) = Some lo /\
    Primes x86_msvc layer = Some hi /\
    lo <= 1000 < hi /\
    0 <= offset < hi - lo.
Proof.
  apply (layer_math x86_msvc 1 1783 1000); [change (0 <= 1 < 23); lia | reflexivity | lia].
Defined.

(** ** Reasoning about outcomes *)

Lemma bind_Returned {St A B} (c : M St A) (k : A -> M St B) s b s'' :
  bind c k s = Returned b s'' ->
  exists a s', c s = Returned a s' /\ k a s' = Returned b s''.
Proof.
  unfold bind. destruct (c s) as [a s'| | |]; try discriminate. eauto.
Qed.

Lemma bind_Thrown {St A B} (c : M St A) (k : A -> M St B) s e s'' :
  bind c k s = Thrown e s'' ->
  c s = Thrown e s'' \/ exists a s', c s = Returned a s' /\ k a s' = Thrown e s''.
Proof.
  unfold bind. destruct (c s) as [a s'| | |]; intros H; try discriminate.
  - right. eauto.
  - left. injection H as -> ->. reflexivity.
Qed.

Lemma Returned_state {St A} (a a' : A) (s s' : St) :
  Returned a s = Returned a' s' -> s = s'.
Proof. intros [= _ ->]. reflexivity. Qed.

Lemma bind_step {St A B} (c : M St A) (k : A -> M St B) s a s' :
  c s = Returned a s' -> bind c k s = k a s'.
Proof. unfold bind. intros ->. reflexivity. Qed.

Lemma checked_Returned {St A} f (o : option A) (s : St) a s' :
  checked f o s = Returned a s' -> o = Some a /\ s' = s.
Proof. destruct o; cbn; intros H; inversion H; auto. Qed.

Lemma checked_not_Thrown {St A} f (o : option A) (s : St) e s' :
  checked f o s <> Thrown e s'.
Proof. destruct o; cbn; discriminate. Qed.

Lemma acquired_Returned {St A} (o : option A) (s : St) a s' :
  acquired o s = Returned a s' -> o = Some a /\ s' = s.
Proof. destruct o; cbn; intros H; inversion H; auto. Qed.

Lemma acquired_not_Thrown {St A} (o : option A) (s : St) e s' :
  acquired o s <> Thrown e s'.
Proof. destruct o; cbn; discriminate. Qed.

(** Decompose a hypothesis [c m = Returned a m'] along the binds of [c]. *)
Ltac inv_ret H :=
  lazymatch type of H with
  | bind _ _ _ = Returned _ _ =>
      let a := fresh "a" in let s := fresh "m" in
      let H1 := fresh "Hc" in let H2 := fresh "Hk" in
      apply bind_Returned in H; destruct H as (a & s & H1 & H2);
      inv_ret H1; cbn beta in H2; inv_ret H2
  | get _ = Returned _ _ => unfold get in H; inversion H; subst; clear H
  | ret _ _ = Returned _ _ => unfold ret in H; inversion H; subst; clear H
  | modify _ _ = Returned _ _ => unfold modify in H; inversion H; subst; clear H
  | checked _ _ _ = Returned _ _ =>
      let E := fresh "E" in
      apply checked_Returned in H; destruct H as [E ->]
  | acquired _ _ = Returned _ _ =>
      let E := fresh "E" in
      apply acquired_Returned in H; destruct H as [E ->]
  | throw _ _ = Returned _ _ => discriminate H
  | undefined _ _ = Returned _ _ => discriminate H
  | spins _ = Returned _ _ => discriminate H
  | _ => idtac
  end.

(** Decompose a hypothesis [c m = Thrown e m'] in the same way; the
    elementary steps never throw. *)
Ltac inv_thrown H :=
  lazymatch type of H with
  | bind _ _ _ = Thrown _ _ =>
      let a := fresh "a" in let s := fresh "m" in
      let H1 := fresh "Hc" in let H2 := fresh "Hk" in
      apply bind_Thrown in H; destruct H as [H | (a & s & H1 & H2)];
      [ inv_thrown H | inv_ret H1; cbn beta in H2; inv_thrown H2 ]
  | get _ = Thrown _ _ => discriminate H
  | ret _ _ = Thrown _ _ => discriminate H
  | modify _ _ = Thrown _ _ => discriminate H
  | checked _ _ _ = Thrown _ _ => exfalso; exact (checked_not_Thrown _ _ _ _ _ H)
  | acquired _ _ = Thrown _ _ => exfalso; exact (acquired_not_Thrown _ _ _ _ H)
  | undefined _ _ = Thrown _ _ => discriminate H
  | spins _ = Thrown _ _ => discriminate H
  | _ => idtac
  end.

(** ** The map: frames of the elementary steps *)

Section MapProperties.

Variable tg : target.
Context {K T : Type}.
Variable Hash : K -> Z.
Variable Pred : K -> K -> bool.
Variable K_new : K.
Variable T_new : T.
Variable MAX_ERROR_margin : Z -> Z.

#[local] Abbreviation St := (@LayeredHashMap K T).
#[local] Abbreviation Slot_ := (@Slot K T).

Implicit Types (m : St) (s : Slot_) (l i : nat).

Lemma layer_slot_insert_eq m l i s0 s :
  layer_slot m l i = Some s0 ->
  layer_slot (set_Slots (alter (<[i := s]>) l) m) l i = Some s.
Proof.
  unfold layer_slot, set_Slots. cbn [Slots].
  rewrite list_lookup_alter_eq.
  destruct (Slots m !! l) as [v|]; cbn; [|discriminate].
  intros Hv. apply list_lookup_insert_eq. eapply lookup_lt_Some, Hv.
Qed.

Lemma layer_slot_insert_ne m l i s l' i' :
  (l', i') <> (l, i) ->
  layer_slot (set_Slots (alter (<[i := s]>) l) m) l' i' = layer_slot m l' i'.
Proof.
  intros Hne. unfold layer_slot, set_Slots. cbn [Slots].
  destruct (decide (l = l')) as [->|Hl].
  - rewrite list_lookup_alter_eq.
    destruct (Slots m !! l') as [v|]; cbn; [|reflexivity].
    apply list_lookup_insert_ne. congruence.
  - rewrite list_lookup_alter_ne by exact Hl. reflexivity.
Qed.

Lemma layer_slot_insert_same m l i s :
  layer_slot m l i = Some s ->
  set_Slots (alter (<[i := s]>) l) m = m.
Proof.
  unfold layer_slot, set_Slots. destruct m as [sl la mg]. cbn.
  intros H. f_equal.
  destruct (sl !! l) as [v|] eqn:Ev; cbn in H; [|discriminate].
  apply list_eq. intros j. destruct (decide (l = j)) as [<-|Hj].
  - rewrite list_lookup_alter_eq, Ev. cbn. f_equal.
    apply list_insert_id. exact H.
  - apply list_lookup_alter_ne. exact Hj.
Qed.

Lemma set_Slots_insert_insert m l i s s' :
  set_Slots (alter (<[i := s']>) l) (set_Slots (alter (<[i := s]>) l) m)
  = set_Slots (alter (<[i := s']>) l) m.
Proof.
  unfold set_Slots. destruct m as [sl la mg]. cbn. f_equal.
  rewrite list_alter_alter_eq.
  apply list_alter_ext; [|reflexivity].
  intros v _. cbn. apply list_insert_insert_eq.
Qed.

Lemma slot_load_Returned L I m s m' :
  slot_load L I m = Returned s m' -> slot_at m L I = Some s /\ m' = m.
Proof.
  unfold slot_load. intros H. inv_ret H. auto.
Qed.

Lemma slot_update_Returned L I f m u m' :
  slot_update L I f m = Returned u m' ->
  exists s, slot_at m L I = Some s /\
    m' = set_Slots (alter (<[Z.to_nat I := f s]>) (Z.to_nat L)) m.
Proof.
  unfold slot_update. intros H. inv_ret H.
  apply slot_load_Returned in Hc as [Hs ->]. eauto.
Qed.

Lemma slot_update_run L I f m s :
  slot_at m L I = Some s ->
  slot_update L I f m
  = Returned tt (set_Slots (alter (<[Z.to_nat I := f s]>) (Z.to_nat L)) m).
Proof.
  intros Hs. unfold slot_update, slot_load, bind, get, checked. rewrite Hs. reflexivity.
Qed.

(** *** [AllocateLayer] and the manager *)

#[local] Abbreviation AllocateLayer' := (AllocateLayer tg K_new T_new).
#[local] Abbreviation allocated' := (allocated tg K_new T_new).
#[local] Abbreviation grown' := (grown tg K_new T_new).
#[local] Abbreviation RESIZE_FUNC' := (RESIZE_FUNC tg K_new T_new).
#[local] Abbreviation Update' := (_UpdateManagerInternal tg K_new T_new MAX_ERROR_margin).
#[local] Abbreviation UpdateManager' := (UpdateManager tg K_new T_new MAX_ERROR_margin).
#[local] Abbreviation Increment' := (Increment tg K_new T_new MAX_ERROR_margin).
#[local] Abbreviation Decrement' := (@Decrement tg K T).
#[local] Abbreviation Write' := (Write tg Hash Pred K_new T_new MAX_ERROR_margin).
#[local] Abbreviation Delete' := (Delete tg Hash Pred).
#[local] Abbreviation Read' := (Read tg Hash Pred).
#[local] Abbreviation locate' := (@locate tg K T Hash).
#[local] Abbreviation Slot_new' := (Slot_new K_new T_new).

Lemma AllocateLayer_Returned m u m' :
  AllocateLayer' m = Returned u m' -> allocated' m m'.
Proof.
  unfold AllocateLayer, MAP_ALLOC. intros H. inv_ret H.
  cbn [LayerLastIdx set_LayerLastIdx Slots] in *.
  do 3 eexists. cbn zeta. repeat split; eauto.
Qed.

Lemma AllocateLayer_not_Thrown m e m' : AllocateLayer' m <> Thrown e m'.
Proof.
  unfold AllocateLayer, MAP_ALLOC. intros H. inv_thrown H.
Qed.

Lemma same_table_refl m : same_table m m.
Proof. split; reflexivity. Qed.

Lemma same_table_trans m1 m2 m3 :
  same_table m1 m2 -> same_table m2 m3 -> same_table m1 m3.
Proof. intros [] []. split; congruence. Qed.

Lemma same_table_set_Manager f m : same_table m (set_Manager f m).
Proof. split; reflexivity. Qed.

Lemma grown_same m m' : same_table m m' -> grown' m m'.
Proof. left. assumption. Qed.

Lemma grown_same_l m1 m2 m3 : same_table m1 m2 -> grown' m2 m3 -> grown' m1 m3.
Proof.
  intros H12 [H23|(ma & mb & Hs & Hl & Ha & Hb)].
  - left. eapply same_table_trans; eassumption.
  - right. destruct H12 as [Hs12 Hl12].
    exists ma, mb. repeat split; try congruence; apply Hb.
Qed.

Lemma grown_same_r m1 m2 m3 : grown' m1 m2 -> same_table m2 m3 -> grown' m1 m3.
Proof.
  intros [H12|(ma & mb & Hs & Hl & Ha & Hb)] H23.
  - left. eapply same_table_trans; eassumption.
  - right. exists ma, mb. repeat split; auto.
    + eapply same_table_trans; eassumption.
    + eapply same_table_trans; eassumption.
Qed.

Lemma RESIZE_FUNC_Returned G m p m' :
  RESIZE_FUNC' G m = Returned p m' ->
  Primes tg (LayerLastIdx m') = Some p /\
  ((m' = m /\ exists p0, Primes tg (LayerLastIdx m) = Some p0 /\ G <= p0) \/
   (allocated' m m' /\ exists p0, Primes tg (LayerLastIdx m) = Some p0 /\ p0 < G)).
Proof.
  unfold RESIZE_FUNC. intros H. inv_ret H.
  split; [assumption|].
  match goal with
  | Hc : (if ?p0 <? G then _ else _) _ = _ |- _ =>
      destruct (Z.ltb_spec p0 G) as [Hlt|Hge];
      [ right; split; [eapply AllocateLayer_Returned; eassumption|eauto]
      | left; inv_ret Hc; split; [reflexivity|]; exists p0; split; [assumption|lia] ]
  end.
Qed.

Lemma RESIZE_FUNC_not_Thrown G m e m' : RESIZE_FUNC' G m <> Thrown e m'.
Proof.
  unfold RESIZE_FUNC. intros H. inv_thrown H.
  match goal with
  | Hc : (if ?c then _ else _) _ = Thrown _ _ |- _ =>
      destruct c; [exact (AllocateLayer_not_Thrown _ _ _ Hc)|discriminate Hc]
  end.
Qed.

Lemma grown_allocated m m' : allocated' m m' -> grown' m m'.
Proof.
  intros H. right. exists m, m'. repeat split; auto.
Qed.

Lemma Update_Returned m u m' : Update' m = Returned u m' -> grown' m m'.
Proof.
  unfold _UpdateManagerInternal. intros H. inv_ret H.
  match goal with
  | Hr : RESIZE_FUNC' _ _ = Returned _ _ |- _ =>
      apply RESIZE_FUNC_Returned in Hr as [_ [[-> _]|[Ha _]]]
  end;
  match goal with
  | Hk : (if ?c then _ else _) _ = Returned _ _ |- _ =>
      destruct c; [discriminate Hk|]; inv_ret Hk
  end.
  - apply grown_same, same_table_set_Manager.
  - eapply grown_same_r; [apply grown_allocated; eassumption|].
    apply same_table_set_Manager.
Qed.

Lemma Update_not_Thrown m e m' : Update' m <> Thrown e m'.
Proof.
  unfold _UpdateManagerInternal. intros H. inv_thrown H.
  - eapply RESIZE_FUNC_not_Thrown; eassumption.
  - match goal with
    | Hk : (if ?c then _ else _) _ = Thrown _ _ |- _ => destruct c; discriminate Hk
    end.
Qed.

Lemma UpdateManager_Returned m u m' :
  UpdateManager' m = Returned u m' -> grown' m m'.
Proof.
  unfold UpdateManager, ManagerLock_unlock. intros H. inv_ret H.
  destruct (AtomicLock_try_lock _) as [held ok]. destruct ok; cbn [negb] in *.
  - inv_ret Hk.
    match goal with
    | Hu : Update' _ = Returned _ _ |- _ => apply Update_Returned in Hu
    end.
    eapply grown_same_r; [eapply grown_same_l; [|eassumption]|];
      apply same_table_set_Manager.
  - inv_ret Hk. apply grown_same, same_table_refl.
Qed.

Lemma UpdateManager_not_Thrown m e m' : UpdateManager' m <> Thrown e m'.
Proof.
  unfold UpdateManager, ManagerLock_unlock. intros H. inv_thrown H.
  destruct (AtomicLock_try_lock _) as [held ok]. destruct ok; cbn [negb] in *.
  - inv_thrown Hk. eapply Update_not_Thrown; eassumption.
  - inv_thrown Hk.
Qed.

Lemma WaitForGlobalValue_Returned m u m' :
  @WaitForGlobalValue K T m = Returned u m' -> m' = m /\ ValueUniqueLock (Manager m) = false.
Proof.
  unfold WaitForGlobalValue. intros H. inv_ret H.
  destruct (ValueUniqueLock _); [discriminate|]. inv_ret Hk. auto.
Qed.

Lemma WaitForGlobalValue_not_Thrown m e m' :
  @WaitForGlobalValue K T m <> Thrown e m'.
Proof.
  unfold WaitForGlobalValue. intros H. inv_thrown H.
  destruct (ValueUniqueLock _); discriminate.
Qed.

Lemma Increment_Returned self m u m' :
  Increment' self m = Returned u m' -> grown' m m'.
Proof.
  unfold Increment, counter_load, counter_store_Value. intros H. inv_ret H.
  destruct (INCREMENT tg _) as [X' r]. inv_ret Hk.
  match goal with
  | Hw : WaitForGlobalValue _ = Returned _ _ |- _ =>
      apply WaitForGlobalValue_Returned in Hw as [-> _]
  end.
  match goal with
  | Hk : (if ?c then _ else _) _ = Returned _ _ |- _ => destruct c
  end.
  - match goal with
    | Hu : UpdateManager' _ = Returned _ _ |- _ => apply UpdateManager_Returned in Hu
    end.
    eapply grown_same_l; [apply same_table_set_Manager|eassumption].
  - match goal with Hr : ret _ _ = Returned _ _ |- _ => inv_ret Hr end.
    apply grown_same, same_table_set_Manager.
Qed.

Lemma Increment_not_Thrown self m e m' : Increment' self m <> Thrown e m'.
Proof.
  unfold Increment, counter_load, counter_store_Value. intros H. inv_thrown H.
  destruct (INCREMENT tg _) as [X' r]. inv_thrown Hk.
  - match goal with
    | Hk : (if ?c then _ else _) _ = Thrown _ _ |- _ => destruct c
    end; [eapply UpdateManager_not_Thrown; eassumption|discriminate].
  - eapply WaitForGlobalValue_not_Thrown; eassumption.
Qed.

Lemma Decrement_Returned self m u m' :
  Decrement' self m = Returned u m' -> same_table m m'.
Proof.
  unfold Decrement, counter_load, counter_store_Value. intros H. inv_ret H.
  destruct (DECREMENT tg _) as [X' r]. inv_ret Hk.
  match goal with
  | Hw : WaitForGlobalValue _ = Returned _ _ |- _ =>
      apply WaitForGlobalValue_Returned in Hw as [-> _]
  end.
  apply same_table_set_Manager.
Qed.

Lemma Decrement_not_Thrown self m e m' : Decrement' self m <> Thrown e m'.
Proof.
  unfold Decrement, counter_load, counter_store_Value. intros H. inv_thrown H.
  destruct (DECREMENT tg _) as [X' r]. inv_thrown Hk.
  eapply WaitForGlobalValue_not_Thrown; eassumption.
Qed.

(** *** Well-formed maps and the bounds of an address *)

#[local] Abbreviation well_formed' := (@well_formed tg K T).
#[local] Abbreviation layer_allocated' := (@layer_allocated tg K T).

Lemma Primes_in_range (i : Z) :
  0 <= i < MaxLayerCount tg -> exists p, Primes tg i = Some p /\ 0 < p.
Proof.
  intros Hi. pose proof (LowestExponent_pos tg).
  destruct (Primes_window tg (LowestExponent tg + i) ltac:(lia)) as (p & Hp & Hw).
  replace (LowestExponent tg + i - LowestExponent tg) with i in Hp by lia.
  exists p. split; [exact Hp|].
  assert (0 < 2 ^ (LowestExponent tg + i)) by (apply Z.pow_pos_nonneg; lia). lia.
Qed.

Lemma Primes_lt (i j pi pj : Z) :
  0 <= i < j -> j < MaxLayerCount tg ->
  Primes tg i = Some pi -> Primes tg j = Some pj -> pi < pj.
Proof.
  intros Hij Hj Hpi Hpj. pose proof (LowestExponent_pos tg).
  destruct (Primes_window tg (LowestExponent tg + i) ltac:(lia)) as (p & Hp & Hw).
  destruct (Primes_window tg (LowestExponent tg + j) ltac:(lia)) as (q & Hq & Hv).
  replace (LowestExponent tg + i - LowestExponent tg) with i in Hp by lia.
  replace (LowestExponent tg + j - LowestExponent tg) with j in Hq by lia.
  rewrite Hpi in Hp. rewrite Hpj in Hq. injection Hp as <-. injection Hq as <-.
  assert (2 ^ (LowestExponent tg + i + 1) <= 2 ^ (LowestExponent tg + j))
    by (apply Z.pow_le_mono_r; lia).
  lia.
Qed.

Lemma Primes_Some_range (i p : Z) :
  0 <= i -> i < 2 ^ bits tg - 1 -> Primes tg i = Some p -> i < MaxLayerCount tg.
Proof.
  intros H0 H1 Hp. unfold Primes in Hp.
  rewrite to_uInt_small in Hp by lia.
  apply lookup_lt_Some in Hp.
  assert (length (__Primes tg) = Z.to_nat (MaxLayerCount tg + 1))
    by (destruct tg as [[] pl]; reflexivity).
  lia.
Qed.

Lemma NextPower_in_range (i : Z) :
  0 <= i < MaxLayerCount tg -> exists np, NextPower tg i = Some np.
Proof.
  intros Hi. unfold NextPower.
  destruct (Z.ltb_spec i 0); [lia|].
  apply lookup_lt_is_Some.
  assert (length (NextPower_table tg) = Z.to_nat (MaxLayerCount tg))
    by (destruct tg as [[] pl]; reflexivity).
  lia.
Qed.

Lemma RawHash_in_range (last h : Z) :
  0 <= last < MaxLayerCount tg ->
  exists rawHash pl,
    RawHash tg last h = Some rawHash /\ Primes tg last = Some pl /\
    0 <= rawHash < pl.
Proof.
  intros Hl.
  destruct (NextPower_in_range last Hl) as (np & Hnp).
  destruct (Primes_in_range last Hl) as (pl & Hpl & Hpos).
  unfold RawHash. rewrite Hnp, Hpl. cbn [mbind option_bind].
  destruct (Z.eqb_spec pl 0); [lia|].
  exists (Z.land h np mod pl), pl. repeat split; auto;
    apply Z.mod_pos_bound; lia.
Qed.

(** The address of a key in a well-formed map, with all its bounds. *)
Lemma address_in_bounds m (Key : K) :
  well_formed' m ->
  exists rawHash pl LayerIdx SlotIdx lo hi s,
    RawHash tg (LayerLastIdx m) (to_uInt tg (Hash Key)) = Some rawHash /\
    Primes tg (LayerLastIdx m) = Some pl /\
    0 <= rawHash < pl /\
    GetLayer tg rawHash = Some LayerIdx /\
    GetSlot tg rawHash LayerIdx = Some SlotIdx /\
    0 <= LayerIdx <= LayerLastIdx m /\
    Primes tg (LayerIdx - 1) = Some lo /\
    Primes tg LayerIdx = Some hi /\
    0 <= SlotIdx < hi - lo /\
    slot_at m LayerIdx SlotIdx = Some s.
Proof.
  intros (Hlen & Hlast & Hlayers).
  destruct (RawHash_in_range (LayerLastIdx m) (to_uInt tg (Hash Key)) Hlast)
    as (rawHash & pl & Hrh & Hpl & Hb).
  destruct (address_spec tg _ _ _ Hlast Hpl Hb)
    as (L & lo & hi & HL & HGL & HGS & Hlo & Hhi & Hin).
  destruct (Hlayers L HL) as (v & lo' & hi' & Hv & Hlo' & Hhi' & Hvlen).
  rewrite Hlo in Hlo'. rewrite Hhi in Hhi'. injection Hlo' as <-. injection Hhi' as <-.
  assert (Hs : is_Some (v !! Z.to_nat (rawHash - lo))).
  { apply lookup_lt_is_Some. lia. }
  destruct Hs as [s Hs].
  exists rawHash, pl, L, (rawHash - lo), lo, hi, s.
  repeat split; auto; try lia.
  unfold slot_at, layer_slot. rewrite Hv. exact Hs.
Qed.

Lemma locate_run m (Key : K) :
  well_formed' m ->
  exists LayerIdx SlotIdx s,
    locate' Key m = Returned (LayerIdx, SlotIdx) m /\
    0 <= LayerIdx <= LayerLastIdx m /\ 0 <= SlotIdx /\
    slot_at m LayerIdx SlotIdx = Some s.
Proof.
  intros Hwf.
  destruct (address_in_bounds m Key Hwf)
    as (rh & pl & L & I & lo & hi & s & H1 & H2 & H3 & H4 & H5 & H6 & H7 & H8 & H9 & H10).
  exists L, I, s. repeat split; auto; try lia.
  unfold locate, bind, get, checked, ret. rewrite H1, H4, H5. reflexivity.
Qed.

Lemma length_resize_layer (Size : Z) (v : list Slot_) :
  length (resize_layer K_new T_new Size v) = Z.to_nat Size.
Proof.
  unfold resize_layer. rewrite length_app, length_take, length_replicate. lia.
Qed.

Lemma layer_allocated_ext m m' (i : Z) :
  length <$> (Slots m' !! Z.to_nat i) = length <$> (Slots m !! Z.to_nat i) ->
  layer_allocated' m i -> layer_allocated' m' i.
Proof.
  intros Heq (v & lo & hi & Hv & Hlo & Hhi & Hlen).
  rewrite Hv in Heq. destruct (Slots m' !! Z.to_nat i) as [v'|] eqn:Hv'; [|discriminate].
  cbn in Heq. injection Heq as Heq.
  exists v', lo, hi. repeat split; auto. lia.
Qed.

Lemma well_formed_same_shape m m' :
  length <$> Slots m' = length <$> Slots m ->
  LayerLastIdx m' = LayerLastIdx m ->
  well_formed' m -> well_formed' m'.
Proof.
  intros Hs Hl (Hlen & Hlast & Hlayers).
  split; [|split].
  - rewrite <- Hlen. rewrite <- (length_fmap length (Slots m')), Hs.
    apply length_fmap.
  - rewrite Hl. exact Hlast.
  - intros i Hi. rewrite Hl in Hi.
    eapply layer_allocated_ext; [|apply Hlayers, Hi].
    rewrite <- !list_lookup_fmap, Hs. reflexivity.
Qed.

Lemma well_formed_same_table m m' :
  same_table m m' -> well_formed' m -> well_formed' m'.
Proof.
  intros [Hs Hl]. apply well_formed_same_shape; [rewrite Hs; reflexivity|exact Hl].
Qed.

Lemma allocated_LayerLastIdx m m' :
  0 <= LayerLastIdx m < MaxLayerCount tg ->
  allocated' m m' ->
  LayerLastIdx m' = LayerLastIdx m + 1 /\ LayerLastIdx m + 1 < MaxLayerCount tg.
Proof.
  intros Hlast (po & pn & v & Hpo & Hpn & Hv & ->). cbn [LayerLastIdx].
  assert (Hsmall : 0 <= LayerLastIdx m + 1 < 2 ^ bits tg - 1).
  { assert (MaxLayerCount tg < 2 ^ bits tg - 1) by (destruct tg as [[] pl]; reflexivity).
    lia. }
  rewrite to_uInt_small in * by lia.
  split; [reflexivity|].
  eapply Primes_Some_range; [| |exact Hpn]; lia.
Qed.

Lemma well_formed_allocated m m' :
  well_formed' m -> allocated' m m' -> well_formed' m'.
Proof.
  intros Hwf Ha.
  destruct (allocated_LayerLastIdx m m' (proj1 (proj2 Hwf)) Ha) as [Hl' Hlt].
  destruct Hwf as (Hlen & Hlast & Hlayers).
  destruct Ha as (po & pn & v & Hpo & Hpn & Hv & ->).
  cbn [LayerLastIdx] in Hl'. cbv zeta in *. rewrite Hl' in *.
  split; [|split]; cbn [Slots LayerLastIdx].
  - rewrite length_alter. exact Hlen.
  - lia.
  - intros i Hi. destruct (Z.eq_dec i (LayerLastIdx m + 1)) as [->|Hne].
    + exists (resize_layer K_new T_new (to_uInt tg (pn - po)) v), po, pn.
      cbn [Slots]. rewrite list_lookup_alter_eq, Hv. cbn.
      replace (LayerLastIdx m + 1 - 1) with (LayerLastIdx m) by lia.
      repeat split; auto.
      rewrite length_resize_layer.
      assert (po < pn) by (eapply (Primes_lt (LayerLastIdx m) (LayerLastIdx m + 1));
                           eauto; lia).
      destruct (Primes_window tg (LowestExponent tg + (LayerLastIdx m + 1)))
        as (q & Hq & Hw); [pose proof (LowestExponent_pos tg); lia|].
      replace (LowestExponent tg + (LayerLastIdx m + 1) - LowestExponent tg)
        with (LayerLastIdx m + 1) in Hq by lia.
      rewrite Hpn in Hq. injection Hq as <-.
      pose proof (pow2_bits_bound tg (LowestExponent tg + (LayerLastIdx m + 1))
                    ltac:(pose proof (LowestExponent_pos tg); lia)).
      destruct (Primes_in_range (LayerLastIdx m) Hlast) as (po' & Hpo' & Hpos).
      rewrite Hpo in Hpo'. injection Hpo' as <-.
      rewrite to_uInt_small by lia. lia.
    + eapply layer_allocated_ext; [|apply Hlayers; lia].
      cbn [Slots]. rewrite list_lookup_alter_ne; [reflexivity|]. lia.
Qed.

Lemma well_formed_grown m m' : grown' m m' -> well_formed' m -> well_formed' m'.
Proof.
  intros [Hs|(ma & mb & Hs & Hl & Ha & Hb)] Hwf.
  - eapply well_formed_same_table; eassumption.
  - eapply well_formed_same_table; [exact Hb|].
    eapply well_formed_allocated; [|exact Ha].
    eapply well_formed_same_table; [|exact Hwf]. split; auto.
Qed.

(** The default constructor returns a well-formed map. *)
Lemma LayeredHashMap_ctor_well_formed (g : ThreadManager) :
  exists m, LayeredHashMap_ctor tg K_new T_new g = Returned tt m /\
            well_formed' m /\ LayerLastIdx m = 0 /\ Manager m = g.
Proof.
  destruct (Primes_in_range 0) as (p0 & Hp0 & Hpos);
    [pose proof (MaxLayerCount_pos tg); lia|].
  pose proof (MaxLayerCount_pos tg) as HM.
  assert (Hl0 : replicate (Z.to_nat (MaxLayerCount tg)) ([] : list Slot_) !! 0%nat = Some []).
  { apply lookup_replicate_2. lia. }
  eexists. split; [|split; [|split]].
  - unfold LayeredHashMap_ctor, MAP_INIT, MAP_ALLOC, bind, get, checked, modify, ret.
    rewrite Hp0. unfold LayeredHashMap_members. cbn [Slots].
    change (Z.to_nat 0) with 0%nat. rewrite Hl0. reflexivity.
  - split; [|split]; cbn [set_Slots Slots LayerLastIdx LayeredHashMap_members].
    + rewrite length_alter, length_replicate. reflexivity.
    + lia.
    + intros i Hi. assert (i = 0) as -> by lia.
      exists (resize_layer K_new T_new p0 []), 0, p0.
      change (Z.to_nat 0) with 0%nat. change (0 - 1) with (-1).
      cbn [Slots set_Slots LayeredHashMap_members].
      rewrite list_lookup_alter_eq, Hl0. cbn [fmap option_fmap option_map].
      repeat split; auto using Primes_minus_one.
      rewrite length_resize_layer. lia.
  - reflexivity.
  - reflexivity.
Qed.

Lemma NextPower_value (i : Z) :
  0 <= i < MaxLayerCount tg ->
  NextPower tg i = Some (Z.ones (LowestExponent tg + 1 + i)).
Proof.
  revert i.
  enough (H : forall j : Z, 0 <= j < Z.of_nat (Z.to_nat (MaxLayerCount tg)) ->
            NextPower tg j = Some (Z.ones (LowestExponent tg + 1 + j))).
  { intros i Hi. apply H. lia. }
  apply Z_range_cases.
  destruct tg as [[] pl]; vm_compute;
    repeat (apply Forall_cons; split; [reflexivity|]); apply Forall_nil; exact I.
Qed.

(** A hash below [Primes[last]] is its own raw hash. *)
Lemma RawHash_small (last pl h : Z) :
  0 <= last < MaxLayerCount tg ->
  Primes tg last = Some pl -> 0 <= h < pl ->
  RawHash tg last h = Some h.
Proof.
  intros Hl Hpl Hh. pose proof (LowestExponent_pos tg) as HLE.
  unfold RawHash. rewrite (NextPower_value last Hl), Hpl. cbn [mbind option_bind].
  destruct (Z.eqb_spec pl 0); [lia|].
  destruct (Primes_window tg (LowestExponent tg + last) ltac:(lia)) as (q & Hq & Hw).
  replace (LowestExponent tg + last - LowestExponent tg) with last in Hq by lia.
  rewrite Hpl in Hq. injection Hq as <-.
  rewrite Z.land_ones by lia.
  replace (LowestExponent tg + 1 + last) with (LowestExponent tg + last + 1) by lia.
  rewrite (Z.mod_small h (2 ^ _)) by lia.
  rewrite Z.mod_small by lia. reflexivity.
Qed.

Lemma allocated_slots_below m m' (L I : Z) :
  0 <= LayerLastIdx m < MaxLayerCount tg ->
  allocated' m m' -> 0 <= L <= LayerLastIdx m ->
  slot_at m' L I = slot_at m L I.
Proof.
  intros Hlast Ha HL.
  destruct (allocated_LayerLastIdx m m' Hlast Ha) as [Hl' _].
  destruct Ha as (po & pn & v & Hpo & Hpn & Hv & ->).
  cbn [LayerLastIdx] in Hl'. unfold slot_at, layer_slot. cbn [Slots].
  rewrite list_lookup_alter_ne; [reflexivity|]. cbv zeta in Hl'. lia.
Qed.

(** ** C2: where a key is located before and after growth *)

(** C2 (as amended).  For every key whose hash is below
    [Primes[LayerLastIdx]], the (layer, offset) located before any number
    of [AllocateLayer] calls is the one located after them, and these
    calls leave every slot of the layers allocated before unchanged. *)
Theorem address_stable_below_prime m (n : nat) m' (Key : K) (pl : Z) :
  well_formed' m ->
  Primes tg (LayerLastIdx m) = Some pl ->
  to_uInt tg (Hash Key) < pl ->
  AllocateLayers tg K_new T_new n m = Returned tt m' ->
  exists a,
    locate' Key m = Returned a m /\
    locate' Key m' = Returned a m' /\
    LayerLastIdx m' = LayerLastIdx m + Z.of_nat n /\
    forall L I, 0 <= L <= LayerLastIdx m -> slot_at m' L I = slot_at m L I.
Proof.
  revert m pl. induction n as [|n IH]; intros m pl Hwf Hpl Hh Hrun.
  - cbn in Hrun. inv_ret Hrun.
    destruct (locate_run m' Key Hwf) as (L & I & s & Hloc & _).
    exists (L, I). repeat split; auto. lia.
  - cbn [AllocateLayers] in Hrun. inv_ret Hrun.
    match goal with
    | Hc : AllocateLayer' _ = Returned _ ?m1 |- _ =>
        apply AllocateLayer_Returned in Hc; rename Hc into Ha; rename m1 into mid
    end.
    pose proof (proj1 (proj2 Hwf)) as Hlast.
    destruct (allocated_LayerLastIdx m mid Hlast Ha) as [Hl1 Hlt].
    pose proof (well_formed_allocated m mid Hwf Ha) as Hwf1.
    destruct (Primes_in_range (LayerLastIdx mid)) as (pl1 & Hpl1 & _); [lia|].
    assert (pl < pl1).
    { eapply (Primes_lt (LayerLastIdx m) (LayerLastIdx mid)); eauto; lia. }
    destruct (IH mid pl1 Hwf1 Hpl1 ltac:(lia) Hk) as (addr & Hloc1 & Hloc' & Hl' & Hfr).
    exists addr. repeat split.
    + pose proof (to_uInt_range tg (Hash Key)) as Hr.
      unfold locate, bind, get, checked, ret in Hloc1 |- *.
      rewrite (RawHash_small _ pl1) in Hloc1 by (auto; lia).
      rewrite (RawHash_small _ pl) by (auto; lia).
      destruct (GetLayer tg _) as [Lx|]; [|discriminate].
      destruct (GetSlot tg _ Lx) as [Ix|]; [|discriminate].
      cbn in *. congruence.
    + exact Hloc'.
    + lia.
    + intros L I HL. rewrite Hfr by lia.
      apply allocated_slots_below; auto.
Qed.

(** While the table has a next layer, [AllocateLayer] returns. *)
Lemma AllocateLayer_run m :
  well_formed' m ->
  LayerLastIdx m + 1 < MaxLayerCount tg ->
  exists m' OldPrime NewPrime,
    AllocateLayer' m = Returned tt m' /\
    Primes tg (LayerLastIdx m) = Some OldPrime /\
    Primes tg (LayerLastIdx m + 1) = Some NewPrime /\
    LayerLastIdx m' = LayerLastIdx m + 1 /\
    well_formed' m'.
Proof.
  intros Hwf Hlt.
  pose proof Hwf as (Hlen & Hlast & Hlayers).
  destruct (Primes_in_range (LayerLastIdx m) Hlast) as (po & Hpo & _).
  destruct (Primes_in_range (LayerLastIdx m + 1)) as (pn & Hpn & _); [lia|].
  assert (Hsmall : 0 <= LayerLastIdx m + 1 < 2 ^ bits tg).
  { assert (MaxLayerCount tg < 2 ^ bits tg) by (destruct tg as [[] pl]; reflexivity).
    lia. }
  assert (Hv : is_Some (Slots m !! Z.to_nat (LayerLastIdx m + 1))).
  { apply lookup_lt_is_Some. lia. }
  destruct Hv as [v Hv].
  assert (Hrun : AllocateLayer' m = Returned tt
            {| Slots := alter (resize_layer K_new T_new (to_uInt tg (pn - po)))
                          (Z.to_nat (LayerLastIdx m + 1)) (Slots m);
               LayerLastIdx := LayerLastIdx m + 1;
               Manager := Manager m |}).
  { unfold AllocateLayer, MAP_ALLOC, bind, get, checked, modify, ret.
    rewrite Hpo. cbn [set_LayerLastIdx LayerLastIdx Slots].
    rewrite (to_uInt_small tg (LayerLastIdx m + 1)) by lia.
    rewrite Hpn. cbn [set_LayerLastIdx LayerLastIdx Slots].
    rewrite Hv. reflexivity. }
  eexists _, po, pn.
  split; [exact Hrun|]. split; [exact Hpo|]. split; [exact Hpn|].
  split; [reflexivity|].
  eapply well_formed_allocated; [exact Hwf|].
  eapply AllocateLayer_Returned. exact Hrun.
Qed.

Lemma AllocateLayers_run (n : nat) m :
  well_formed' m ->
  LayerLastIdx m + Z.of_nat n < MaxLayerCount tg ->
  exists m', AllocateLayers tg K_new T_new n m = Returned tt m'.
Proof.
  revert m. induction n as [|n IH]; intros m Hwf Hlt.
  - exists m. reflexivity.
  - destruct (AllocateLayer_run m Hwf ltac:(lia)) as (m1 & _ & _ & Hrun & _ & _ & Hl1 & Hwf1).
    destruct (IH m1 Hwf1 ltac:(lia)) as (m' & Hrun').
    exists m'. cbn [AllocateLayers]. rewrite (bind_step _ _ _ _ _ Hrun). exact Hrun'.
Qed.

(** ** C7: growth at the end of the table *)

#[local] Abbreviation AllocateLayer_in' := (AllocateLayer_in tg K_new T_new).
#[local] Abbreviation RESIZE_FUNC_in' := (RESIZE_FUNC_in tg K_new T_new).
#[local] Abbreviation MAP_ALLOC_in' := (@MAP_ALLOC_in K T K_new T_new).
#[local] Abbreviation table_shape' := (@table_shape tg K T).
#[local] Abbreviation grown_by_calls' := (grown_by_calls tg K_new T_new).

Lemma refused_cases (a : Allocator) (Size : Z) e :
  refused a Size = Some e -> e = length_error \/ e = bad_alloc.
Proof.
  unfold refused. destruct (max_size a <? Size); [intros [= <-]; auto|].
  destruct (grants a Size); [discriminate|intros [= <-]; auto].
Qed.

Lemma alter_as_insert {A} (f : A -> A) (n : nat) (xs : list A) x :
  xs !! n = Some x -> alter f n xs = <[n := f x]> xs.
Proof.
  intros Hx. apply list_eq. intros k. destruct (decide (n = k)) as [<-|Hk].
  - rewrite list_lookup_alter_eq, Hx, list_lookup_insert_eq; [reflexivity|].
    eapply lookup_lt_Some, Hx.
  - rewrite list_lookup_alter_ne, list_lookup_insert_ne by exact Hk. reflexivity.
Qed.

(** On an empty vector, the resize in an environment that grants the
    storage is the resize of [MAP_ALLOC]. *)
Lemma MAP_ALLOC_in_granted (a : Allocator) (Idx Size : Z) m :
  Slots m !! Z.to_nat Idx = Some [] ->
  refused a Size = None ->
  MAP_ALLOC_in' a Idx Size m = MAP_ALLOC K_new T_new Idx Size m.
Proof.
  intros Hv Hg. unfold MAP_ALLOC_in, MAP_ALLOC, bind, get, checked, modify, ret.
  rewrite Hv. cbn beta iota. unfold vector_resize, set_Slots. rewrite Hg.
  cbn [length fmap list_fmap].
  rewrite (alter_as_insert _ _ _ _ Hv). unfold resize_layer.
  rewrite take_nil. cbn [length app].
  destruct (Z.leb_spec Size (Z.of_nat 0)) as [Hle|Hlt]; [|reflexivity].
  replace (Z.to_nat Size) with 0%nat by lia. reflexivity.
Qed.

Lemma MAP_ALLOC_in_refused (a : Allocator) (Idx Size : Z) m e :
  Slots m !! Z.to_nat Idx = Some [] ->
  0 < Size -> refused a Size = Some e ->
  MAP_ALLOC_in' a Idx Size m = Thrown e m.
Proof.
  intros Hv Hs Hr. unfold MAP_ALLOC_in, bind, get, checked, ret, throw.
  rewrite Hv. cbn beta iota. unfold vector_resize. rewrite Hr. cbn [length].
  destruct (Z.leb_spec Size (Z.of_nat 0)) as [Hle|Hlt]; [lia|reflexivity].
Qed.

Lemma table_shape_advanced m :
  table_shape' m -> LayerLastIdx m + 1 < MaxLayerCount tg ->
  table_shape' (set_LayerLastIdx (LayerLastIdx m + 1) m).
Proof.
  intros (Hlen & Hlast & Hup) Hlt. split; [exact Hlen|]. split.
  - cbn [set_LayerLastIdx LayerLastIdx]. lia.
  - intros i v Hi. cbn [set_LayerLastIdx LayerLastIdx Slots] in *.
    apply Hup. lia.
Qed.

Lemma table_shape_allocated m m' :
  table_shape' m -> allocated' m m' -> table_shape' m'.
Proof.
  intros (Hlen & Hlast & Hup) Ha.
  destruct (allocated_LayerLastIdx m m' Hlast Ha) as [Hl' Hlt].
  destruct Ha as (po & pn & v & Hpo & Hpn & Hv & ->).
  cbn [LayerLastIdx] in Hl'. cbv zeta in *. rewrite Hl' in *.
  split; [|split]; cbn [Slots LayerLastIdx].
  - rewrite length_alter. exact Hlen.
  - lia.
  - unfold upper_layers_empty. cbn [Slots LayerLastIdx]. intros i w Hi Hw.
    rewrite list_lookup_alter_ne in Hw by lia.
    eapply Hup; [|exact Hw]. lia.
Qed.

(** The next layer of a map of this shape is an empty vector of the
    array. *)
Lemma table_shape_next m :
  table_shape' m -> LayerLastIdx m + 1 < MaxLayerCount tg ->
  Slots m !! Z.to_nat (LayerLastIdx m + 1) = Some [].
Proof.
  intros (Hlen & Hlast & Hup) Hlt.
  destruct (lookup_lt_is_Some_2 (Slots m) (Z.to_nat (LayerLastIdx m + 1)))
    as [v Hv]; [lia|].
  rewrite Hv. f_equal. eapply Hup; [|exact Hv]. lia.
Qed.

Lemma layer_size_pos (po pn : Z) (L : Z) :
  0 <= L -> L + 1 < MaxLayerCount tg ->
  Primes tg L = Some po -> Primes tg (L + 1) = Some pn ->
  to_uInt tg (pn - po) = pn - po /\ 0 < pn - po.
Proof.
  intros H0 H1 Hpo Hpn.
  pose proof (Primes_lt L (L + 1) po pn ltac:(lia) H1 Hpo Hpn).
  destruct (Primes_in_range L ltac:(lia)) as (q & Hq & Hqpos).
  rewrite Hpo in Hq. injection Hq as <-.
  pose proof (Primes_minus_one tg) as _.
  assert (pn < 2 ^ bits tg).
  { pose proof (LowestExponent_pos tg).
    destruct (Primes_window tg (LowestExponent tg + (L + 1)) ltac:(lia)) as (q & Hq & Hw).
    replace (LowestExponent tg + (L + 1) - LowestExponent tg) with (L + 1) in Hq by lia.
    rewrite Hpn in Hq. injection Hq as <-.
    assert (2 ^ (LowestExponent tg + (L + 1) + 1) <= 2 ^ bits tg).
    { apply Z.pow_le_mono_r; [lia|].
      pose proof (MaxLayerCount_bits tg). lia. }
    lia. }
  split; [apply to_uInt_small|]; lia.
Qed.

(** One call of [AllocateLayer] while the table has a next layer. *)
Lemma AllocateLayer_in_run (a : Allocator) m :
  table_shape' m ->
  LayerLastIdx m + 1 < MaxLayerCount tg ->
  exists OldPrime NewPrime,
    Primes tg (LayerLastIdx m) = Some OldPrime /\
    Primes tg (LayerLastIdx m + 1) = Some NewPrime /\
    match refused a (NewPrime - OldPrime) with
    | None =>
        exists m',
          AllocateLayer_in' a m = Returned tt m' /\
          AllocateLayer' m = Returned tt m' /\
          LayerLastIdx m' = LayerLastIdx m + 1 /\
          table_shape' m' /\
          (well_formed' m -> well_formed' m')
    | Some e =>
        (e = length_error \/ e = bad_alloc) /\
        AllocateLayer_in' a m
        = Thrown e (set_LayerLastIdx (LayerLastIdx m + 1) m) /\
        table_shape' (set_LayerLastIdx (LayerLastIdx m + 1) m)
    end.
Proof.
  intros Hsh Hlt.
  pose proof Hsh as (Hlen & Hlast & Hup).
  destruct (Primes_in_range (LayerLastIdx m) Hlast) as (po & Hpo & _).
  destruct (Primes_in_range (LayerLastIdx m + 1)) as (pn & Hpn & _); [lia|].
  destruct (layer_size_pos po pn (LayerLastIdx m) ltac:(lia) Hlt Hpo Hpn) as [Hsz Hpos].
  assert (Hsmall : 0 <= LayerLastIdx m + 1 < 2 ^ bits tg).
  { assert (MaxLayerCount tg < 2 ^ bits tg) by (destruct tg as [[] pl]; reflexivity).
    lia. }
  pose proof (table_shape_next m Hsh Hlt) as Hnext.
  assert (Hstep : AllocateLayer_in' a m
                  = MAP_ALLOC_in' a (LayerLastIdx m + 1) (pn - po)
                      (set_LayerLastIdx (LayerLastIdx m + 1) m)).
  { unfold AllocateLayer_in, bind, get, checked, modify, ret.
    rewrite Hpo. cbn [set_LayerLastIdx LayerLastIdx].
    rewrite (to_uInt_small tg (LayerLastIdx m + 1)) by lia.
    rewrite Hpn, Hsz. reflexivity. }
  assert (Hstep' : AllocateLayer' m
                   = MAP_ALLOC K_new T_new (LayerLastIdx m + 1) (pn - po)
                       (set_LayerLastIdx (LayerLastIdx m + 1) m)).
  { unfold AllocateLayer, bind, get, checked, modify, ret.
    rewrite Hpo. cbn [set_LayerLastIdx LayerLastIdx].
    rewrite (to_uInt_small tg (LayerLastIdx m + 1)) by lia.
    rewrite Hpn, Hsz. reflexivity. }
  exists po, pn. split; [exact Hpo|]. split; [exact Hpn|].
  destruct (refused a (pn - po)) as [e|] eqn:Hr.
  - split; [eapply refused_cases, Hr|]. split.
    + rewrite Hstep. apply MAP_ALLOC_in_refused; auto.
    + apply table_shape_advanced; assumption.
  - assert (Hrun : AllocateLayer' m = Returned tt
              {| Slots := alter (resize_layer K_new T_new (pn - po))
                            (Z.to_nat (LayerLastIdx m + 1)) (Slots m);
                 LayerLastIdx := LayerLastIdx m + 1;
                 Manager := Manager m |}).
    { rewrite Hstep'. unfold MAP_ALLOC, bind, get, checked, modify, ret.
      cbn [set_LayerLastIdx Slots]. rewrite Hnext. reflexivity. }
    pose proof (AllocateLayer_Returned _ _ _ Hrun) as Ha.
    eexists. split; [|split; [exact Hrun|]].
    + rewrite Hstep, <- Hrun, Hstep'. apply MAP_ALLOC_in_granted; auto.
    + split; [reflexivity|]. split.
      * eapply table_shape_allocated; [exact Hsh|exact Ha].
      * intros Hwf. eapply well_formed_allocated; [exact Hwf|exact Ha].
Qed.

(** C7 (as amended).  The code has no check of the capacity and no
    error of its own: while [LayerLastIdx + 1 < MaxLayerCount],
    [AllocateLayer] reads [Primes[LayerLastIdx]] and
    [Primes[LayerLastIdx + 1]] inside the table and advances
    [LayerLastIdx] before it resizes the next layer.  When the
    environment grants the storage it returns the map that
    [AllocateLayer] with granted storage returns, of the same shape and
    well formed if the map was; when the environment refuses it, the
    [std::length_error] or [std::bad_alloc] of [std::vector::resize]
    leaves it, [LayerLastIdx] staying advanced and the layer empty.  The
    growth callback calls it when the global value is above
    [Primes[LayerLastIdx]] and lets its exception through. *)
Theorem AllocateLayer_within_table (a : Allocator) m :
  table_shape' m ->
  LayerLastIdx m + 1 < MaxLayerCount tg ->
  exists OldPrime NewPrime,
    Primes tg (LayerLastIdx m) = Some OldPrime /\
    Primes tg (LayerLastIdx m + 1) = Some NewPrime /\
    match refused a (NewPrime - OldPrime) with
    | None =>
        exists m',
          AllocateLayer_in' a m = Returned tt m' /\
          AllocateLayer' m = Returned tt m' /\
          LayerLastIdx m' = LayerLastIdx m + 1 /\
          table_shape' m' /\
          (well_formed' m -> well_formed' m')
    | Some e =>
        (e = length_error \/ e = bad_alloc) /\
        AllocateLayer_in' a m
        = Thrown e (set_LayerLastIdx (LayerLastIdx m + 1) m) /\
        table_shape' (set_LayerLastIdx (LayerLastIdx m + 1) m)
    end /\
    forall G,
      RESIZE_FUNC_in' a G m =
        if OldPrime <? G then
          match AllocateLayer_in' a m with
          | Returned _ m' => Returned NewPrime m'
          | Thrown e m' => Thrown e m'
          | Undefined f => Undefined f
          | Spins => Spins
          end
        else Returned OldPrime m.
Proof.
  intros Hsh Hlt.
  destruct (AllocateLayer_in_run a m Hsh Hlt) as (po & pn & Hpo & Hpn & Hout).
  exists po, pn. split; [exact Hpo|]. split; [exact Hpn|]. split; [exact Hout|].
  intros G. unfold RESIZE_FUNC_in, bind at 1, get at 1.
  unfold bind at 1, checked at 1. rewrite Hpo. cbn [ret].
  destruct (po <? G); [|unfold bind, ret, get, checked; rewrite Hpo; reflexivity].
  unfold bind at 1.
  destruct (refused a (pn - po)) as [e|] eqn:Hr.
  - destruct Hout as (_ & -> & _). reflexivity.
  - destruct Hout as (m' & -> & _ & Hl' & _).
    unfold bind, get, checked, ret. rewrite Hl', Hpn. reflexivity.
Qed.

(** At the last layer of the table the second read of [AllocateLayer]
    is outside [__Primes]. *)
Lemma AllocateLayer_at_capacity m :
  LayerLastIdx m = MaxLayerCount tg - 1 ->
  AllocateLayer' m = Undefined TableOutOfRange.
Proof.
  intros Hl. unfold AllocateLayer, bind, get, checked, modify, ret, undefined.
  rewrite Hl. cbn [set_LayerLastIdx LayerLastIdx].
  destruct tg as [[] pl]; reflexivity.
Qed.

(** So is it in every environment: the read comes before the resize. *)
Lemma AllocateLayer_in_at_capacity (a : Allocator) m :
  LayerLastIdx m = MaxLayerCount tg - 1 ->
  AllocateLayer_in' a m = Undefined TableOutOfRange.
Proof.
  intros Hl. unfold AllocateLayer_in, bind, get, checked, modify, ret, undefined.
  rewrite Hl. cbn [set_LayerLastIdx LayerLastIdx].
  destruct tg as [[] pl]; reflexivity.
Qed.

(** The constructor in an environment: it returns the map of
    [LayeredHashMap_ctor] when the first layer is granted, and the
    exception of the resize leaves it otherwise. *)
Lemma LayeredHashMap_ctor_in_run (a : Allocator) (g : ThreadManager) :
  exists FirstPrime,
    Primes tg 0 = Some FirstPrime /\
    match refused a FirstPrime with
    | None =>
        exists m,
          LayeredHashMap_ctor_in tg K_new T_new a g = Returned tt m /\
          LayeredHashMap_ctor tg K_new T_new g = Returned tt m /\
          well_formed' m /\ table_shape' m /\
          LayerLastIdx m = 0 /\ Manager m = g
    | Some e =>
        LayeredHashMap_ctor_in tg K_new T_new a g
        = Thrown e (LayeredHashMap_members tg g)
    end.
Proof.
  destruct (Primes_in_range 0) as (p0 & Hp0 & Hpos);
    [pose proof (MaxLayerCount_pos tg); lia|].
  pose proof (MaxLayerCount_pos tg) as HM.
  assert (Hl0 : Slots (LayeredHashMap_members tg g : St) !! Z.to_nat 0 = Some []).
  { unfold LayeredHashMap_members. cbn [Slots]. apply lookup_replicate_2. lia. }
  assert (Hstep : LayeredHashMap_ctor_in tg K_new T_new a g
                  = MAP_ALLOC_in' a 0 p0 (LayeredHashMap_members tg g)).
  { unfold LayeredHashMap_ctor_in, MAP_INIT_in, bind, checked, ret.
    rewrite Hp0. reflexivity. }
  assert (Hstep' : LayeredHashMap_ctor tg K_new T_new g
                   = MAP_ALLOC K_new T_new 0 p0 (LayeredHashMap_members tg g)).
  { unfold LayeredHashMap_ctor, MAP_INIT, bind, checked, ret.
    rewrite Hp0. reflexivity. }
  exists p0. split; [exact Hp0|].
  destruct (refused a p0) as [e|] eqn:Hr.
  - rewrite Hstep. apply MAP_ALLOC_in_refused; auto.
  - destruct (LayeredHashMap_ctor_well_formed g) as (m & Hc & Hwf & Hl & Hg).
    exists m. split; [|split; [exact Hc|]].
    + rewrite Hstep, <- Hc, Hstep'. apply MAP_ALLOC_in_granted; auto.
    + split; [exact Hwf|]. split; [|split; [exact Hl|exact Hg]].
      split; [apply Hwf|]. split; [apply Hwf|].
      rewrite Hstep' in Hc. unfold MAP_ALLOC, bind, get, checked, modify, ret in Hc.
      rewrite Hl0 in Hc. injection Hc as <-.
      unfold upper_layers_empty, set_Slots, LayeredHashMap_members.
      cbn [Slots LayerLastIdx]. intros i v Hi Hv.
      rewrite list_lookup_alter_ne in Hv by lia.
      apply lookup_replicate in Hv as [-> _]. reflexivity.
Qed.

(** The maps grown by calls have the shape [table_shape]. *)
Lemma grown_by_calls_shape m : grown_by_calls' m -> table_shape' m.
Proof.
  induction 1 as [a g m Hc|a m m' _ IH Hrun|a e m m' _ IH Hrun].
  - destruct (LayeredHashMap_ctor_in_run a g) as (p0 & _ & Hout).
    destruct (refused a p0); [congruence|].
    destruct Hout as (m0 & Hc0 & _ & _ & Hsh & _). congruence.
  - destruct (Z_lt_le_dec (LayerLastIdx m + 1) (MaxLayerCount tg)) as [Hlt|Hge].
    + destruct (AllocateLayer_in_run a m IH Hlt) as (po & pn & _ & _ & Hout).
      destruct (refused a (pn - po)).
      * destruct Hout as (_ & Ht & _). congruence.
      * destruct Hout as (m0 & Hr0 & _ & _ & Hsh & _). congruence.
    + rewrite AllocateLayer_in_at_capacity in Hrun; [discriminate|].
      destruct IH as (_ & ? & _). lia.
  - destruct (Z_lt_le_dec (LayerLastIdx m + 1) (MaxLayerCount tg)) as [Hlt|Hge].
    + destruct (AllocateLayer_in_run a m IH Hlt) as (po & pn & _ & _ & Hout).
      destruct (refused a (pn - po)).
      * destruct Hout as (_ & Ht & Hsh). congruence.
      * destruct Hout as (m0 & Hr0 & _). congruence.
    + rewrite AllocateLayer_in_at_capacity in Hrun; [discriminate|].
      destruct IH as (_ & ? & _). lia.
Qed.

(** Whatever the environment answers, [n] calls of [AllocateLayer]
    whose exceptions are caught advance [LayerLastIdx] by [n] while the
    table has that many layers left. *)
Lemma AllocateLayers_caught_run (a : Allocator) (n : nat) m :
  grown_by_calls' m ->
  LayerLastIdx m + Z.of_nat n < MaxLayerCount tg ->
  exists m',
    AllocateLayers_caught tg K_new T_new a n m = Returned tt m' /\
    grown_by_calls' m' /\
    LayerLastIdx m' = LayerLastIdx m + Z.of_nat n.
Proof.
  revert m. induction n as [|n IH]; intros m Hg Hlt.
  - exists m. split; [reflexivity|]. split; [exact Hg|lia].
  - pose proof (grown_by_calls_shape m Hg) as Hsh.
    destruct (AllocateLayer_in_run a m Hsh ltac:(lia)) as (po & pn & _ & _ & Hout).
    assert (Hstep : exists m1,
              caught (AllocateLayer_in' a) m = Returned tt m1 /\
              grown_by_calls' m1 /\ LayerLastIdx m1 = LayerLastIdx m + 1).
    { unfold caught. destruct (refused a (pn - po)) as [e|].
      - destruct Hout as (_ & Ht & _). rewrite Ht.
        eexists. split; [reflexivity|]. split; [|reflexivity].
        eapply grown_caught; [exact Hg|exact Ht].
      - destruct Hout as (m1 & Hr & _ & Hl1 & _). rewrite Hr.
        exists m1. split; [reflexivity|]. split; [|exact Hl1].
        eapply grown_returned; [exact Hg|exact Hr]. }
    destruct Hstep as (m1 & Hc1 & Hg1 & Hl1).
    destruct (IH m1 Hg1 ltac:(lia)) as (m' & Hrun & Hg' & Hl').
    exists m'. split; [|split; [exact Hg'|lia]].
    cbn [AllocateLayers_caught]. rewrite (bind_step _ _ _ _ _ Hc1). exact Hrun.
Qed.

(** ** C10: the slot of a key is inside the table *)

(** C10.  In a well-formed map ([LayerLastIdx < MaxLayerCount], layers
    [0..LayerLastIdx] allocated with their lengths), for every key:
    [RawHash] is below [Primes[LayerLastIdx]], the layer is at most
    [LayerLastIdx], the offset is below [Primes[layer] - Primes[layer-1]],
    none of the table reads is out of range and [Slots[layer][offset]]
    exists. *)
Theorem slot_in_bounds m (Key : K) :
  well_formed' m ->
  exists rawHash pl LayerIdx SlotIdx lo hi s,
    RawHash tg (LayerLastIdx m) (to_uInt tg (Hash Key)) = Some rawHash /\
    Primes tg (LayerLastIdx m) = Some pl /\
    0 <= rawHash < pl /\
    GetLayer tg rawHash = Some LayerIdx /\
    GetSlot tg rawHash LayerIdx = Some SlotIdx /\
    0 <= LayerIdx <= LayerLastIdx m /\
    Primes tg (LayerIdx - 1) = Some lo /\
    Primes tg LayerIdx = Some hi /\
    0 <= SlotIdx < hi - lo /\
    slot_at m LayerIdx SlotIdx = Some s.
Proof. apply address_in_bounds. Qed.

(** *** One slot changes *)

#[local] Abbreviation slot_changed' := (@slot_changed K T).
#[local] Abbreviation slot_inv' := (@slot_inv K T).
#[local] Abbreviation slots_inv' := (@slots_inv K T).
#[local] Abbreviation stored' := (@stored K T).

Lemma set_Slots_insert_shape m l i s :
  length <$> Slots (set_Slots (alter (<[i := s]>) l) m) = length <$> Slots m.
Proof.
  unfold set_Slots. cbn [Slots].
  apply list_eq. intros j. rewrite !list_lookup_fmap.
  destruct (decide (l = j)) as [<-|Hj].
  - rewrite list_lookup_alter_eq. destruct (Slots m !! l); cbn; [|reflexivity].
    rewrite length_insert. reflexivity.
  - rewrite list_lookup_alter_ne by exact Hj. reflexivity.
Qed.

Lemma slot_update_changed L I f m u m' :
  slot_update L I f m = Returned u m' ->
  exists s, slot_changed' L I m m' s (f s) /\ Manager m' = Manager m.
Proof.
  intros H. apply slot_update_Returned in H as (s & Hs & ->).
  exists s. split; [|reflexivity]. split; [exact Hs|]. split; [|split; [|split]].
  - unfold slot_at. eapply layer_slot_insert_eq. exact Hs.
  - intros l i Hne. apply layer_slot_insert_ne. exact Hne.
  - apply set_Slots_insert_shape.
  - reflexivity.
Qed.

Lemma slot_changed_trans L I m1 m2 m3 s1 s2 s2' s3 :
  slot_changed' L I m1 m2 s1 s2 -> slot_changed' L I m2 m3 s2' s3 ->
  slot_changed' L I m1 m3 s1 s3.
Proof.
  intros (Ha & Hb & Hc & Hs & Hd) (Ha' & Hb' & Hc' & Hs' & Hd').
  repeat split; auto.
  - intros l i Hne. rewrite Hc', Hc by exact Hne. reflexivity.
  - congruence.
  - congruence.
Qed.

Lemma slot_changed_same_table_r L I m1 m2 m3 s1 s2 :
  slot_changed' L I m1 m2 s1 s2 -> same_table m2 m3 ->
  slot_changed' L I m1 m3 s1 s2.
Proof.
  intros (Ha & Hb & Hc & Hs & Hd) [Hs' Hl].
  unfold slot_changed, slot_at, layer_slot in *. rewrite Hs', Hl. auto.
Qed.

Lemma slot_changed_mid L I m1 m2 s1 s2 s2' :
  slot_changed' L I m1 m2 s1 s2 -> slot_at m2 L I = Some s2' -> s2' = s2.
Proof. intros (_ & Hb & _) H. congruence. Qed.

Lemma slot_changed_wf L I m m' s s' :
  slot_changed' L I m m' s s' -> well_formed' m -> well_formed' m'.
Proof.
  intros (Ha & Hb & Hc & Hs & Hd). apply well_formed_same_shape; assumption.
Qed.

Lemma slot_changed_inv L I m m' s s' :
  slot_changed' L I m m' s s' -> slots_inv' m -> slot_inv' s' -> slots_inv' m'.
Proof.
  intros (Ha & Hb & Hc & Hs & Hd) Hinv Hs' l i x Hx.
  destruct (decide ((l, i) = (Z.to_nat L, Z.to_nat I))) as [E|Hne].
  - injection E as -> ->. unfold slot_at in Hb. congruence.
  - rewrite Hc in Hx by exact Hne. eapply Hinv, Hx.
Qed.

(** *** Locks of a slot nobody holds *)

Lemma write_lock_free s :
  slot_inv' s ->
  write_lock (Lock s) = Some (Z.lor (Lock s) WRITER_BIT_MASK, Lock s).
Proof. intros [[->| ->] _]; reflexivity. Qed.

Lemma read_lock_free s :
  slot_inv' s ->
  exists held, read_lock (Lock s) = Some (held, Lock s) /\ read_unlock held = Lock s.
Proof. intros [[->| ->] _]; eexists; split; reflexivity. Qed.

Lemma locate_Returned (Key : K) m a m' :
  locate' Key m = Returned a m' -> m' = m.
Proof. unfold locate. intros H. inv_ret H. reflexivity. Qed.

Lemma WriteWrapper_ctor_Returned L I m status m1 :
  slots_inv' m ->
  WriteWrapper_ctor L I m = Returned status m1 ->
  exists s0,
    slot_inv' s0 /\ status = Lock s0 /\ Manager m1 = Manager m /\
    slot_changed' L I m m1 s0 (set_Lock (Z.lor (Lock s0) WRITER_BIT_MASK) s0).
Proof.
  intros Hinv H. unfold WriteWrapper_ctor in H.
  apply bind_Returned in H as (s0 & m0 & Hload & H).
  apply slot_load_Returned in Hload as [Hs0 ->].
  assert (Hi : slot_inv' s0) by (eapply Hinv, Hs0).
  rewrite (write_lock_free s0 Hi) in H. cbn [acquired] in H.
  apply bind_Returned in H as ([NewLock Val] & m0 & Hr & H). inv_ret Hr.
  apply bind_Returned in H as (u & m2 & Hu & H). inv_ret H.
  apply slot_update_changed in Hu as (s0' & Hch & Hm).
  assert (s0' = s0) as -> by (destruct Hch as (Ha & _); unfold slot_at in *; congruence).
  exists s0. auto.
Qed.

Lemma WriteWrapper_dtor_Returned L I Val m u m' :
  WriteWrapper_dtor L I Val m = Returned u m' ->
  exists s, slot_changed' L I m m' s (set_Lock Val s) /\ Manager m' = Manager m.
Proof. unfold WriteWrapper_dtor, write_unlock. apply slot_update_changed. Qed.

(** *** [Delete] *)

Lemma stored_EMPTY s : Lock s = EMPTY -> stored' s = [].
Proof. unfold stored. intros ->. reflexivity. Qed.

Lemma stored_POPULATED s : Lock s = POPULATED -> stored' s = Main s :: Collisions s.
Proof. unfold stored. intros ->. reflexivity. Qed.

Lemma set_Lock_same s x : Lock s = x -> set_Lock x (set_Lock (Z.lor (Lock s) WRITER_BIT_MASK) s) = s.
Proof. destruct s. cbn. intros ->. reflexivity. Qed.

Lemma find_if_last {A} (p : A -> bool) (ps : list A) i y :
  find_if p ps = Some (i, y) -> exists x, last ps = Some x.
Proof.
  destruct ps as [|a ps]; [discriminate|]. intros _.
  destruct (last (a :: ps)) eqn:E; [eauto|].
  apply last_None in E. discriminate.
Qed.

Lemma removelast_cons_insert {A} (a x : A) (ps : list A) i :
  ps <> [] -> removelast (a :: <[i := x]> ps) = a :: removelast (<[i := x]> ps).
Proof.
  intros Hne. destruct (<[i := x]> ps) eqn:E; [|reflexivity].
  apply (f_equal length) in E. rewrite length_insert in E.
  destruct ps; [congruence|discriminate].
Qed.

Lemma slot_changed_join L I m1 m2 m3 s1 s2 s2' s3 :
  slot_changed' L I m1 m2 s1 s2 -> slot_changed' L I m2 m3 s2' s3 -> s2' = s2.
Proof. intros (_ & Hb & _) (Ha & _). congruence. Qed.

Lemma Delete_Returned self (Key : K) m r m' :
  slots_inv' m ->
  Delete' self Key m = Returned r m' ->
  exists L I s s',
    locate' Key m = Returned (L, I) m /\
    slot_changed' L I m m' s s' /\
    slot_inv' s' /\
    stored' s' = delete_pairs Pred Key (stored' s) /\
    r = (if find_if (key_is Pred Key) (stored' s) is Some _ then true else false).
Proof.
  intros Hinv H. unfold Delete in H.
  apply bind_Returned in H as ([L I] & m0 & Hloc & H).
  pose proof (locate_Returned _ _ _ _ Hloc) as ->.
  apply bind_Returned in H as (status & m1 & Hctor & H).
  apply (WriteWrapper_ctor_Returned _ _ _ _ _ Hinv) in Hctor
    as (s0 & Hs0 & -> & Hmg1 & Hch1).
  apply bind_Returned in H as (s1 & m1' & Hload & H).
  apply slot_load_Returned in Hload as [Hs1 ->].
  pose proof (slot_changed_mid _ _ _ _ _ _ _ Hch1 Hs1) as ->.
  cbn [Main Collisions set_Lock] in H.
  apply bind_Returned in H as ([d st'] & m2 & Hbranch & H).
  apply bind_Returned in H as (u & m3 & Hdec & H).
  apply bind_Returned in H as (u' & m4 & Hdtor & H). inv_ret H.
  assert (Hst : same_table m2 m3).
  { destruct r; [eapply Decrement_Returned; eassumption|].
    inv_ret Hdec. apply same_table_refl. }
  apply WriteWrapper_dtor_Returned in Hdtor as (s3 & Hch3 & Hmg3).
  exists L, I, s0.
  destruct Hs0 as [[HE|HP] Hcol].
  - (* the slot is empty *)
    rewrite HE in Hbranch. cbn in Hbranch. inv_ret Hbranch.
    pose proof (slot_changed_same_table_r _ _ _ _ _ _ _ Hch1 Hst) as Hch2.
    pose proof (slot_changed_trans _ _ _ _ _ _ _ _ _ Hch2 Hch3) as Hch.
    pose proof (slot_changed_join _ _ _ _ _ _ _ _ _ Hch2 Hch3) as ->.
    rewrite set_Lock_same in Hch by exact HE.
    exists s0. rewrite (stored_EMPTY s0 HE).
    split; [exact Hloc|]. split; [exact Hch|].
    split; [split; auto|]. split; reflexivity.
  - rewrite HP in Hbranch. change (POPULATED =? EMPTY) with false in Hbranch.
    cbv iota in Hbranch. rewrite (stored_POPULATED s0 HP).
    unfold delete_pairs. cbn [find_if]. unfold key_is at 1 3. cbn [fst].
    destruct (Pred (fst (Main s0)) Key) eqn:EP.
    + (* the key is in [Main] *)
      destruct (Collisions s0) as [|c cs] eqn:EC.
      * inv_ret Hbranch.
        pose proof (slot_changed_same_table_r _ _ _ _ _ _ _ Hch1 Hst) as Hch2.
        pose proof (slot_changed_trans _ _ _ _ _ _ _ _ _ Hch2 Hch3) as Hch.
        pose proof (slot_changed_join _ _ _ _ _ _ _ _ _ Hch2 Hch3) as ->.
        eexists. split; [exact Hloc|]. split; [exact Hch|].
        split; [|split; [|reflexivity]].
        -- split; [left; reflexivity|]. intros _. exact EC.
        -- reflexivity.
      * apply bind_Returned in Hbranch as (u2 & m2' & Hswap & Hret). inv_ret Hret.
        unfold SWAP_AND_POP_Main in Hswap.
        apply bind_Returned in Hswap as (s1 & m1' & Hload & Hswap).
        apply slot_load_Returned in Hload as [Hs1' ->].
        assert (s1 = set_Lock (Z.lor (Lock s0) WRITER_BIT_MASK) s0) as -> by congruence.
        cbn [Collisions set_Lock] in Hswap. rewrite EC in Hswap.
        apply bind_Returned in Hswap as (x & m1' & Hx & Hswap). inv_ret Hx.
        apply slot_update_changed in Hswap as (s1 & Hch2 & Hmg2).
        pose proof (slot_changed_join _ _ _ _ _ _ _ _ _ Hch1 Hch2) as ->.
        pose proof (slot_changed_trans _ _ _ _ _ _ _ _ _ Hch1 Hch2) as Hch12.
        pose proof (slot_changed_same_table_r _ _ _ _ _ _ _ Hch12 Hst) as Hch13.
        pose proof (slot_changed_join _ _ _ _ _ _ _ _ _ Hch13 Hch3) as ->.
        pose proof (slot_changed_trans _ _ _ _ _ _ _ _ _ Hch13 Hch3) as Hch.
        eexists. split; [exact Hloc|]. split; [exact Hch|].
        cbn [set_Lock set_Collisions set_Main Lock Main Collisions]. rewrite EC.
        split; [|split; [|reflexivity]].
        -- split; [right; reflexivity|]. intros HF. discriminate HF.
        -- unfold stored. cbn [Lock Main Collisions].
           change (Z.land POPULATED VALUE_BITS_MASK =? EMPTY) with false. cbv iota.
           change (last (Main s0 :: c :: cs)) with (last (c :: cs)). rewrite E.
           reflexivity.
    + (* the key is looked up among the collisions *)
      destruct (find_if (key_is Pred Key) (Collisions s0)) as [[i y]|] eqn:EF.
      * apply bind_Returned in Hbranch as (u2 & m2' & Hswap & Hret). inv_ret Hret.
        unfold SWAP_AND_POP_at in Hswap.
        apply bind_Returned in Hswap as (s1 & m1' & Hload & Hswap).
        apply slot_load_Returned in Hload as [Hs1' ->].
        assert (s1 = set_Lock (Z.lor (Lock s0) WRITER_BIT_MASK) s0) as -> by congruence.
        cbn [Collisions set_Lock] in Hswap.
        apply bind_Returned in Hswap as (x & m1' & Hx & Hswap). inv_ret Hx.
        apply slot_update_changed in Hswap as (s1 & Hch2 & Hmg2).
        pose proof (slot_changed_join _ _ _ _ _ _ _ _ _ Hch1 Hch2) as ->.
        pose proof (slot_changed_trans _ _ _ _ _ _ _ _ _ Hch1 Hch2) as Hch12.
        pose proof (slot_changed_same_table_r _ _ _ _ _ _ _ Hch12 Hst) as Hch13.
        pose proof (slot_changed_join _ _ _ _ _ _ _ _ _ Hch13 Hch3) as ->.
        pose proof (slot_changed_trans _ _ _ _ _ _ _ _ _ Hch13 Hch3) as Hch.
        eexists. split; [exact Hloc|]. split; [exact Hch|].
        cbn [set_Lock set_Collisions set_Main Lock Main Collisions].
        split; [|split; [|reflexivity]].
        -- split; [right; reflexivity|]. intros HF. discriminate HF.
        -- unfold stored. cbn [Lock Main Collisions].
           change (Z.land POPULATED VALUE_BITS_MASK =? EMPTY) with false. cbv iota.
           assert (Hne : Collisions s0 <> []) by (intros HN; rewrite HN in EF; discriminate).
           destruct (Collisions s0) as [|c cs] eqn:EC; [congruence|].
           change (last (Main s0 :: c :: cs)) with (last (c :: cs)). rewrite E.
           change (<[S i := x]> (Main s0 :: c :: cs)) with (Main s0 :: <[i := x]> (c :: cs)).
           rewrite removelast_cons_insert by discriminate. reflexivity.
      * inv_ret Hbranch.
        pose proof (slot_changed_same_table_r _ _ _ _ _ _ _ Hch1 Hst) as Hch2.
        pose proof (slot_changed_trans _ _ _ _ _ _ _ _ _ Hch2 Hch3) as Hch.
        pose proof (slot_changed_join _ _ _ _ _ _ _ _ _ Hch2 Hch3) as ->.
        rewrite set_Lock_same in Hch by exact HP.
        exists s0. rewrite (stored_POPULATED s0 HP).
        split; [exact Hloc|]. split; [exact Hch|].
        split; [split; auto|].
        split; reflexivity.
Qed.

(** *** Growth and the slots *)

#[local] Abbreviation slots_inv_except' := (@slots_inv_except K T).

Lemma slot_inv_Slot_new : slot_inv' Slot_new'.
Proof. split; [left; reflexivity|reflexivity]. Qed.

Lemma resize_layer_lookup (Size : Z) (v : list Slot_) i x :
  resize_layer K_new T_new Size v !! i = Some x -> v !! i = Some x \/ x = Slot_new'.
Proof.
  unfold resize_layer. intros H. apply lookup_app_Some in H as [H|[_ H]].
  - left. apply lookup_take_Some in H as [H _]. exact H.
  - right. apply lookup_replicate in H as [-> _]. reflexivity.
Qed.

Lemma allocated_slot_origin m m' l i x :
  allocated' m m' -> layer_slot m' l i = Some x ->
  layer_slot m l i = Some x \/ x = Slot_new'.
Proof.
  intros (po & pn & v & Hpo & Hpn & Hv & ->). unfold layer_slot. cbn [Slots].
  destruct (decide (Z.to_nat (to_uInt tg (LayerLastIdx m + 1)) = l)) as [<-|Hne].
  - rewrite list_lookup_alter_eq, Hv. cbn. apply resize_layer_lookup.
  - rewrite list_lookup_alter_ne by exact Hne. auto.
Qed.

Lemma same_table_layer_slot m m' l i :
  same_table m m' -> layer_slot m' l i = layer_slot m l i.
Proof. intros [Hs _]. unfold layer_slot. rewrite Hs. reflexivity. Qed.

Lemma grown_slot_origin m m' l i x :
  grown' m m' -> layer_slot m' l i = Some x ->
  layer_slot m l i = Some x \/ x = Slot_new'.
Proof.
  intros [Hs|(ma & mb & Hs & Hl & Ha & Hb)] Hx.
  - left. rewrite <- (same_table_layer_slot m m') by exact Hs. exact Hx.
  - rewrite (same_table_layer_slot mb m') in Hx by exact Hb.
    apply (allocated_slot_origin ma mb _ _ _ Ha) in Hx as [Hx| ->]; [|auto].
    left. unfold layer_slot in *. rewrite <- Hs. exact Hx.
Qed.

Lemma grown_slot_below m m' (L I : Z) :
  0 <= LayerLastIdx m < MaxLayerCount tg ->
  grown' m m' -> 0 <= L <= LayerLastIdx m ->
  slot_at m' L I = slot_at m L I.
Proof.
  intros Hlast [Hs|(ma & mb & Hs & Hl & Ha & Hb)] HL.
  - apply same_table_layer_slot. exact Hs.
  - unfold slot_at. rewrite (same_table_layer_slot mb m') by exact Hb.
    rewrite <- Hl in Hlast, HL.
    pose proof (allocated_slots_below ma mb L I Hlast Ha HL) as Hx.
    unfold slot_at in Hx. rewrite Hx. unfold layer_slot. rewrite Hs. reflexivity.
Qed.

Lemma grown_LayerLastIdx m m' :
  0 <= LayerLastIdx m < MaxLayerCount tg ->
  grown' m m' -> LayerLastIdx m <= LayerLastIdx m'.
Proof.
  intros Hlast [[_ Hl]|(ma & mb & Hs & Hl & Ha & [_ Hb])].
  - lia.
  - rewrite <- Hl in Hlast.
    destruct (allocated_LayerLastIdx ma mb Hlast Ha) as [Hl' _]. lia.
Qed.

Lemma slots_inv_except_intro l0 i0 m : slots_inv' m -> slots_inv_except' l0 i0 m.
Proof. intros H l i s _ Hs. eapply H, Hs. Qed.

Lemma slots_inv_except_changed L I m m' s s' :
  slot_changed' L I m m' s s' ->
  slots_inv_except' (Z.to_nat L) (Z.to_nat I) m ->
  slots_inv_except' (Z.to_nat L) (Z.to_nat I) m'.
Proof.
  intros (_ & _ & Hc & _) H l i x Hne Hx.
  rewrite Hc in Hx by exact Hne. eapply H; eassumption.
Qed.

Lemma slots_inv_except_grown l0 i0 m m' :
  grown' m m' -> slots_inv_except' l0 i0 m -> slots_inv_except' l0 i0 m'.
Proof.
  intros Hg H l i x Hne Hx.
  apply (grown_slot_origin m m' _ _ _ Hg) in Hx as [Hx| ->].
  - eapply H; eassumption.
  - apply slot_inv_Slot_new.
Qed.

Lemma slots_inv_except_close L I m m' s s' :
  slot_changed' L I m m' s s' ->
  slots_inv_except' (Z.to_nat L) (Z.to_nat I) m ->
  slot_inv' s' -> slots_inv' m'.
Proof.
  intros (Ha & Hb & Hc & _) H Hs' l i x Hx.
  destruct (decide ((l, i) = (Z.to_nat L, Z.to_nat I))) as [E|Hne].
  - injection E as -> ->. unfold slot_at in Hb. congruence.
  - rewrite Hc in Hx by exact Hne. eapply H; eassumption.
Qed.

(** *** [Write] *)

(** The part of [Write] between the two ends of the [WriteWrapper]: the
    locked slot is updated, then the counter may grow the table. *)
Lemma Write_body_Returned self (Key : K) (Val : T) L I m1 u m3 s0 :
  slot_inv' s0 ->
  slot_at m1 L I = Some (set_Lock (Z.lor (Lock s0) WRITER_BIT_MASK) s0) ->
  (if Lock s0 =? EMPTY then
     (slot_update L I (set_Main (Key, Val));; Increment' self)%M
   else if Pred (fst (Main s0)) Key then
     slot_update L I (set_Main (fst (Main s0), Val))
   else
     match find_if (key_is Pred Key) (Collisions s0) with
     | None =>
         (slot_update L I (set_Collisions (Collisions s0 ++ [(Key, Val)]));;
          Increment' self)%M
     | Some (i, kv) =>
         slot_update L I (set_Collisions (<[i := (fst kv, Val)]> (Collisions s0)))
     end) m1 = Returned u m3 ->
  exists m2 s2,
    slot_changed' L I m1 m2 (set_Lock (Z.lor (Lock s0) WRITER_BIT_MASK) s0) s2 /\
    grown' m2 m3 /\
    stored' (set_Lock POPULATED s2) = write_pairs Pred Key Val (stored' s0).
Proof.
  intros [[HE|HP] Hcol] Hs1 H.
  - rewrite HE in H. change (EMPTY =? EMPTY) with true in H. cbv iota in H.
    apply bind_Returned in H as (u1 & m2 & Hupd & Hinc).
    apply slot_update_changed in Hupd as (s1 & Hch & _).
    assert (s1 = set_Lock (Z.lor (Lock s0) WRITER_BIT_MASK) s0) as ->
      by (destruct Hch as (Ha & _); congruence).
    apply Increment_Returned in Hinc.
    exists m2. eexists. split; [exact Hch|]. split; [exact Hinc|].
    rewrite (stored_EMPTY s0 HE). unfold stored, write_pairs.
    cbn [set_Lock set_Main Lock Main Collisions find_if app].
    rewrite (Hcol HE). reflexivity.
  - rewrite HP in H. change (POPULATED =? EMPTY) with false in H. cbv iota in H.
    rewrite (stored_POPULATED s0 HP). unfold write_pairs. cbn [find_if].
    unfold key_is at 1. cbn [fst].
    destruct (Pred (fst (Main s0)) Key) eqn:EP.
    + apply slot_update_changed in H as (s1 & Hch & _).
      assert (s1 = set_Lock (Z.lor (Lock s0) WRITER_BIT_MASK) s0) as ->
        by (destruct Hch as (Ha & _); congruence).
      exists m3. eexists. split; [exact Hch|].
      split; [apply grown_same, same_table_refl|]. reflexivity.
    + destruct (find_if (key_is Pred Key) (Collisions s0)) as [[i kv]|] eqn:EF.
      * apply slot_update_changed in H as (s1 & Hch & _).
        assert (s1 = set_Lock (Z.lor (Lock s0) WRITER_BIT_MASK) s0) as ->
          by (destruct Hch as (Ha & _); congruence).
        exists m3. eexists. split; [exact Hch|].
        split; [apply grown_same, same_table_refl|]. reflexivity.
      * apply bind_Returned in H as (u1 & m2 & Hupd & Hinc).
        apply slot_update_changed in Hupd as (s1 & Hch & _).
        assert (s1 = set_Lock (Z.lor (Lock s0) WRITER_BIT_MASK) s0) as ->
          by (destruct Hch as (Ha & _); congruence).
        apply Increment_Returned in Hinc.
        exists m2. eexists. split; [exact Hch|]. split; [exact Hinc|]. reflexivity.
Qed.

Lemma Write_Returned self (Key : K) (Val : T) m u m' :
  well_formed' m -> slots_inv' m ->
  Write' self Key Val m = Returned u m' ->
  exists L I s s',
    locate' Key m = Returned (L, I) m /\
    slot_at m L I = Some s /\
    slot_at m' L I = Some s' /\
    Lock s' = POPULATED /\
    stored' s' = write_pairs Pred Key Val (stored' s) /\
    slots_inv' m' /\ well_formed' m' /\
    LayerLastIdx m <= LayerLastIdx m' /\
    (forall L' I', 0 <= L' <= LayerLastIdx m ->
       (Z.to_nat L', Z.to_nat I') <> (Z.to_nat L, Z.to_nat I) ->
       slot_at m' L' I' = slot_at m L' I').
Proof.
  intros Hwf Hinv H. unfold Write in H.
  apply bind_Returned in H as ([L I] & m0 & Hloc & H).
  pose proof (locate_Returned _ _ _ _ Hloc) as ->.
  destruct (locate_run m Key Hwf) as (L0 & I0 & sx & Hloc0 & HL & HI & _).
  rewrite Hloc in Hloc0. injection Hloc0 as <- <-.
  apply bind_Returned in H as (status & m1 & Hctor & H).
  apply (WriteWrapper_ctor_Returned _ _ _ _ _ Hinv) in Hctor
    as (s0 & Hs0 & -> & Hmg1 & Hch1).
  apply bind_Returned in H as (s1 & m1' & Hload & H).
  apply slot_load_Returned in Hload as [Hs1 ->].
  pose proof (slot_changed_mid _ _ _ _ _ _ _ Hch1 Hs1) as ->.
  cbn [Main Collisions set_Lock] in H.
  apply bind_Returned in H as (u3 & m3 & Hbody & Hdtor).
  apply (Write_body_Returned _ _ _ _ _ _ _ _ _ Hs0 Hs1) in Hbody
    as (m2 & s2 & Hch2 & Hg & Hst).
  apply WriteWrapper_dtor_Returned in Hdtor as (s3 & Hch3 & _).
  pose proof (slot_changed_trans _ _ _ _ _ _ _ _ _ Hch1 Hch2) as Hch12.
  pose proof (slot_changed_wf _ _ _ _ _ _ Hch12 Hwf) as Hwf2.
  pose proof (well_formed_grown _ _ Hg Hwf2) as Hwf3.
  assert (Hl2 : LayerLastIdx m2 = LayerLastIdx m) by apply Hch12.
  assert (Hlast2 : 0 <= LayerLastIdx m2 < MaxLayerCount tg) by apply Hwf2.
  assert (Hs3 : s3 = s2).
  { destruct Hch3 as (Ha & _). destruct Hch12 as (_ & Hb & _).
    rewrite (grown_slot_below m2 m3 L I Hlast2 Hg) in Ha by lia. congruence. }
  subst s3.
  exists L, I, s0, (set_Lock POPULATED s2).
  split; [exact Hloc|]. split; [apply Hch1|]. split; [apply Hch3|].
  split; [reflexivity|]. split; [exact Hst|].
  split; [|split; [|split]].
  - eapply slots_inv_except_close; [exact Hch3| |split; [right; reflexivity|discriminate]].
    eapply slots_inv_except_grown; [exact Hg|].
    eapply slots_inv_except_changed; [exact Hch12|].
    apply slots_inv_except_intro, Hinv.
  - eapply slot_changed_wf; eassumption.
  - destruct Hch3 as (_ & _ & _ & _ & Hl3). rewrite Hl3, <- Hl2.
    apply grown_LayerLastIdx; assumption.
  - intros L' I' HL' Hne.
    destruct Hch3 as (_ & _ & Hc3 & _). destruct Hch12 as (_ & _ & Hc12 & _).
    unfold slot_at. rewrite Hc3 by exact Hne.
    change (layer_slot m3 (Z.to_nat L') (Z.to_nat I')) with (slot_at m3 L' I').
    rewrite (grown_slot_below m2 m3 L' I' Hlast2 Hg) by lia.
    unfold slot_at. apply Hc12. exact Hne.
Qed.

(** *** [Read] *)

Lemma slot_load_run L I m s : slot_at m L I = Some s -> slot_load L I m = Returned s m.
Proof. intros H. unfold slot_load, bind, get, checked. rewrite H. reflexivity. Qed.

Lemma set_Lock_set_Lock x y s : set_Lock x (set_Lock y s) = set_Lock x s.
Proof. reflexivity. Qed.

Lemma set_Lock_id s : set_Lock (Lock s) s = s.
Proof. destruct s. reflexivity. Qed.

(** [Read] is total on a well-formed map whose slots are free: it leaves
    the map as it was and returns the value of the first pair of the
    addressed slot whose key is equal, or throws when there is none. *)
Lemma Read_spec (Key : K) m :
  well_formed' m -> slots_inv' m ->
  exists L I s,
    locate' Key m = Returned (L, I) m /\
    slot_at m L I = Some s /\
    Read' Key m =
      match find_if (key_is Pred Key) (stored' s) with
      | Some (_, kv) => Returned (snd kv) m
      | None => Thrown out_of_range m
      end.
Proof.
  intros Hwf Hinv.
  destruct (locate_run m Key Hwf) as (L & I & s & Hloc & HL & HI & Hs).
  exists L, I, s. split; [exact Hloc|]. split; [exact Hs|].
  assert (Hsi : slot_inv' s) by (eapply Hinv, Hs).
  destruct (read_lock_free s Hsi) as (held & Hrl & Hru).
  set (m1 := set_Slots (alter (<[Z.to_nat I := set_Lock held s]>) (Z.to_nat L)) m).
  assert (Hs1 : slot_at m1 L I = Some (set_Lock held s)).
  { unfold slot_at, m1. eapply layer_slot_insert_eq. exact Hs. }
  assert (Hctor : ReadWrapper_ctor L I m = Returned (Lock s) m1).
  { unfold ReadWrapper_ctor. rewrite (bind_step _ _ _ _ _ (slot_load_run _ _ _ _ Hs)).
    rewrite Hrl. cbn [acquired]. unfold bind at 1. unfold ret at 1.
    rewrite (bind_step _ _ _ _ _ (slot_update_run _ _ _ _ _ Hs)). reflexivity. }
  assert (Hdtor : ReadWrapper_dtor L I m1 = Returned tt m).
  { unfold ReadWrapper_dtor. rewrite (slot_update_run _ _ _ _ _ Hs1).
    cbv beta. change (Lock (set_Lock held s)) with held.
    rewrite Hru, set_Lock_set_Lock, set_Lock_id. unfold m1.
    rewrite set_Slots_insert_insert. f_equal.
    apply layer_slot_insert_same. exact Hs. }
  unfold Read. rewrite (bind_step _ _ _ _ _ Hloc). cbv beta iota.
  rewrite (bind_step _ _ _ _ _ Hctor).
  rewrite (bind_step _ _ _ _ _ (slot_load_run _ _ _ _ Hs1)).
  cbn [Main Collisions set_Lock].
  destruct Hsi as [[HE|HP] Hcol].
  - rewrite (stored_EMPTY s HE), HE. cbn [find_if]. change (EMPTY =? EMPTY) with true.
    cbv iota. rewrite (bind_step _ _ _ _ _ Hdtor). reflexivity.
  - rewrite (stored_POPULATED s HP), HP. change (POPULATED =? EMPTY) with false.
    cbv iota. cbn [find_if]. unfold key_is at 2. cbn [fst].
    destruct (Pred (fst (Main s)) Key).
    + rewrite (bind_step _ _ _ _ _ Hdtor). reflexivity.
    + destruct (find_if (key_is Pred Key) (Collisions s)) as [[i kv]|];
        rewrite (bind_step _ _ _ _ _ Hdtor); reflexivity.
Qed.

(** Every slot of a newly constructed map is a new slot. *)
Lemma LayeredHashMap_ctor_slots_inv (g : ThreadManager) u m :
  LayeredHashMap_ctor tg K_new T_new g = Returned u m -> slots_inv' m.
Proof.
  unfold LayeredHashMap_ctor, MAP_INIT, MAP_ALLOC. intros H. inv_ret H.
  intros l i s Hs. unfold layer_slot in Hs.
  cbn [Slots set_Slots LayeredHashMap_members] in Hs.
  destruct (decide (Z.to_nat 0 = l)) as [<-|Hne].
  - rewrite list_lookup_alter_eq in Hs.
    destruct (replicate _ _ !! _) as [v|] eqn:Ev; [|discriminate].
    apply lookup_replicate in Ev as [-> _]. cbn in Hs.
    apply resize_layer_lookup in Hs as [Hs| ->]; [discriminate|].
    apply slot_inv_Slot_new.
  - rewrite list_lookup_alter_ne in Hs by exact Hne.
    destruct (replicate _ _ !! _) as [v|] eqn:Ev; [|discriminate].
    apply lookup_replicate in Ev as [-> _]. discriminate.
Qed.

(** *** The operations return *)

#[local] Abbreviation quiescent' := (@quiescent K T).

Lemma bind_returns {A B} (c : Op A) (k : A -> Op B) m a m1 :
  c m = Returned a m1 ->
  (exists b m', k a m1 = Returned b m') ->
  exists b m', bind c k m = Returned b m'.
Proof. intros Hc (b & m' & Hk). exists b, m'. rewrite (bind_step _ _ _ _ _ Hc). exact Hk. Qed.

Lemma quiescent_same_Manager self m m' :
  Manager m' = Manager m -> quiescent' self m -> quiescent' self m'.
Proof. unfold quiescent. intros ->. auto. Qed.

Lemma WaitForGlobalValue_run m :
  ValueUniqueLock (Manager m) = false -> @WaitForGlobalValue K T m = Returned tt m.
Proof. intros H. unfold WaitForGlobalValue, bind, get. rewrite H. reflexivity. Qed.

Lemma Decrement_returns self m :
  quiescent' self m -> exists m', Decrement' self m = Returned tt m'.
Proof.
  intros ([v Hv] & _ & Hq).
  unfold Decrement, counter_load, counter_store_Value, bind, get, checked, modify.
  rewrite Hv. cbn [ret]. destruct (DECREMENT tg (Value v)) as [X' r].
  rewrite WaitForGlobalValue_run by exact Hq. eauto.
Qed.

Lemma bind_get {A} (k : St -> Op A) m : bind get k m = k m m.
Proof. reflexivity. Qed.

Lemma bind_checked {A B} f (o : option A) (a : A) (k : A -> Op B) m :
  o = Some a -> bind (checked f o) k m = k a m.
Proof. intros ->. reflexivity. Qed.

Lemma bind_modify {A} (f : St -> St) (k : unit -> Op A) m :
  bind (modify f) k m = k tt (f m).
Proof. reflexivity. Qed.

Lemma bind_ret {A B} (a : A) (k : A -> Op B) m : bind (ret a) k m = k a m.
Proof. reflexivity. Qed.

Lemma RESIZE_FUNC_returns G m :
  well_formed' m -> LayerLastIdx m + 1 < MaxLayerCount tg ->
  exists p m', RESIZE_FUNC' G m = Returned p m' /\ Manager m' = Manager m.
Proof.
  intros Hwf Hlt.
  destruct (Primes_in_range (LayerLastIdx m)) as (p0 & Hp0 & _); [apply Hwf|].
  unfold RESIZE_FUNC. rewrite bind_get, (bind_checked _ _ _ _ _ Hp0).
  destruct (p0 <? G).
  - destruct (AllocateLayer_run m Hwf Hlt) as (m1 & po & pn & Hrun & _ & Hpn & Hl1 & Hwf1).
    rewrite (bind_step _ _ _ _ _ Hrun), bind_get.
    rewrite <- Hl1 in Hpn. rewrite Hpn.
    eexists _, _. split; [reflexivity|].
    apply AllocateLayer_Returned in Hrun as (? & ? & ? & _ & _ & _ & ->). reflexivity.
  - rewrite bind_ret, bind_get, Hp0. eexists _, _. split; reflexivity.
Qed.

Lemma Update_returns m :
  well_formed' m -> LayerLastIdx m + 1 < MaxLayerCount tg ->
  ThreadValues (Manager m) <> [] ->
  exists m' adj,
    Update' m = Returned tt m' /\
    Manager m' = set_ThreadValues (map (AdjustThreadThreshold tg adj)) (Manager m).
Proof.
  intros Hwf Hlt Hne. unfold _UpdateManagerInternal. rewrite bind_get.
  destruct (RESIZE_FUNC_returns
              (to_uInt tg (ThreadValuesSum tg (ThreadValues (Manager m))
                           + DTOR_ThreadValuesSum (Manager m))) m Hwf Hlt)
    as (p & m1 & Hr & Hmg).
  rewrite (bind_step _ _ _ _ _ Hr), bind_get, Hmg.
  destruct (Z.eqb_spec (Z.of_nat (length (ThreadValues (Manager m)))) 0) as [E|E].
  - destruct (ThreadValues (Manager m)); [congruence|discriminate E].
  - unfold modify. eexists _, _. split; [reflexivity|]. cbn. rewrite Hmg. reflexivity.
Qed.

Lemma Increment_returns self m :
  well_formed' m -> LayerLastIdx m + 1 < MaxLayerCount tg ->
  quiescent' self m -> exists m', Increment' self m = Returned tt m'.
Proof.
  intros Hwf Hlt ([v Hv] & Hml & Hq).
  unfold Increment, counter_load, counter_store_Value.
  rewrite (bind_step _ _ m v m); [|rewrite bind_get, Hv; reflexivity].
  destruct (INCREMENT tg (Value v)) as [X' r].
  rewrite bind_modify.
  set (m1 := set_Manager _ m).
  assert (Hwf1 : well_formed' m1)
    by (eapply well_formed_same_table; [apply same_table_set_Manager|exact Hwf]).
  destruct (Threshold v <=? r).
  - unfold UpdateManager.
    assert (HL : ManagerLock (Manager m1) = false) by exact Hml.
    set (m2 := set_Manager (set_ManagerLock true) m1).
    destruct (Update_returns m2) as (m3 & adj & Hu & Hv3).
    + eapply well_formed_same_table; [apply same_table_set_Manager|exact Hwf1].
    + exact Hlt.
    + cbn. intros HN. apply (f_equal length) in HN. rewrite length_alter in HN.
      apply lookup_lt_Some in Hv. cbn in HN. lia.
    + assert (Hum : UpdateManager' m1 = Returned tt
                      (set_Manager (fun g => set_ManagerLock
                                     (AtomicLock_unlock (ManagerLock g)) g) m3)).
      { unfold UpdateManager. rewrite bind_get, HL. cbn [AtomicLock_try_lock negb].
        rewrite bind_modify. fold m2. rewrite (bind_step _ _ _ _ _ Hu).
        reflexivity. }
      fold (UpdateManager' ) in Hum.
      rewrite (bind_step _ _ _ _ _ Hum).
      rewrite WaitForGlobalValue_run; [eauto|]. cbn. rewrite Hv3. exact Hq.
  - rewrite bind_ret. rewrite WaitForGlobalValue_run by exact Hq. eauto.
Qed.

Lemma slot_update_returns L I f m s :
  slot_at m L I = Some s ->
  exists m', slot_update L I f m = Returned tt m' /\
             slot_at m' L I = Some (f s) /\ Manager m' = Manager m.
Proof.
  intros Hs. rewrite (slot_update_run _ _ _ _ _ Hs). eexists. split; [reflexivity|].
  split; [|reflexivity]. unfold slot_at. eapply layer_slot_insert_eq. exact Hs.
Qed.

Lemma WriteWrapper_ctor_returns L I m s :
  slot_at m L I = Some s -> slot_inv' s ->
  exists m1, WriteWrapper_ctor L I m = Returned (Lock s) m1 /\
             slot_at m1 L I = Some (set_Lock (Z.lor (Lock s) WRITER_BIT_MASK) s) /\
             Manager m1 = Manager m.
Proof.
  intros Hs Hi. unfold WriteWrapper_ctor.
  rewrite (bind_step _ _ _ _ _ (slot_load_run _ _ _ _ Hs)).
  rewrite (write_lock_free s Hi). cbn [acquired]. rewrite bind_ret.
  destruct (slot_update_returns L I (set_Lock (Z.lor (Lock s) WRITER_BIT_MASK)) m s Hs)
    as (m1 & Hu & Hs1 & Hmg).
  rewrite (bind_step _ _ _ _ _ Hu). exists m1. auto.
Qed.

Lemma SWAP_AND_POP_Main_returns L I m s x :
  slot_at m L I = Some s -> last (Collisions s) = Some x ->
  exists m' s', SWAP_AND_POP_Main L I m = Returned tt m' /\
                slot_at m' L I = Some s' /\ Manager m' = Manager m.
Proof.
  intros Hs Hl. unfold SWAP_AND_POP_Main.
  rewrite (bind_step _ _ _ _ _ (slot_load_run _ _ _ _ Hs)).
  rewrite (bind_checked _ _ _ _ _ Hl).
  edestruct (slot_update_returns L I) as (m2 & Hu & Hs2 & Hmg2); [exact Hs|].
  rewrite Hu. eauto.
Qed.

Lemma SWAP_AND_POP_at_returns L I i m s x :
  slot_at m L I = Some s -> last (Collisions s) = Some x ->
  exists m' s', SWAP_AND_POP_at L I i m = Returned tt m' /\
                slot_at m' L I = Some s' /\ Manager m' = Manager m.
Proof.
  intros Hs Hl. unfold SWAP_AND_POP_at.
  rewrite (bind_step _ _ _ _ _ (slot_load_run _ _ _ _ Hs)).
  rewrite (bind_checked _ _ _ _ _ Hl).
  edestruct (slot_update_returns L I) as (m2 & Hu & Hs2 & Hmg2); [exact Hs|].
  rewrite Hu. eauto.
Qed.

(** [Delete] returns on a well-formed map whose slots are free, for a
    thread whose counter is registered. *)
Lemma Delete_returns self (Key : K) m :
  well_formed' m -> slots_inv' m -> quiescent' self m ->
  exists r m', Delete' self Key m = Returned r m'.
Proof.
  intros Hwf Hinv Hq.
  destruct (locate_run m Key Hwf) as (L & I & s & Hloc & _ & _ & Hs).
  assert (Hsi : slot_inv' s) by (eapply Hinv, Hs).
  destruct (WriteWrapper_ctor_returns L I m s Hs Hsi) as (m1 & Hctor & Hs1 & Hmg1).
  unfold Delete. rewrite (bind_step _ _ _ _ _ Hloc). cbv beta iota.
  rewrite (bind_step _ _ _ _ _ Hctor).
  rewrite (bind_step _ _ _ _ _ (slot_load_run _ _ _ _ Hs1)).
  cbn [Main Collisions set_Lock].
  assert (Hbranch : exists d st' m2 s2,
    (if Lock s =? EMPTY then ret (false, Lock s)
     else if Pred (fst (Main s)) Key then
       match Collisions s with
       | _ :: _ => (SWAP_AND_POP_Main L I;; ret (true, Lock s))%M
       | [] => ret (true, EMPTY)
       end
     else
       match find_if (key_is Pred Key) (Collisions s) with
       | Some (i, _) => (SWAP_AND_POP_at L I i;; ret (true, Lock s))%M
       | None => ret (false, Lock s)
       end) m1 = Returned (d, st') m2 /\
    slot_at m2 L I = Some s2 /\ Manager m2 = Manager m1).
  { destruct (Lock s =? EMPTY); [eexists _, _, _, _; split; [reflexivity|]; eauto|].
    destruct (Pred (fst (Main s)) Key).
    - destruct (Collisions s) as [|c cs] eqn:EC;
        [eexists _, _, _, _; split; [reflexivity|]; eauto|].
      destruct (last (c :: cs)) as [x|] eqn:El;
        [|apply last_None in El; discriminate El].
      destruct (SWAP_AND_POP_Main_returns L I m1 _ x Hs1) as (m2 & s2 & Hu & Hs2 & Hmg2).
      { cbn [Collisions set_Lock]. rewrite EC. exact El. }
      rewrite (bind_step _ _ _ _ _ Hu).
      eexists _, _, _, _. split; [reflexivity|]. eauto.
    - destruct (find_if (key_is Pred Key) (Collisions s)) as [[i y]|] eqn:EF;
        [|eexists _, _, _, _; split; [reflexivity|]; eauto].
      destruct (find_if_last _ _ _ _ EF) as (x & El).
      destruct (SWAP_AND_POP_at_returns L I i m1 _ x Hs1 El) as (m2 & s2 & Hu & Hs2 & Hmg2).
      rewrite (bind_step _ _ _ _ _ Hu).
      eexists _, _, _, _. split; [reflexivity|]. eauto. }
  destruct Hbranch as (d & st' & m2 & s2 & Hb & Hs2 & Hmg2).
  rewrite (bind_step _ _ _ _ _ Hb). cbv beta iota.
  assert (Hdec : exists m3, (if d then Decrement' self else ret tt) m2 = Returned tt m3 /\
                            slot_at m3 L I = Some s2).
  { destruct d.
    - destruct (Decrement_returns self m2) as (m3 & Hd).
      { eapply quiescent_same_Manager; [|exact Hq]. congruence. }
      exists m3. split; [exact Hd|].
      apply Decrement_Returned in Hd. unfold slot_at.
      rewrite (same_table_layer_slot m2 m3) by exact Hd. exact Hs2.
    - exists m2. split; [reflexivity|exact Hs2]. }
  destruct Hdec as (m3 & Hd & Hs3).
  rewrite (bind_step _ _ _ _ _ Hd).
  unfold WriteWrapper_dtor.
  destruct (slot_update_returns L I (set_Lock (write_unlock st')) m3 s2 Hs3)
    as (m4 & Hu & _).
  rewrite (bind_step _ _ _ _ _ Hu). eexists _, _. reflexivity.
Qed.

Lemma slot_update_returns_wf L I f m s self :
  slot_at m L I = Some s -> well_formed' m -> quiescent' self m ->
  exists m', slot_update L I f m = Returned tt m' /\
             slot_at m' L I = Some (f s) /\ well_formed' m' /\
             LayerLastIdx m' = LayerLastIdx m /\ quiescent' self m'.
Proof.
  intros Hs Hwf Hq.
  destruct (slot_update_returns L I f m s Hs) as (m' & Hu & Hs' & Hmg).
  exists m'. split; [exact Hu|]. split; [exact Hs'|].
  destruct (slot_update_changed _ _ _ _ _ _ Hu) as (s0 & Hch & _).
  split; [eapply slot_changed_wf; eassumption|].
  split; [apply Hch|]. eapply quiescent_same_Manager; eassumption.
Qed.

(** [Write] returns on a well-formed map whose slots are free and whose
    table has a next layer, for a thread whose counter is registered. *)
Lemma Write_returns self (Key : K) (Val : T) m :
  well_formed' m -> slots_inv' m -> quiescent' self m ->
  LayerLastIdx m + 1 < MaxLayerCount tg ->
  exists m', Write' self Key Val m = Returned tt m'.
Proof.
  intros Hwf Hinv Hq Hlt.
  destruct (locate_run m Key Hwf) as (L & I & s & Hloc & HL & _ & Hs).
  assert (Hsi : slot_inv' s) by (eapply Hinv, Hs).
  destruct (slot_update_returns_wf L I (set_Lock (Z.lor (Lock s) WRITER_BIT_MASK))
              m s self Hs Hwf Hq) as (m1 & Hu1 & Hs1 & Hwf1 & Hl1 & Hq1).
  assert (Hctor : WriteWrapper_ctor L I m = Returned (Lock s) m1).
  { unfold WriteWrapper_ctor.
    rewrite (bind_step _ _ _ _ _ (slot_load_run _ _ _ _ Hs)).
    rewrite (write_lock_free s Hsi). cbn [acquired]. rewrite bind_ret.
    rewrite (bind_step _ _ _ _ _ Hu1). reflexivity. }
  unfold Write. rewrite (bind_step _ _ _ _ _ Hloc). cbv beta iota.
  rewrite (bind_step _ _ _ _ _ Hctor).
  rewrite (bind_step _ _ _ _ _ (slot_load_run _ _ _ _ Hs1)).
  cbn [Main Collisions set_Lock].
  assert (Hinc : forall f,
    exists m3 s3,
      (slot_update L I f;; Increment' self)%M m1 = Returned tt m3 /\
      slot_at m3 L I = Some s3).
  { intros f.
    destruct (slot_update_returns_wf L I f m1 _ self Hs1 Hwf1 Hq1)
      as (m2 & Hu2 & Hs2 & Hwf2 & Hl2 & Hq2).
    destruct (Increment_returns self m2 Hwf2 ltac:(lia) Hq2) as (m3 & Hi).
    exists m3, (f (set_Lock (Z.lor (Lock s) WRITER_BIT_MASK) s)).
    split; [rewrite (bind_step _ _ _ _ _ Hu2); exact Hi|].
    apply Increment_Returned in Hi.
    rewrite (grown_slot_below m2 m3 L I (proj1 (proj2 Hwf2)) Hi) by lia. exact Hs2. }
  assert (Hupd : forall f,
    exists m3 s3, slot_update L I f m1 = Returned tt m3 /\ slot_at m3 L I = Some s3).
  { intros f. destruct (slot_update_returns L I f m1 _ Hs1) as (m2 & Hu2 & Hs2 & _).
    eauto. }
  assert (Hbody : exists m3 s3,
    (if Lock s =? EMPTY then
       (slot_update L I (set_Main (Key, Val));; Increment' self)%M
     else if Pred (fst (Main s)) Key then
       slot_update L I (set_Main (fst (Main s), Val))
     else
       match find_if (key_is Pred Key) (Collisions s) with
       | None =>
           (slot_update L I (set_Collisions (Collisions s ++ [(Key, Val)]));;
            Increment' self)%M
       | Some (i, kv) =>
           slot_update L I (set_Collisions (<[i := (fst kv, Val)]> (Collisions s)))
       end) m1 = Returned tt m3 /\ slot_at m3 L I = Some s3).
  { destruct (Lock s =? EMPTY); [apply Hinc|].
    destruct (Pred (fst (Main s)) Key); [apply Hupd|].
    destruct (find_if (key_is Pred Key) (Collisions s)) as [[i kv]|];
      [apply Hupd|apply Hinc]. }
  destruct Hbody as (m3 & s3 & Hb & Hs3).
  rewrite (bind_step _ _ _ _ _ Hb).
  unfold WriteWrapper_dtor.
  destruct (slot_update_returns L I (set_Lock (write_unlock POPULATED)) m3 s3 Hs3)
    as (m4 & Hu & _).
  exists m4. exact Hu.
Qed.

Lemma slots_inv_grown m m' : grown' m m' -> slots_inv' m -> slots_inv' m'.
Proof.
  intros Hg H l i x Hx.
  apply (grown_slot_origin m m' _ _ _ Hg) in Hx as [Hx| ->].
  - eapply H, Hx.
  - apply slot_inv_Slot_new.
Qed.

(** A thread registers its counter: the counter is appended to the
    registry and the thread is ready to use the map. *)
Lemma ConstructThreadValue_returns m :
  well_formed' m -> LayerLastIdx m + 1 < MaxLayerCount tg ->
  ManagerLock (Manager m) = false -> ValueUniqueLock (Manager m) = false ->
  exists m',
    ConstructThreadValue tg K_new T_new MAX_ERROR_margin m
    = Returned (length (ThreadValues (Manager m))) m' /\
    grown' m m' /\
    quiescent' (length (ThreadValues (Manager m))) m'.
Proof.
  intros Hwf Hlt Hml Hvl.
  unfold ConstructThreadValue, ManagerLock_lock, ManagerLock_unlock.
  rewrite (bind_step _ _ m tt (set_Manager (set_ManagerLock true) m));
    [|rewrite bind_get, Hml; reflexivity].
  rewrite bind_modify.
  set (m1 := set_Manager _ (set_Manager _ m)).
  destruct (Update_returns m1) as (m2 & adj & Hu & Hmg2).
  - eapply well_formed_same_table; [|exact Hwf]. split; reflexivity.
  - exact Hlt.
  - cbn. intros HN. apply (f_equal length) in HN. rewrite length_app in HN.
    cbn in HN. lia.
  - rewrite (bind_step _ _ _ _ _ Hu), bind_modify, bind_get.
    eexists. split.
    + unfold ret. f_equal. cbn. rewrite Hmg2. cbn.
      rewrite length_map, length_app. cbn. lia.
    + split.
      * eapply grown_same_r; [eapply grown_same_l; [|eapply Update_Returned, Hu]|].
        -- split; reflexivity.
        -- apply same_table_set_Manager.
      * unfold quiescent. cbn. rewrite Hmg2. cbn.
        split; [|split; [reflexivity|exact Hvl]].
        apply lookup_lt_is_Some. rewrite length_map, length_app. cbn. lia.
Qed.

(** *** What is read after a write *)

Lemma find_if_insert_found {A} (p : A -> bool) (ps : list A) i x y :
  find_if p ps = Some (i, x) -> p y = true ->
  find_if p (<[i := y]> ps) = Some (i, y).
Proof.
  revert i. induction ps as [|a ps IH]; intros i Hf Hy; [discriminate|].
  cbn [find_if] in Hf. destruct (p a) eqn:Ea.
  - injection Hf as <- <-. cbn. rewrite Hy. reflexivity.
  - destruct (find_if p ps) as [[j z]|] eqn:Ef; [|discriminate].
    injection Hf as <- <-.
    change (<[S j := y]> (a :: ps)) with (a :: <[j := y]> ps).
    cbn [find_if]. rewrite Ea, (IH j eq_refl Hy). reflexivity.
Qed.

Lemma find_if_snoc_found {A} (p : A -> bool) (ps : list A) y :
  find_if p ps = None -> p y = true ->
  find_if p (ps ++ [y]) = Some (length ps, y).
Proof.
  induction ps as [|a ps IH]; intros Hf Hy.
  - cbn. rewrite Hy. reflexivity.
  - cbn [find_if] in Hf. destruct (p a) eqn:Ea; [discriminate|].
    destruct (find_if p ps) as [[j z]|] eqn:Ef; [discriminate|].
    change ((a :: ps) ++ [y]) with (a :: (ps ++ [y])).
    cbn [find_if length]. rewrite Ea, (IH eq_refl Hy). reflexivity.
Qed.

Lemma find_if_write_pairs (Key : K) (Val : T) (ps : list (K * T)) :
  Pred Key Key = true ->
  exists i kv, find_if (key_is Pred Key) (write_pairs Pred Key Val ps) = Some (i, kv) /\
               snd kv = Val.
Proof.
  intros Hrefl. unfold write_pairs.
  destruct (find_if (key_is Pred Key) ps) as [[i kv]|] eqn:Ef.
  - exists i, (fst kv, Val). split; [|reflexivity].
    apply (find_if_insert_found _ _ _ kv); [exact Ef|].
    clear -Ef. revert i Ef. induction ps as [|a ps IH]; intros i Ef; [discriminate|].
    cbn [find_if] in Ef. destruct (key_is Pred Key a) eqn:Ea.
    + injection Ef as <- <-. exact Ea.
    + destruct (find_if (key_is Pred Key) ps) as [[j z]|]; [|discriminate].
      injection Ef as <- <-. eapply IH. reflexivity.
  - exists (length ps), (Key, Val). split; [|reflexivity].
    apply find_if_snoc_found; [exact Ef|exact Hrefl].
Qed.

Lemma locate_same_LayerLastIdx (Key : K) m m' a :
  LayerLastIdx m' = LayerLastIdx m ->
  locate' Key m = Returned a m -> locate' Key m' = Returned a m'.
Proof.
  intros Hl H. unfold locate, bind, get, checked, ret, undefined in *. rewrite Hl.
  destruct (RawHash tg _ _) as [rh|]; [|discriminate].
  destruct (GetLayer tg rh) as [L|]; [|discriminate].
  destruct (GetSlot tg rh L) as [I|]; [|discriminate].
  injection H as <-. reflexivity.
Qed.

(** A [Write] that does not grow the table is read back: when [Pred]
    holds of the key and itself, [Read] of the key returns the value
    written. *)
Lemma Write_then_Read self (Key : K) (Val : T) m u m' :
  well_formed' m -> slots_inv' m ->
  Pred Key Key = true ->
  Write' self Key Val m = Returned u m' ->
  LayerLastIdx m' = LayerLastIdx m ->
  Read' Key m' = Returned Val m'.
Proof.
  intros Hwf Hinv Hrefl HW Hl.
  destruct (Write_Returned _ _ _ _ _ _ Hwf Hinv HW)
    as (L & I & s & s' & Hloc & Hs & Hs' & HP & Hst & Hinv' & Hwf' & _).
  destruct (Read_spec Key m' Hwf' Hinv') as (L' & I' & s'' & Hloc' & Hs'' & ->).
  rewrite (locate_same_LayerLastIdx Key m m' (L, I) Hl Hloc) in Hloc'.
  injection Hloc' as <- <-. rewrite Hs' in Hs''. injection Hs'' as <-.
  rewrite Hst.
  destruct (find_if_write_pairs Key Val (stored' s) Hrefl) as (i & kv & -> & <-).
  reflexivity.
Qed.

(** *** The value of [INCREMENT] on the two branches *)

Lemma Increment_native self m v :
  plat tg = MSVC_native ->
  ThreadValues (Manager m) !! self = Some v ->
  Increment' self m
  = (counter_store_Value self (to_sInt tg (Value v + 1));;
     (if Threshold v <=? to_sInt tg (Value v + 1) then UpdateManager' else ret tt);;
     WaitForGlobalValue)%M m.
Proof.
  intros Hp Hv. unfold Increment, counter_load.
  rewrite (bind_step _ _ m v m) by (rewrite bind_get, Hv; reflexivity).
  unfold INCREMENT. rewrite Hp. reflexivity.
Qed.

Lemma Increment_fetch_add self m v :
  plat tg = StdAtomic ->
  ThreadValues (Manager m) !! self = Some v ->
  Increment' self m
  = (counter_store_Value self (to_sInt tg (Value v + 1));;
     (if Threshold v <=? Value v then UpdateManager' else ret tt);;
     WaitForGlobalValue)%M m.
Proof.
  intros Hp Hv. unfold Increment, counter_load.
  rewrite (bind_step _ _ m v m) by (rewrite bind_get, Hv; reflexivity).
  unfold INCREMENT. rewrite Hp. reflexivity.
Qed.

Lemma Decrement_spec self m v :
  ThreadValues (Manager m) !! self = Some v ->
  Decrement' self m
  = (counter_store_Value self (to_sInt tg (Value v - 1));; WaitForGlobalValue)%M m.
Proof.
  intros Hv. unfold Decrement, counter_load.
  rewrite (bind_step _ _ m v m) by (rewrite bind_get, Hv; reflexivity).
  unfold DECREMENT. destruct (plat tg); reflexivity.
Qed.

(** ** C6: the slot invariant *)

Lemma stored_nil_iff s : slot_inv' s -> (stored' s = [] <-> Lock s = EMPTY).
Proof.
  intros [[HE|HP] _].
  - rewrite (stored_EMPTY s HE). tauto.
  - rewrite (stored_POPULATED s HP), HP. split; discriminate.
Qed.

(** C6.  On a well-formed map whose slots all satisfy the invariant
    (lock word [EMPTY] or [POPULATED], collisions only behind a set
    occupancy bit), every [Write], [Delete] and [Read] that completes
    leaves a map whose slots all satisfy it.  The pairs a slot holds
    ([stored]: [Main] and the collisions when the bit is set, nothing
    otherwise) change as follows: [Write] sets the bit and updates or
    appends the pair; [Delete] overwrites the pair found with the last
    pair and drops that one, the bit being cleared exactly when no pair
    is left: deleting the only pair releases with [EMPTY], deleting one
    of several releases with [POPULATED]; [Read] changes nothing.  The
    operations do complete: [Read] always, [Write] and [Delete] for a
    thread whose counter is registered while no lock of the manager is
    held ([Write] as long as the table has a next layer to grow into). *)
Theorem slot_invariant_preserved m :
  well_formed' m -> slots_inv' m ->
  (forall self Key Val u m',
      Write' self Key Val m = Returned u m' ->
      slots_inv' m' /\
      exists L I s s',
        locate' Key m = Returned (L, I) m /\
        slot_at m L I = Some s /\ slot_at m' L I = Some s' /\
        Lock s' = POPULATED /\
        stored' s' = write_pairs Pred Key Val (stored' s)) /\
  (forall self Key r m',
      Delete' self Key m = Returned r m' ->
      slots_inv' m' /\
      exists L I s s',
        locate' Key m = Returned (L, I) m /\
        slot_at m L I = Some s /\ slot_at m' L I = Some s' /\
        stored' s' = delete_pairs Pred Key (stored' s) /\
        (Lock s' = EMPTY <-> stored' s' = []) /\
        (Lock s' = POPULATED <-> stored' s' <> []) /\
        (forall kv, stored' s = [kv] -> key_is Pred Key kv = true ->
                    r = true /\ Lock s' = EMPTY) /\
        (forall i kv x,
            find_if (key_is Pred Key) (stored' s) = Some (i, kv) ->
            last (stored' s) = Some x ->
            (2 <= length (stored' s))%nat ->
            r = true /\ Lock s' = POPULATED /\
            stored' s' = removelast (<[i := x]> (stored' s)))) /\
  (forall Key,
      (exists v, Read' Key m = Returned v m) \/ Read' Key m = Thrown out_of_range m) /\
  (forall self Key Val,
      quiescent' self m -> LayerLastIdx m + 1 < MaxLayerCount tg ->
      exists m', Write' self Key Val m = Returned tt m') /\
  (forall self Key,
      quiescent' self m -> exists r m', Delete' self Key m = Returned r m').
Proof.
  intros Hwf Hinv. split; [|split; [|split; [|split]]].
  - intros self Key Val u m' H.
    destruct (Write_Returned _ _ _ _ _ _ Hwf Hinv H)
      as (L & I & s & s' & Hloc & Hs & Hs' & HP & Hst & Hinv' & _).
    split; [exact Hinv'|]. exists L, I, s, s'. auto.
  - intros self Key r m' H.
    destruct (Delete_Returned _ _ _ _ _ Hinv H)
      as (L & I & s & s' & Hloc & Hch & Hsi' & Hst & Hr).
    split; [eapply slot_changed_inv; eassumption|].
    exists L, I, s, s'.
    split; [exact Hloc|]. split; [apply Hch|]. split; [apply Hch|].
    split; [exact Hst|].
    pose proof (stored_nil_iff s' Hsi') as Hnil.
    split; [tauto|]. split.
    { destruct Hsi' as [[HE|HP] _]; split; intros HA.
      - rewrite HE in HA. discriminate HA.
      - exfalso. apply HA, Hnil, HE.
      - rewrite (stored_POPULATED s' HP). discriminate.
      - exact HP. }
    split.
    + intros kv Hone Hk. rewrite Hone in Hr, Hst.
      unfold delete_pairs in Hst. cbn [find_if last] in Hr, Hst.
      rewrite Hk in Hr, Hst. cbn in Hst. split; [exact Hr|]. apply Hnil, Hst.
    + intros i kv x Hf Hx Hlen. rewrite Hf in Hr.
      unfold delete_pairs in Hst. rewrite Hf, Hx in Hst.
      split; [exact Hr|]. split; [|exact Hst].
      destruct Hsi' as [[HE|HP] _]; [|exact HP]. exfalso.
      apply Hnil in HE. rewrite HE in Hst.
      apply (f_equal length) in Hst. cbn in Hst.
      destruct (stored' s) as [|a [|b ps]]; cbn in Hlen; try lia.
      destruct i as [|[|i]]; cbn in Hst; discriminate.
  - intros Key. destruct (Read_spec Key m Hwf Hinv) as (L & I & s & _ & _ & ->).
    destruct (find_if _ _) as [[i kv]|]; eauto.
  - intros self Key Val Hq Hlt. apply Write_returns; assumption.
  - intros self Key Hq. apply Delete_returns; assumption.
Qed.

(** *** A key that the addressed slot does not hold *)

(** When the slot a key addresses holds no pair with an equal key,
    [Delete] returns [false] and leaves the map as it was, and [Read]
    throws. *)
Lemma Delete_absent self (Key : K) m L I s :
  well_formed' m -> slots_inv' m ->
  locate' Key m = Returned (L, I) m ->
  slot_at m L I = Some s ->
  find_if (key_is Pred Key) (stored' s) = None ->
  Delete' self Key m = Returned false m /\
  Read' Key m = Thrown out_of_range m.
Proof.
  intros Hwf Hinv Hloc Hs Hnone. split.
  - assert (Hsi : slot_inv' s) by (eapply Hinv, Hs).
    destruct (WriteWrapper_ctor_returns L I m s Hs Hsi) as (m1 & Hctor & Hs1 & Hmg1).
    assert (Hm1 : m1 = set_Slots (alter (<[Z.to_nat I :=
                     set_Lock (Z.lor (Lock s) WRITER_BIT_MASK) s]>) (Z.to_nat L)) m).
    { unfold WriteWrapper_ctor in Hctor.
      rewrite (bind_step _ _ _ _ _ (slot_load_run _ _ _ _ Hs)) in Hctor.
      rewrite (write_lock_free s Hsi) in Hctor. cbn [acquired] in Hctor.
      rewrite bind_ret in Hctor. cbv beta iota in Hctor.
      rewrite (bind_step _ _ _ _ _ (slot_update_run _ _ _ _ _ Hs)) in Hctor.
      injection Hctor as <-. reflexivity. }
    assert (Hdtor : WriteWrapper_dtor L I (Lock s) m1 = Returned tt m).
    { unfold WriteWrapper_dtor, write_unlock.
      rewrite (slot_update_run _ _ _ _ _ Hs1).
      rewrite set_Lock_set_Lock, set_Lock_id, Hm1, set_Slots_insert_insert.
      f_equal. apply layer_slot_insert_same. exact Hs. }
    unfold Delete. rewrite (bind_step _ _ _ _ _ Hloc). cbv beta iota.
    rewrite (bind_step _ _ _ _ _ Hctor).
    rewrite (bind_step _ _ _ _ _ (slot_load_run _ _ _ _ Hs1)).
    cbn [Main Collisions set_Lock].
    destruct Hsi as [[HE|HP] Hcol].
    + rewrite HE in *. change (EMPTY =? EMPTY) with true. cbv iota.
      rewrite bind_ret. cbv beta iota. rewrite bind_ret.
      rewrite (bind_step _ _ _ _ _ Hdtor). reflexivity.
    + rewrite (stored_POPULATED s HP) in Hnone. cbn [find_if] in Hnone.
      unfold key_is at 1 in Hnone. cbn [fst] in Hnone.
      destruct (Pred (fst (Main s)) Key); [discriminate|].
      destruct (find_if (key_is Pred Key) (Collisions s)) as [[i kv]|]; [discriminate|].
      rewrite HP in *. change (POPULATED =? EMPTY) with false. cbv iota.
      rewrite bind_ret. cbv beta iota. rewrite bind_ret.
      rewrite (bind_step _ _ _ _ _ Hdtor). reflexivity.
  - destruct (Read_spec Key m Hwf Hinv) as (L' & I' & s' & Hloc' & Hs' & ->).
    rewrite Hloc in Hloc'. injection Hloc' as <- <-.
    rewrite Hs in Hs'. injection Hs' as <-. rewrite Hnone. reflexivity.
Qed.

(** ** The global value and the counters *)

#[local] Abbreviation GlobalValue' := (GlobalValue tg).
#[local] Abbreviation total_pairs' := (@total_pairs K T).
#[local] Abbreviation stored_count' := (@stored_count K T).
#[local] Abbreviation upper_layers_empty' := (@upper_layers_empty K T).

Lemma to_uInt_to_sInt z : to_uInt tg (to_sInt tg z) = to_uInt tg z.
Proof.
  unfold to_uInt, to_sInt. rewrite Zminus_mod_idemp_l. f_equal. lia.
Qed.

Lemma to_uInt_add_l x y : to_uInt tg (to_uInt tg x + y) = to_uInt tg (x + y).
Proof. unfold to_uInt. apply Zplus_mod_idemp_l. Qed.

Lemma to_uInt_add_r x y : to_uInt tg (x + to_uInt tg y) = to_uInt tg (x + y).
Proof. unfold to_uInt. apply Zplus_mod_idemp_r. Qed.

Lemma to_uInt_sInt_add_l x y : to_uInt tg (to_sInt tg x + y) = to_uInt tg (x + y).
Proof. rewrite <- to_uInt_add_l, to_uInt_to_sInt. apply to_uInt_add_l. Qed.

Lemma to_uInt_sInt_add_r x y : to_uInt tg (x + to_sInt tg y) = to_uInt tg (x + y).
Proof. rewrite <- to_uInt_add_r, to_uInt_to_sInt. apply to_uInt_add_r. Qed.

Lemma sum_with_cons {A} (f : A -> Z) (a : A) (l : list A) :
  sum_with f (a :: l) = f a + sum_with f l.
Proof. reflexivity. Qed.

Lemma sum_with_app {A} (f : A -> Z) (l1 l2 : list A) :
  sum_with f (l1 ++ l2) = sum_with f l1 + sum_with f l2.
Proof.
  induction l1 as [|a l1 IH]; [reflexivity|].
  change ((a :: l1) ++ l2) with (a :: (l1 ++ l2)).
  rewrite !sum_with_cons, IH. lia.
Qed.

Lemma sum_with_insert {A} (f : A -> Z) (l : list A) (i : nat) (x y : A) :
  l !! i = Some x -> sum_with f (<[i := y]> l) = sum_with f l - f x + f y.
Proof.
  revert i. induction l as [|a l IH]; intros [|i] H; try discriminate.
  - injection H as ->. change (<[0%nat := y]> (x :: l)) with (y :: l).
    rewrite !sum_with_cons. lia.
  - change (<[S i := y]> (a :: l)) with (a :: <[i := y]> l).
    rewrite !sum_with_cons, (IH i H). lia.
Qed.

Lemma sum_with_alter {A} (f : A -> Z) (g : A -> A) (l : list A) (i : nat) (x : A) :
  l !! i = Some x -> sum_with f (alter g i l) = sum_with f l - f x + f (g x).
Proof.
  revert i. induction l as [|a l IH]; intros [|i] H; try discriminate.
  - injection H as ->. change (alter g 0%nat (x :: l)) with (g x :: l).
    rewrite !sum_with_cons. lia.
  - change (alter g (S i) (a :: l)) with (a :: alter g i l).
    rewrite !sum_with_cons, (IH i H). lia.
Qed.

Lemma sum_with_zero {A} (f : A -> Z) (l : list A) :
  (forall a, a ∈ l -> f a = 0) -> sum_with f l = 0.
Proof.
  induction l as [|a l IH]; intros H; [reflexivity|].
  rewrite sum_with_cons, (H a) by left. rewrite IH; [reflexivity|].
  intros x Hx. apply H. right. exact Hx.
Qed.

Lemma sum_with_fmap {A B} (f : B -> Z) (g : A -> B) (l : list A) :
  sum_with f (g <$> l) = sum_with (fun a => f (g a)) l.
Proof.
  induction l as [|a l IH]; [reflexivity|].
  change (g <$> a :: l) with (g a :: (g <$> l)).
  rewrite !sum_with_cons, IH. reflexivity.
Qed.

Lemma sum_with_removelast {A} (f : A -> Z) (l : list A) (x : A) :
  last l = Some x -> sum_with f (removelast l) = sum_with f l - f x.
Proof.
  intros H. destruct (last_Some l x) as [[l' ->] _]; [exact H|].
  rewrite removelast_last, sum_with_app, sum_with_cons.
  change (sum_with f []) with 0. lia.
Qed.

Lemma ThreadValuesSum_fold (l : list ThreadValue) (acc d : Z) :
  to_uInt tg (fold_left (fun acc ThrValue => to_sInt tg (acc + Value ThrValue)) l acc + d)
  = to_uInt tg (acc + sum_with Value l + d).
Proof.
  revert acc. induction l as [|v l IH]; intros acc.
  - cbn [fold_left]. change (sum_with Value []) with 0. f_equal. lia.
  - cbn [fold_left]. rewrite IH, sum_with_cons.
    replace (to_sInt tg (acc + Value v) + sum_with Value l + d)
      with (to_sInt tg (acc + Value v) + (sum_with Value l + d)) by lia.
    rewrite to_uInt_sInt_add_l. f_equal. lia.
Qed.

Lemma GlobalValue_sum (g : ThreadManager) :
  GlobalValue' g
  = to_uInt tg (sum_with id (Value <$> ThreadValues g) + DTOR_ThreadValuesSum g).
Proof.
  unfold GlobalValue, ThreadValuesSum. rewrite ThreadValuesSum_fold.
  rewrite sum_with_fmap. f_equal.
Qed.

Lemma GlobalValue_same_values g g' : same_values g g' -> GlobalValue' g' = GlobalValue' g.
Proof. intros (Hd & Hv & _). rewrite !GlobalValue_sum, Hd, Hv. reflexivity. Qed.

Lemma same_values_refl g : same_values g g.
Proof. repeat split. Qed.

Lemma same_values_trans g1 g2 g3 :
  same_values g1 g2 -> same_values g2 g3 -> same_values g1 g3.
Proof. intros (?&?&?&?) (?&?&?&?). repeat split; congruence. Qed.

#[local] Abbreviation counted_step' := (counted_step tg).
#[local] Abbreviation holds_key' := (holds_key Pred).

Lemma GlobalValue_sum_Value (g : ThreadManager) :
  GlobalValue' g
  = to_uInt tg (sum_with Value (ThreadValues g) + DTOR_ThreadValuesSum g).
Proof. unfold GlobalValue, ThreadValuesSum. rewrite ThreadValuesSum_fold. f_equal. Qed.

Lemma to_uInt_idemp z : to_uInt tg (to_uInt tg z) = to_uInt tg z.
Proof. unfold to_uInt. apply Zmod_mod. Qed.

Lemma GlobalValue_idemp g : to_uInt tg (GlobalValue' g) = GlobalValue' g.
Proof. unfold GlobalValue. apply to_uInt_idemp. Qed.

Lemma counted_step_same_values g g' : same_values g g' -> counted_step' 0 g g'.
Proof.
  intros Hs. pose proof (GlobalValue_same_values _ _ Hs) as Hg.
  destruct Hs as (_ & Hl & Hm & Hv). split; [exact Hm|]. split; [exact Hv|].
  split; [rewrite Hg, Z.add_0_r, GlobalValue_idemp; reflexivity|].
  apply (f_equal length) in Hl. rewrite !length_fmap in Hl. exact Hl.
Qed.

Lemma counted_step_trans d1 d2 g1 g2 g3 :
  counted_step' d1 g1 g2 -> counted_step' d2 g2 g3 -> counted_step' (d1 + d2) g1 g3.
Proof.
  intros (Hm & Hv & Hg & Hl) (Hm' & Hv' & Hg' & Hl').
  split; [congruence|]. split; [congruence|]. split; [|congruence].
  rewrite Hg', Hg, to_uInt_add_l. f_equal. lia.
Qed.

Lemma counted_step_eq d g g1 g2 : g2 = g1 -> counted_step' d g g1 -> counted_step' d g g2.
Proof. intros ->. auto. Qed.

Lemma AllocateLayer_Manager m u m' :
  AllocateLayer' m = Returned u m' -> Manager m' = Manager m.
Proof.
  intros H. apply AllocateLayer_Returned in H as (? & ? & ? & _ & _ & _ & ->).
  reflexivity.
Qed.

Lemma RESIZE_FUNC_Manager G m p m' :
  RESIZE_FUNC' G m = Returned p m' -> Manager m' = Manager m.
Proof.
  intros H.
  apply RESIZE_FUNC_Returned in H as [_ [[-> _]|[(? & ? & ? & _ & _ & _ & ->) _]]];
    reflexivity.
Qed.

Lemma Value_map_Adjust adj (l : list ThreadValue) :
  Value <$> map (AdjustThreadThreshold tg adj) l = Value <$> l.
Proof. induction l as [|v l IH]; [reflexivity|]. cbn. f_equal. exact IH. Qed.

Lemma Update_values m u m' :
  Update' m = Returned u m' -> same_values (Manager m) (Manager m').
Proof.
  unfold _UpdateManagerInternal. intros H. inv_ret H.
  match goal with
  | Hr : RESIZE_FUNC' _ _ = Returned _ _ |- _ => apply RESIZE_FUNC_Manager in Hr
  end.
  match goal with
  | Hk : (if ?c then _ else _) _ = Returned _ _ |- _ =>
      destruct c; [discriminate Hk|]; inv_ret Hk
  end.
  cbn [Manager set_Manager].
  match goal with Hr : Manager _ = Manager _ |- _ => rewrite Hr end.
  repeat split. cbn [ThreadValues set_ThreadValues]. apply Value_map_Adjust.
Qed.

Lemma UpdateManager_values m u m' :
  UpdateManager' m = Returned u m' -> same_values (Manager m) (Manager m').
Proof.
  unfold UpdateManager, ManagerLock_unlock. intros H. inv_ret H.
  match goal with
  | Hk : context [AtomicLock_try_lock ?x] |- _ =>
      destruct x eqn:E; cbn [AtomicLock_try_lock negb] in Hk
  end.
  - discriminate.
  - inv_ret Hk.
    match goal with
    | Hu : Update' _ = Returned _ _ |- _ =>
        apply Update_values in Hu; destruct Hu as (Hd & Hv & Hm & Hl)
    end.
    cbn in *. unfold same_values, AtomicLock_unlock. cbn.
    split; [exact Hd|]. split; [exact Hv|]. split; [symmetry; exact E|exact Hl].
Qed.

Lemma INCREMENT_fst X : fst (INCREMENT tg X) = to_sInt tg (X + 1).
Proof. unfold INCREMENT. destruct (plat tg); reflexivity. Qed.

Lemma DECREMENT_fst X : fst (DECREMENT tg X) = to_sInt tg (X - 1).
Proof. unfold DECREMENT. destruct (plat tg); reflexivity. Qed.

Lemma GlobalValue_store (g : ThreadManager) (self : nat) (v : ThreadValue) (d : Z) :
  ThreadValues g !! self = Some v ->
  GlobalValue'
    (set_ThreadValues
       (alter (fun v => {| Value := to_sInt tg (Value v + d); Threshold := Threshold v |})
              self) g)
  = to_uInt tg (GlobalValue' g + d).
Proof.
  intros Hv. rewrite !GlobalValue_sum_Value. cbn [ThreadValues set_ThreadValues
    DTOR_ThreadValuesSum].
  rewrite (sum_with_alter _ _ _ _ _ Hv). cbn [Value].
  rewrite to_uInt_add_l.
  replace (sum_with Value (ThreadValues g) - Value v + to_sInt tg (Value v + d)
           + DTOR_ThreadValuesSum g)
    with (sum_with Value (ThreadValues g) - Value v + DTOR_ThreadValuesSum g
          + to_sInt tg (Value v + d)) by lia.
  rewrite to_uInt_sInt_add_r. f_equal. lia.
Qed.

Lemma counter_load_Returned self m v m' :
  @counter_load K T self m = Returned v m' ->
  ThreadValues (Manager m) !! self = Some v /\ m' = m.
Proof.
  unfold counter_load. rewrite bind_get. intros H.
  apply checked_Returned in H. exact H.
Qed.

Lemma store_Value_const (self : nat) (v : ThreadValue) (x : Z) (l : list ThreadValue) :
  l !! self = Some v ->
  alter (fun v0 => {| Value := to_sInt tg (Value v + x); Threshold := Threshold v0 |}) self l
  = alter (fun v0 => {| Value := to_sInt tg (Value v0 + x); Threshold := Threshold v0 |})
          self l.
Proof.
  intros Hv. apply list_eq. intros j. destruct (decide (self = j)) as [<-|Hj].
  - rewrite !list_lookup_alter_eq, Hv. reflexivity.
  - rewrite !list_lookup_alter_ne by exact Hj. reflexivity.
Qed.

Lemma counter_store_counted (self : nat) (v : ThreadValue) (d : Z) m :
  ThreadValues (Manager m) !! self = Some v ->
  counted_step' d (Manager m)
    (Manager (set_Manager (set_ThreadValues
       (alter (fun v0 => {| Value := to_sInt tg (Value v + d);
                            Threshold := Threshold v0 |}) self)) m)).
Proof.
  intros Hv. split; [reflexivity|]. split; [reflexivity|].
  cbn [Manager set_Manager]. split; [|cbn; apply length_alter].
  rewrite <- (GlobalValue_store (Manager m) self v d Hv).
  unfold set_ThreadValues. rewrite (store_Value_const self v d _ Hv). reflexivity.
Qed.

(** [Increment] moves the global value by one, [Decrement] by minus
    one, whatever the thresholds. *)
Lemma Increment_counted self m u m' :
  Increment' self m = Returned u m' ->
  counted_step' 1 (Manager m) (Manager m') /\ ValueUniqueLock (Manager m') = false.
Proof.
  unfold Increment. intros H.
  apply bind_Returned in H as (v & m0 & Hload & H).
  apply counter_load_Returned in Hload as [Hv ->].
  pose proof (INCREMENT_fst (Value v)) as HX.
  destruct (INCREMENT tg (Value v)) as [X' r]. cbn [fst] in HX. subst X'.
  unfold counter_store_Value in H. rewrite bind_modify in H.
  apply bind_Returned in H as (u1 & m1 & Hup & Hw).
  apply WaitForGlobalValue_Returned in Hw as [-> Hq].
  split; [|exact Hq].
  pose proof (counter_store_counted self v 1 m Hv) as Hst.
  destruct (Threshold v <=? r).
  - apply UpdateManager_values in Hup.
    replace 1 with (1 + 0) by lia.
    eapply counted_step_trans; [exact Hst|].
    apply counted_step_same_values. exact Hup.
  - unfold ret in Hup. injection Hup as _ <-. exact Hst.
Qed.

Lemma Decrement_counted self m u m' :
  Decrement' self m = Returned u m' -> counted_step' (-1) (Manager m) (Manager m').
Proof.
  unfold Decrement. intros H.
  apply bind_Returned in H as (v & m0 & Hload & H).
  apply counter_load_Returned in Hload as [Hv ->].
  pose proof (DECREMENT_fst (Value v)) as HX.
  destruct (DECREMENT tg (Value v)) as [X' r]. cbn [fst] in HX. subst X'.
  unfold counter_store_Value in H. rewrite bind_modify in H.
  apply WaitForGlobalValue_Returned in H as [-> Hq].
  replace (Value v - 1) with (Value v + -1) by lia.
  apply (counter_store_counted self v (-1) m Hv).
Qed.

(** ** The pairs of the table *)

Lemma slot_changed_Slots L I m m' s s' :
  slot_changed' L I m m' s s' ->
  Slots m' = alter (<[Z.to_nat I := s']>) (Z.to_nat L) (Slots m).
Proof.
  intros (Ha & Hb & Hc & Hs & _).
  unfold slot_at, layer_slot in Ha, Hb.
  destruct (Slots m !! Z.to_nat L) as [v|] eqn:Ev; [|discriminate]. cbn in Ha.
  destruct (Slots m' !! Z.to_nat L) as [v'|] eqn:Ev'; [|discriminate]. cbn in Hb.
  assert (Hshape : forall l, length <$> (Slots m' !! l) = length <$> (Slots m !! l)).
  { intros l. rewrite <- !list_lookup_fmap, Hs. reflexivity. }
  assert (Hrow : forall l w w', l <> Z.to_nat L ->
            Slots m !! l = Some w -> Slots m' !! l = Some w' -> w' = w).
  { intros l w w' Hl Hw Hw'. apply list_eq. intros i.
    specialize (Hc l i). unfold layer_slot in Hc. rewrite Hw, Hw' in Hc.
    apply Hc. intros E. apply Hl. congruence. }
  apply list_eq. intros l.
  destruct (decide (Z.to_nat L = l)) as [<-|Hl].
  - rewrite list_lookup_alter_eq, Ev, Ev'. cbn. f_equal.
    apply list_eq. intros i. destruct (decide (Z.to_nat I = i)) as [<-|Hi].
    + rewrite list_lookup_insert_eq by (eapply lookup_lt_Some; exact Ha). exact Hb.
    + rewrite list_lookup_insert_ne by exact Hi.
      specialize (Hc (Z.to_nat L) i). unfold layer_slot in Hc. rewrite Ev, Ev' in Hc.
      apply Hc. intros E. apply Hi. congruence.
  - rewrite list_lookup_alter_ne by exact Hl.
    specialize (Hshape l).
    destruct (Slots m !! l) as [w|] eqn:Ew, (Slots m' !! l) as [w'|] eqn:Ew';
      try discriminate Hshape; [|reflexivity].
    f_equal. eapply Hrow; eauto.
Qed.

Lemma total_pairs_changed L I m m' s s' :
  slot_changed' L I m m' s s' ->
  total_pairs' m' = total_pairs' m - stored_count' s + stored_count' s'.
Proof.
  intros Hch. pose proof (slot_changed_Slots _ _ _ _ _ _ Hch) as HS.
  destruct Hch as (Ha & _). unfold slot_at, layer_slot in Ha.
  destruct (Slots m !! Z.to_nat L) as [v|] eqn:Ev; [|discriminate]. cbn in Ha.
  unfold total_pairs.
  rewrite HS, (sum_with_alter _ _ _ _ _ Ev), (sum_with_insert _ _ _ _ _ Ha). lia.
Qed.

Lemma upper_layers_empty_changed L I m m' s s' :
  slot_changed' L I m m' s s' -> upper_layers_empty' m -> upper_layers_empty' m'.
Proof.
  intros Hch Hup i v' Hi Hv'.
  pose proof (slot_changed_Slots _ _ _ _ _ _ Hch) as HS.
  destruct Hch as (Ha & _ & _ & _ & Hl). rewrite Hl in Hi.
  unfold slot_at, layer_slot in Ha.
  destruct (Slots m !! Z.to_nat L) as [v|] eqn:Ev; [|discriminate]. cbn in Ha.
  rewrite HS in Hv'. destruct (decide (Z.to_nat L = i)) as [<-|Hne].
  - rewrite (Hup _ _ Hi Ev) in Ha. discriminate Ha.
  - rewrite list_lookup_alter_ne in Hv' by exact Hne. eapply Hup; eassumption.
Qed.

Lemma stored_count_Slot_new : stored_count' Slot_new' = 0.
Proof. reflexivity. Qed.

Lemma sum_with_resize_nil (Size : Z) :
  sum_with stored_count' (resize_layer K_new T_new Size []) = 0.
Proof.
  apply sum_with_zero. intros a Ha. unfold resize_layer in Ha.
  rewrite take_nil in Ha. cbn [app] in Ha.
  apply elem_of_replicate in Ha as [-> _]. reflexivity.
Qed.

Lemma allocated_total m m' :
  well_formed' m -> upper_layers_empty' m -> allocated' m m' ->
  total_pairs' m' = total_pairs' m /\ upper_layers_empty' m'.
Proof.
  intros (_ & Hlast & _) Hup (po & pn & v & H1 & H2 & Hv & ->). cbn zeta in *.
  assert (Hb : MaxLayerCount tg < 2 ^ bits tg - 1) by (destruct tg as [[] pl]; reflexivity).
  assert (Hl' : to_uInt tg (LayerLastIdx m + 1) = LayerLastIdx m + 1)
    by (apply to_uInt_small; lia).
  rewrite Hl' in *.
  assert (v = []) as -> by (eapply Hup; [|exact Hv]; lia).
  split.
  - unfold total_pairs. cbn [Slots].
    rewrite (sum_with_alter _ _ _ _ _ Hv), sum_with_resize_nil.
    change (sum_with stored_count' []) with 0. lia.
  - intros i w Hi Hw. cbn [Slots LayerLastIdx] in *.
    rewrite list_lookup_alter_ne in Hw by lia. eapply Hup; [|exact Hw]. lia.
Qed.

Lemma same_table_total m m' :
  same_table m m' -> upper_layers_empty' m ->
  total_pairs' m' = total_pairs' m /\ upper_layers_empty' m'.
Proof.
  intros [HS Hl] Hup. unfold total_pairs, upper_layers_empty. rewrite HS, Hl. auto.
Qed.

Lemma grown_total m m' :
  well_formed' m -> upper_layers_empty' m -> grown' m m' ->
  total_pairs' m' = total_pairs' m /\ upper_layers_empty' m'.
Proof.
  intros Hwf Hup [Hs|(m1 & m2 & HS & Hl & Ha & Hs)].
  - apply same_table_total; assumption.
  - assert (Hst : same_table m m1) by (split; assumption).
    destruct (same_table_total _ _ Hst Hup) as [Ht1 Hup1].
    destruct (allocated_total m1 m2 (well_formed_same_table _ _ Hst Hwf) Hup1 Ha)
      as [Ht2 Hup2].
    destruct (same_table_total _ _ Hs Hup2) as [Ht3 Hup3].
    split; [congruence|exact Hup3].
Qed.

Lemma length_removelast_Z {A} (l : list A) (x : A) :
  last l = Some x -> Z.of_nat (length (removelast l)) = Z.of_nat (length l) - 1.
Proof.
  intros H. destruct (last_Some l x) as [[l' ->] _]; [exact H|].
  rewrite removelast_last, length_app. cbn. lia.
Qed.

Lemma length_write_pairs (Key : K) (Val : T) (ps : list (@Pair K T)) :
  Z.of_nat (length (write_pairs Pred Key Val ps))
  = Z.of_nat (length ps) + b2z (negb (holds_key' Key ps)).
Proof.
  unfold write_pairs, holds_key. destruct (find_if (key_is Pred Key) ps) as [[i kv]|].
  - rewrite length_insert. cbn. lia.
  - rewrite length_app. cbn. lia.
Qed.

Lemma last_insert_last {A} (l : list A) (i : nat) (x : A) :
  last l = Some x -> last (<[i := x]> l) = Some x.
Proof.
  intros H. destruct (last_Some l x) as [[l' ->] _]; [exact H|].
  destruct (decide (i < length l')%nat) as [Hi|Hi].
  - rewrite insert_app_l by exact Hi. apply last_snoc.
  - destruct (decide (i = length l')) as [->|Hne].
    + replace (length l') with (length l' + 0)%nat by lia.
      rewrite insert_app_r. cbn. apply last_snoc.
    + rewrite list_insert_ge; [apply last_snoc|]. rewrite length_app. cbn. lia.
Qed.

Lemma length_delete_pairs (Key : K) (ps : list (@Pair K T)) :
  Z.of_nat (length (delete_pairs Pred Key ps))
  = Z.of_nat (length ps) - b2z (holds_key' Key ps).
Proof.
  unfold delete_pairs, holds_key.
  destruct (find_if (key_is Pred Key) ps) as [[i kv]|] eqn:EF;
    destruct (last ps) as [x|] eqn:EL; cbv beta iota; unfold b2z;
    try (rewrite Z.sub_0_r; reflexivity).
  - rewrite (length_removelast_Z _ x) by (apply last_insert_last; exact EL).
    rewrite length_insert. reflexivity.
  - apply last_None in EL. subst ps. discriminate EF.
Qed.

(** *** The counter along [Write] and [Delete] *)

Lemma counted_step_refl g : counted_step' 0 g g.
Proof. apply counted_step_same_values, same_values_refl. Qed.

Lemma holds_key_Main (Key : K) s :
  Pred (fst (Main s)) Key = true -> holds_key' Key (Main s :: Collisions s) = true.
Proof. intros H. unfold holds_key. cbn [find_if]. unfold key_is at 1. rewrite H. reflexivity. Qed.

Lemma holds_key_Collisions (Key : K) s :
  Pred (fst (Main s)) Key = false ->
  holds_key' Key (Main s :: Collisions s) = holds_key' Key (Collisions s).
Proof.
  intros H. unfold holds_key. cbn [find_if]. unfold key_is at 1. rewrite H.
  destruct (find_if (key_is Pred Key) (Collisions s)) as [[i kv]|]; reflexivity.
Qed.

Lemma Write_body_counted self (Key : K) (Val : T) L I m1 u m3 s0 :
  slot_inv' s0 ->
  (if Lock s0 =? EMPTY then
     (slot_update L I (set_Main (Key, Val));; Increment' self)%M
   else if Pred (fst (Main s0)) Key then
     slot_update L I (set_Main (fst (Main s0), Val))
   else
     match find_if (key_is Pred Key) (Collisions s0) with
     | None =>
         (slot_update L I (set_Collisions (Collisions s0 ++ [(Key, Val)]));;
          Increment' self)%M
     | Some (i, kv) =>
         slot_update L I (set_Collisions (<[i := (fst kv, Val)]> (Collisions s0)))
     end) m1 = Returned u m3 ->
  counted_step' (b2z (negb (holds_key' Key (stored' s0)))) (Manager m1) (Manager m3).
Proof.
  intros [[HE|HP] Hcol] H.
  - rewrite HE in H. change (EMPTY =? EMPTY) with true in H. cbv iota in H.
    rewrite (stored_EMPTY s0 HE).
    apply bind_Returned in H as (u1 & m2 & Hupd & Hinc).
    apply slot_update_changed in Hupd as (s1 & _ & Hmg).
    apply Increment_counted in Hinc as [Hinc _]. rewrite <- Hmg. exact Hinc.
  - rewrite HP in H. change (POPULATED =? EMPTY) with false in H. cbv iota in H.
    rewrite (stored_POPULATED s0 HP).
    destruct (Pred (fst (Main s0)) Key) eqn:EP.
    + rewrite (holds_key_Main Key s0 EP).
      apply slot_update_changed in H as (s1 & _ & Hmg). rewrite Hmg.
      apply counted_step_refl.
    + rewrite (holds_key_Collisions Key s0 EP). unfold holds_key.
      destruct (find_if (key_is Pred Key) (Collisions s0)) as [[i kv]|] eqn:EF.
      * apply slot_update_changed in H as (s1 & _ & Hmg). rewrite Hmg.
        apply counted_step_refl.
      * apply bind_Returned in H as (u1 & m2 & Hupd & Hinc).
        apply slot_update_changed in Hupd as (s1 & _ & Hmg).
        apply Increment_counted in Hinc as [Hinc _]. rewrite <- Hmg. exact Hinc.
Qed.

Lemma Write_counted self (Key : K) (Val : T) m u m' :
  well_formed' m -> slots_inv' m -> upper_layers_empty' m ->
  Write' self Key Val m = Returned u m' ->
  exists L I s,
    locate' Key m = Returned (L, I) m /\
    slot_at m L I = Some s /\
    counted_step' (b2z (negb (holds_key' Key (stored' s)))) (Manager m) (Manager m') /\
    total_pairs' m' = total_pairs' m + b2z (negb (holds_key' Key (stored' s))) /\
    upper_layers_empty' m'.
Proof.
  intros Hwf Hinv Hup H. unfold Write in H.
  apply bind_Returned in H as ([L I] & m0 & Hloc & H).
  pose proof (locate_Returned _ _ _ _ Hloc) as ->.
  destruct (locate_run m Key Hwf) as (L0 & I0 & sx & Hloc0 & HL & HI & _).
  rewrite Hloc in Hloc0. injection Hloc0 as <- <-.
  apply bind_Returned in H as (status & m1 & Hctor & H).
  apply (WriteWrapper_ctor_Returned _ _ _ _ _ Hinv) in Hctor
    as (s0 & Hs0 & -> & Hmg1 & Hch1).
  apply bind_Returned in H as (s1 & m1' & Hload & H).
  apply slot_load_Returned in Hload as [Hs1 ->].
  pose proof (slot_changed_mid _ _ _ _ _ _ _ Hch1 Hs1) as ->.
  cbn [Main Collisions set_Lock] in H.
  apply bind_Returned in H as (u3 & m3 & Hbody & Hdtor).
  pose proof (Write_body_counted _ _ _ _ _ _ _ _ _ Hs0 Hbody) as Hcnt.
  apply (Write_body_Returned _ _ _ _ _ _ _ _ _ Hs0 Hs1) in Hbody
    as (m2 & s2 & Hch2 & Hg & Hst).
  apply WriteWrapper_dtor_Returned in Hdtor as (s3 & Hch3 & Hmg3).
  pose proof (slot_changed_trans _ _ _ _ _ _ _ _ _ Hch1 Hch2) as Hch12.
  pose proof (slot_changed_wf _ _ _ _ _ _ Hch12 Hwf) as Hwf2.
  assert (Hlast2 : 0 <= LayerLastIdx m2 < MaxLayerCount tg) by apply Hwf2.
  assert (Hl2 : LayerLastIdx m2 = LayerLastIdx m) by apply Hch12.
  assert (Hs3 : s3 = s2).
  { destruct Hch3 as (Ha & _). destruct Hch12 as (_ & Hb & _).
    rewrite (grown_slot_below m2 m3 L I Hlast2 Hg) in Ha by lia. congruence. }
  subst s3.
  pose proof (total_pairs_changed _ _ _ _ _ _ Hch12) as Ht2.
  pose proof (upper_layers_empty_changed _ _ _ _ _ _ Hch12 Hup) as Hup2.
  destruct (grown_total m2 m3 Hwf2 Hup2 Hg) as [Ht3 Hup3].
  pose proof (total_pairs_changed _ _ _ _ _ _ Hch3) as Ht4.
  pose proof (upper_layers_empty_changed _ _ _ _ _ _ Hch3 Hup3) as Hup4.
  exists L, I, s0.
  split; [exact Hloc|]. split; [apply Hch1|].
  split; [rewrite Hmg3, <- Hmg1; exact Hcnt|]. split; [|exact Hup4].
  rewrite Ht4, Ht3, Ht2. unfold write_unlock, stored_count.
  rewrite Hst, length_write_pairs. lia.
Qed.

Lemma SWAP_AND_POP_Main_Manager L I m u m' :
  @SWAP_AND_POP_Main K T L I m = Returned u m' -> Manager m' = Manager m.
Proof.
  unfold SWAP_AND_POP_Main. intros H.
  apply bind_Returned in H as (s & m0 & Hload & H).
  apply slot_load_Returned in Hload as [_ ->].
  apply bind_Returned in H as (x & m0 & Hx & H).
  apply checked_Returned in Hx as [_ ->].
  apply slot_update_changed in H as (? & _ & Hmg). exact Hmg.
Qed.

Lemma SWAP_AND_POP_at_Manager L I i m u m' :
  @SWAP_AND_POP_at K T L I i m = Returned u m' -> Manager m' = Manager m.
Proof.
  unfold SWAP_AND_POP_at. intros H.
  apply bind_Returned in H as (s & m0 & Hload & H).
  apply slot_load_Returned in Hload as [_ ->].
  apply bind_Returned in H as (x & m0 & Hx & H).
  apply checked_Returned in Hx as [_ ->].
  apply slot_update_changed in H as (? & _ & Hmg). exact Hmg.
Qed.

Lemma ret_Returned {A} (a b : A) m m' : @ret St A a m = Returned b m' -> b = a /\ m' = m.
Proof. unfold ret. intros H. injection H as -> ->. auto. Qed.

Lemma Delete_Manager self (Key : K) m r m' :
  slots_inv' m ->
  Delete' self Key m = Returned r m' ->
  counted_step' (- b2z r) (Manager m) (Manager m').
Proof.
  intros Hinv H. unfold Delete in H.
  apply bind_Returned in H as ([L I] & m0 & Hloc & H).
  pose proof (locate_Returned _ _ _ _ Hloc) as ->.
  apply bind_Returned in H as (status & m1 & Hctor & H).
  apply (WriteWrapper_ctor_Returned _ _ _ _ _ Hinv) in Hctor
    as (s0 & Hs0 & -> & Hmg1 & Hch1).
  apply bind_Returned in H as (s1 & m1' & Hload & H).
  apply slot_load_Returned in Hload as [Hs1 ->].
  apply bind_Returned in H as ([d st'] & m2 & Hbranch & H).
  apply bind_Returned in H as (u & m3 & Hdec & H).
  apply bind_Returned in H as (u' & m4 & Hdtor & H).
  apply ret_Returned in H as [-> ->].
  apply WriteWrapper_dtor_Returned in Hdtor as (s3 & _ & Hmg3).
  assert (Hmg2 : Manager m2 = Manager m1).
  { destruct (Lock s0 =? EMPTY); [apply ret_Returned in Hbranch as [_ ->]; reflexivity|].
    destruct (Pred (fst (Main s1)) Key).
    - destruct (Collisions s1).
      + apply ret_Returned in Hbranch as [_ ->]. reflexivity.
      + apply bind_Returned in Hbranch as (u2 & m2' & Hswap & Hret).
        apply ret_Returned in Hret as [_ ->].
        eapply SWAP_AND_POP_Main_Manager, Hswap.
    - destruct (find_if (key_is Pred Key) (Collisions s1)) as [[i y]|].
      + apply bind_Returned in Hbranch as (u2 & m2' & Hswap & Hret).
        apply ret_Returned in Hret as [_ ->].
        eapply SWAP_AND_POP_at_Manager, Hswap.
      + apply ret_Returned in Hbranch as [_ ->]. reflexivity. }
  rewrite Hmg3. rewrite <- Hmg1, <- Hmg2.
  destruct d; cbn [b2z].
  - eapply Decrement_counted, Hdec.
  - apply ret_Returned in Hdec as [_ ->]. apply counted_step_refl.
Qed.

Lemma Delete_counted self (Key : K) m r m' :
  slots_inv' m -> upper_layers_empty' m ->
  Delete' self Key m = Returned r m' ->
  exists L I s,
    locate' Key m = Returned (L, I) m /\
    slot_at m L I = Some s /\
    r = holds_key' Key (stored' s) /\
    counted_step' (- b2z r) (Manager m) (Manager m') /\
    total_pairs' m' = total_pairs' m - b2z r /\
    upper_layers_empty' m'.
Proof.
  intros Hinv Hup H.
  pose proof (Delete_Manager _ _ _ _ _ Hinv H) as Hcnt.
  destruct (Delete_Returned _ _ _ _ _ Hinv H)
    as (L & I & s & s' & Hloc & Hch & _ & Hst & Hr).
  exists L, I, s. split; [exact Hloc|]. split; [apply Hch|].
  split; [exact Hr|]. split; [exact Hcnt|].
  split; [|eapply upper_layers_empty_changed; eassumption].
  rewrite (total_pairs_changed _ _ _ _ _ _ Hch). unfold stored_count.
  rewrite Hst, length_delete_pairs. fold (holds_key' Key (stored' s)) in Hr.
  rewrite <- Hr. lia.
Qed.

(** ** The invariant of the reachable states *)

#[local] Abbreviation consistent' := (@consistent tg K T).
#[local] Abbreviation reachable' := (reachable tg Hash Pred K_new T_new MAX_ERROR_margin).

Lemma consistent_counted (d : Z) m m' :
  consistent' m ->
  well_formed' m' -> slots_inv' m' -> upper_layers_empty' m' ->
  ManagerLock (Manager m') = ManagerLock (Manager m) ->
  ValueUniqueLock (Manager m') = ValueUniqueLock (Manager m) ->
  GlobalValue' (Manager m') = to_uInt tg (GlobalValue' (Manager m) + d) ->
  total_pairs' m' = total_pairs' m + d ->
  consistent' m'.
Proof.
  intros (_ & _ & _ & Hml & Hvl & Hg) Hwf Hinv Hup Hm' Hv' Hg' Ht.
  split; [exact Hwf|]. split; [exact Hinv|]. split; [exact Hup|].
  split; [congruence|]. split; [congruence|].
  rewrite Hg', Hg, Ht. apply to_uInt_add_l.
Qed.

Lemma consistent_grown m m' :
  consistent' m -> grown' m m' ->
  ManagerLock (Manager m') = ManagerLock (Manager m) ->
  ValueUniqueLock (Manager m') = ValueUniqueLock (Manager m) ->
  GlobalValue' (Manager m') = GlobalValue' (Manager m) ->
  consistent' m'.
Proof.
  intros Hc Hgr Hm' Hv' Hg'. pose proof Hc as (Hwf & Hinv & Hup & _).
  destruct (grown_total m m' Hwf Hup Hgr) as [Ht Hup'].
  apply (consistent_counted 0 m m' Hc); auto.
  - eapply well_formed_grown; eassumption.
  - eapply slots_inv_grown; eassumption.
  - rewrite Hg', Z.add_0_r, GlobalValue_idemp. reflexivity.
  - lia.
Qed.

Lemma total_pairs_replicate_nil (n : nat) :
  sum_with (sum_with stored_count') (replicate n []) = 0.
Proof. apply sum_with_zero. intros a Ha. apply elem_of_replicate in Ha as [-> _]. reflexivity. Qed.

Lemma LayeredHashMap_ctor_consistent (g : ThreadManager) u m :
  unused tg g ->
  LayeredHashMap_ctor tg K_new T_new g = Returned u m ->
  consistent' m.
Proof.
  intros (Hgl & Hgv & Hg0) H.
  destruct (LayeredHashMap_ctor_well_formed g)
    as (m0 & Hc & Hwf & Hl & Hmg).
  rewrite Hc in H. injection H as _ <-.
  pose proof (LayeredHashMap_ctor_slots_inv _ _ _ Hc) as Hinv.
  unfold LayeredHashMap_ctor, MAP_INIT, MAP_ALLOC in Hc.
  apply bind_Returned in Hc as (p0 & mx & Hp & Hc).
  apply checked_Returned in Hp as [Hp ->].
  rewrite bind_get in Hc.
  apply bind_Returned in Hc as (v & mx & Hv & Hc).
  apply checked_Returned in Hv as [Hv ->].
  unfold modify in Hc. injection Hc as <-.
  cbn [Slots LayeredHashMap_members] in Hv.
  apply lookup_replicate in Hv as [-> Hlt].
  split; [exact Hwf|]. split; [exact Hinv|]. split; [|split; [|split]].
  - intros i w Hi Hw. cbn [Slots LayerLastIdx set_Slots LayeredHashMap_members] in *.
    rewrite list_lookup_alter_ne in Hw by lia.
    apply lookup_replicate in Hw as [-> _]. reflexivity.
  - exact Hgl.
  - exact Hgv.
  - unfold total_pairs. cbn [Slots Manager set_Slots LayeredHashMap_members].
    rewrite (sum_with_alter _ _ _ _ []) by (apply lookup_replicate_2; exact Hlt).
    rewrite total_pairs_replicate_nil, sum_with_resize_nil, Hg0.
    change (0 - sum_with stored_count' [] + 0) with 0.
    symmetry. apply to_uInt_small. pose proof (to_uInt_range tg 0). lia.
Qed.

Lemma grow_until_consistent (fuel : nat) (InitialSize : Z) m u m' :
  consistent' m ->
  grow_until tg K_new T_new fuel InitialSize m = Returned u m' ->
  consistent' m'.
Proof.
  revert m. induction fuel as [|fuel IH]; intros m Hc H; [discriminate H|].
  cbn [grow_until] in H. rewrite bind_get in H.
  apply bind_Returned in H as (p & m0 & Hp & H).
  apply checked_Returned in Hp as [Hp ->].
  destruct (p <? InitialSize).
  - apply bind_Returned in H as (u1 & m1 & Ha & H).
    eapply IH; [|exact H].
    eapply consistent_grown; [exact Hc| | | |];
      try (rewrite (AllocateLayer_Manager _ _ _ Ha); reflexivity).
    eapply grown_allocated, AllocateLayer_Returned, Ha.
  - apply ret_Returned in H as [_ ->]. exact Hc.
Qed.

Lemma LayeredHashMap_ctor_sized_consistent (g : ThreadManager) (InitialSize : Z) u m :
  unused tg g ->
  LayeredHashMap_ctor_sized tg K_new T_new g InitialSize = Returned u m ->
  consistent' m.
Proof.
  unfold LayeredHashMap_ctor_sized. intros Hg H.
  apply bind_Returned in H as (u0 & m0 & Hc & H).
  eapply grow_until_consistent; [|exact H].
  eapply LayeredHashMap_ctor_consistent; [exact Hg|exact Hc].
Qed.

Lemma GlobalValue_push (g : ThreadManager) :
  GlobalValue'
    (set_ThreadValues (fun tvs => tvs ++ [{| Value := 0; Threshold := 0 |}]) g)
  = GlobalValue' g.
Proof.
  rewrite !GlobalValue_sum_Value. cbn [ThreadValues set_ThreadValues DTOR_ThreadValuesSum].
  rewrite sum_with_app. f_equal. rewrite sum_with_cons. cbn. lia.
Qed.

Lemma ManagerLock_lock_Returned m u m' :
  @ManagerLock_lock K T m = Returned u m' ->
  ManagerLock (Manager m) = false /\ m' = set_Manager (set_ManagerLock true) m.
Proof.
  unfold ManagerLock_lock. rewrite bind_get. intros H.
  destruct (ManagerLock (Manager m)); [discriminate H|].
  cbn [AtomicLock_lock acquired] in H. rewrite bind_ret in H.
  unfold modify in H. injection H as <-. auto.
Qed.

Lemma ConstructThreadValue_consistent m self m' :
  consistent' m ->
  ConstructThreadValue tg K_new T_new MAX_ERROR_margin m = Returned self m' ->
  consistent' m'.
Proof.
  intros Hc H. unfold ConstructThreadValue in H.
  apply bind_Returned in H as (u1 & m1 & Hlock & H).
  apply ManagerLock_lock_Returned in Hlock as [Hml ->].
  rewrite bind_modify in H.
  apply bind_Returned in H as (u2 & m2 & Hupd & H).
  unfold ManagerLock_unlock in H. rewrite bind_modify, bind_get in H.
  apply ret_Returned in H as [_ ->].
  pose proof (Update_values _ _ _ Hupd) as (Hd & Hv & Hm & Hl).
  pose proof (GlobalValue_same_values _ _ (Update_values _ _ _ Hupd)) as Hg.
  apply (consistent_grown m); [exact Hc| | | |].
  - eapply grown_same_r; [eapply grown_same_l; [|eapply Update_Returned, Hupd]|].
    + split; reflexivity.
    + apply same_table_set_Manager.
  - cbn. symmetry. exact Hml.
  - cbn. rewrite Hl. reflexivity.
  - unfold set_Manager at 1. cbn [Manager].
    change (GlobalValue' (set_ManagerLock ?x ?g)) with (GlobalValue' g).
    rewrite Hg. cbn [Manager set_Manager].
    rewrite GlobalValue_push. reflexivity.
Qed.

Lemma GlobalValue_destruct (g : ThreadManager) (self : nat) (v bk : ThreadValue) :
  ThreadValues g !! self = Some v ->
  last (ThreadValues g) = Some bk ->
  GlobalValue'
    (set_ThreadValues (fun tvs => removelast (<[self := bk]> tvs))
       (set_DTOR_ThreadValuesSum (to_sInt tg (DTOR_ThreadValuesSum g + Value v)) g))
  = GlobalValue' g.
Proof.
  intros Hv Hbk. rewrite !GlobalValue_sum_Value.
  cbn [ThreadValues set_ThreadValues DTOR_ThreadValuesSum set_DTOR_ThreadValuesSum].
  rewrite (sum_with_removelast _ _ bk) by (apply last_insert_last; exact Hbk).
  rewrite (sum_with_insert _ _ _ _ _ Hv).
  rewrite to_uInt_sInt_add_r. f_equal. lia.
Qed.

Lemma DestructThreadValue_Returned self m u m' :
  DestructThreadValue tg self m = Returned u m' ->
  exists v bk,
    ThreadValues (Manager m) !! self = Some v /\
    last (ThreadValues (Manager m)) = Some bk /\
    ManagerLock (Manager m) = false /\
    m' = set_Manager
           (fun g => set_ManagerLock false
              (set_ThreadValues (fun tvs => removelast (<[self := bk]> tvs))
                 (set_DTOR_ThreadValuesSum
                    (to_sInt tg (DTOR_ThreadValuesSum g + Value v)) g))) m.
Proof.
  unfold DestructThreadValue. intros H.
  apply bind_Returned in H as (u1 & m1 & Hlock & H).
  apply ManagerLock_lock_Returned in Hlock as [Hml ->].
  rewrite bind_get in H.
  apply bind_Returned in H as (v & m1 & Hv & H).
  apply checked_Returned in Hv as [Hv ->].
  rewrite bind_modify in H.
  apply bind_Returned in H as (bk & m1 & Hbk & H).
  apply checked_Returned in Hbk as [Hbk ->].
  rewrite bind_modify in H. unfold ManagerLock_unlock, modify in H.
  injection H as _ <-.
  exists v, bk. split; [exact Hv|]. split; [exact Hbk|]. split; [exact Hml|].
  destruct m as [S L g]. destruct g as [D TV ML VL]. reflexivity.
Qed.

Lemma DestructThreadValue_consistent self m u m' :
  consistent' m -> DestructThreadValue tg self m = Returned u m' -> consistent' m'.
Proof.
  intros Hc H.
  apply DestructThreadValue_Returned in H as (v & bk & Hv & Hbk & Hml & ->).
  apply (consistent_grown m); [exact Hc| | | |].
  - apply grown_same, same_table_set_Manager.
  - cbn. symmetry. exact Hml.
  - reflexivity.
  - cbn [Manager set_Manager].
    change (GlobalValue' (set_ManagerLock ?x ?g)) with (GlobalValue' g).
    apply (GlobalValue_destruct _ _ _ _ Hv Hbk).
Qed.

Lemma GetGlobalValue_run m :
  ManagerLock (Manager m) = false -> ValueUniqueLock (Manager m) = false ->
  @GetGlobalValue tg K T m = Returned (GlobalValue' (Manager m)) m.
Proof.
  destruct m as [S L g]. destruct g as [D TV ML VL]. cbn. intros -> ->. reflexivity.
Qed.

Lemma GetGlobalValue_Returned m n m' :
  @GetGlobalValue tg K T m = Returned n m' ->
  ManagerLock (Manager m) = false /\ ValueUniqueLock (Manager m) = false.
Proof.
  destruct m as [S L g]. destruct g as [D TV [] []]; cbn; intros H;
    try discriminate H; auto.
Qed.

Lemma Read_same_state (Key : K) m :
  well_formed' m -> slots_inv' m ->
  (forall v m', Read' Key m = Returned v m' -> m' = m) /\
  (forall e m', Read' Key m = Thrown e m' -> m' = m).
Proof.
  intros Hwf Hinv.
  destruct (Read_spec Key m Hwf Hinv) as (L & I & s & _ & _ & ->).
  destruct (find_if _ _) as [[i kv]|]; split; intros ? ? H;
    try discriminate H;
    first [injection H as _ <- | injection H as <-]; reflexivity.
Qed.

Lemma Write_consistent self (Key : K) (Val : T) m u m' :
  consistent' m -> Write' self Key Val m = Returned u m' -> consistent' m'.
Proof.
  intros Hc H. pose proof Hc as (Hwf & Hinv & Hup & _).
  destruct (Write_Returned _ _ _ _ _ _ Hwf Hinv H)
    as (_ & _ & _ & _ & _ & _ & _ & _ & _ & Hinv' & Hwf' & _).
  destruct (Write_counted _ _ _ _ _ _ Hwf Hinv Hup H)
    as (L & I & s & _ & _ & (Hm' & Hv' & Hg' & _) & Ht & Hup').
  eapply consistent_counted; eassumption.
Qed.

Lemma Delete_consistent self (Key : K) m r m' :
  consistent' m -> Delete' self Key m = Returned r m' -> consistent' m'.
Proof.
  intros Hc H. pose proof Hc as (Hwf & Hinv & Hup & _).
  destruct (Delete_Returned _ _ _ _ _ Hinv H)
    as (L0 & I0 & s0 & s0' & _ & Hch & Hs' & _).
  destruct (Delete_counted _ _ _ _ _ Hinv Hup H)
    as (L & I & s & _ & _ & _ & (Hm' & Hv' & Hg' & _) & Ht & Hup').
  eapply (consistent_counted (- b2z r)); try eassumption.
  - eapply slot_changed_wf; eassumption.
  - eapply slot_changed_inv; eassumption.
Qed.

Lemma reachable_consistent m : reachable' m -> consistent' m.
Proof.
  induction 1 as [g u m Hg H|g IS u m Hg H|m self m' _ IH H|m self u m' _ IH H
                 |m self Key Val u m' _ IH H|m self Key r m' _ IH H
                 |m Key v m' _ IH H|m Key e m' _ IH H|m n m' _ IH H].
  - eapply LayeredHashMap_ctor_consistent; eassumption.
  - eapply LayeredHashMap_ctor_sized_consistent; eassumption.
  - eapply ConstructThreadValue_consistent; eassumption.
  - eapply DestructThreadValue_consistent; eassumption.
  - eapply Write_consistent; eassumption.
  - eapply Delete_consistent; eassumption.
  - pose proof IH as (Hwf & Hinv & _).
    destruct (Read_same_state Key m Hwf Hinv) as [Hr _].
    rewrite (Hr _ _ H). exact IH.
  - pose proof IH as (Hwf & Hinv & _).
    destruct (Read_same_state Key m Hwf Hinv) as [_ Hr].
    rewrite (Hr _ _ H). exact IH.
  - pose proof (GetGlobalValue_Returned _ _ _ H) as [Hml Hvl].
    unfold GetSize in H. rewrite (GetGlobalValue_run m Hml Hvl) in H.
    injection H as _ <-. exact IH.
Qed.

Lemma Write_Manager self (Key : K) (Val : T) m u m' :
  well_formed' m -> slots_inv' m ->
  Write' self Key Val m = Returned u m' ->
  exists L I s,
    locate' Key m = Returned (L, I) m /\
    slot_at m L I = Some s /\
    counted_step' (b2z (negb (holds_key' Key (stored' s)))) (Manager m) (Manager m').
Proof.
  intros Hwf Hinv H. unfold Write in H.
  apply bind_Returned in H as ([L I] & m0 & Hloc & H).
  pose proof (locate_Returned _ _ _ _ Hloc) as ->.
  apply bind_Returned in H as (status & m1 & Hctor & H).
  apply (WriteWrapper_ctor_Returned _ _ _ _ _ Hinv) in Hctor
    as (s0 & Hs0 & -> & Hmg1 & Hch1).
  apply bind_Returned in H as (s1 & m1' & Hload & H).
  apply slot_load_Returned in Hload as [Hs1 ->].
  pose proof (slot_changed_mid _ _ _ _ _ _ _ Hch1 Hs1) as ->.
  cbn [Main Collisions set_Lock] in H.
  apply bind_Returned in H as (u3 & m3 & Hbody & Hdtor).
  pose proof (Write_body_counted _ _ _ _ _ _ _ _ _ Hs0 Hbody) as Hcnt.
  apply WriteWrapper_dtor_Returned in Hdtor as (s3 & Hch3 & Hmg3).
  exists L, I, s0. split; [exact Hloc|]. split; [apply Hch1|].
  rewrite Hmg3, <- Hmg1. exact Hcnt.
Qed.

Lemma counted_step_quiescent self (d : Z) m m' :
  quiescent' self m -> counted_step' d (Manager m) (Manager m') -> quiescent' self m'.
Proof.
  intros (Hs & Hml & Hvl) (Hm' & Hv' & _ & Hl).
  split; [|split; congruence].
  apply lookup_lt_is_Some. rewrite Hl. apply lookup_lt_is_Some. exact Hs.
Qed.

Lemma GetSize_Returned m n m0 :
  @GetSize tg K T m = Returned n m0 ->
  ManagerLock (Manager m) = false /\ ValueUniqueLock (Manager m) = false /\
  n = GlobalValue' (Manager m) /\ m0 = m.
Proof.
  intros H. pose proof (GetGlobalValue_Returned _ _ _ H) as [Hml Hvl].
  unfold GetSize in H. rewrite (GetGlobalValue_run m Hml Hvl) in H.
  injection H as <- <-. auto.
Qed.

Lemma GetSize_counted (d : Z) m m' n m0 :
  @GetSize tg K T m = Returned n m0 ->
  counted_step' d (Manager m) (Manager m') ->
  @GetSize tg K T m' = Returned (to_uInt tg (n + d)) m'.
Proof.
  intros H (Hm' & Hv' & Hg' & _).
  apply GetSize_Returned in H as (Hml & Hvl & -> & _).
  unfold GetSize. rewrite GetGlobalValue_run by congruence. rewrite Hg'. reflexivity.
Qed.

(** ** What [GetSize] returns *)

(** X9.  In every state a sequential execution reaches from a map
    constructed on an unused manager (threads registering and unregistering
    their counters, [Write], [Delete], [Read] and [GetSize] running to
    their end), [GetSize] returns, leaves the state as it is, and its
    result is the number of pairs held by the slots of the table, as a
    [size_t]. *)
Theorem GetSize_counts_stored_pairs m :
  reachable' m ->
  @GetSize tg K T m = Returned (to_uInt tg (total_pairs' m)) m.
Proof.
  intros Hr. destruct (reachable_consistent m Hr) as (_ & _ & _ & Hml & Hvl & Hg).
  unfold GetSize. rewrite (GetGlobalValue_run m Hml Hvl), Hg. reflexivity.
Qed.

(** X10.  A [Write] that returns moves what [GetSize] returns by one
    when the slot addressed by the key held no pair with an equal key,
    and leaves it as it was when the slot held one; the count is taken
    in [size_t]. *)
Theorem Write_moves_GetSize self (Key : K) (Val : T) m u m' (n : Z) m0 :
  well_formed' m -> slots_inv' m ->
  @GetSize tg K T m = Returned n m0 ->
  Write' self Key Val m = Returned u m' ->
  exists L I s,
    locate' Key m = Returned (L, I) m /\
    slot_at m L I = Some s /\
    @GetSize tg K T m'
    = Returned (to_uInt tg (n + (if holds_key' Key (stored' s) then 0 else 1))) m'.
Proof.
  intros Hwf Hinv Hn H.
  destruct (Write_Manager _ _ _ _ _ _ Hwf Hinv H) as (L & I & s & Hloc & Hs & Hcnt).
  exists L, I, s. split; [exact Hloc|]. split; [exact Hs|].
  rewrite (GetSize_counted _ _ _ _ _ Hn Hcnt).
  destruct (holds_key' Key (stored' s)); reflexivity.
Qed.

(** X11.  A [Delete] that returns [true] lowers what [GetSize] returns
    by one, a [Delete] that returns [false] leaves it as it was; the
    count is taken in [size_t]. *)
Theorem Delete_moves_GetSize self (Key : K) m (r : bool) m' (n : Z) m0 :
  slots_inv' m ->
  @GetSize tg K T m = Returned n m0 ->
  Delete' self Key m = Returned r m' ->
  @GetSize tg K T m' = Returned (to_uInt tg (n - (if r then 1 else 0))) m'.
Proof.
  intros Hinv Hn H.
  pose proof (Delete_Manager _ _ _ _ _ Hinv H) as Hcnt.
  rewrite (GetSize_counted _ _ _ _ _ Hn Hcnt). destruct r; reflexivity.
Qed.

(** X12.  [DestructThreadValue] of a registered counter returns, takes
    the counter out of the registry, adds its value to
    [DTOR_ThreadValuesSum] and leaves the table and the result of
    [GetSize] as they were. *)
Theorem DestructThreadValue_keeps_GetSize (self : nat) (v : ThreadValue) m (n : Z) m0 :
  ThreadValues (Manager m) !! self = Some v ->
  @GetSize tg K T m = Returned n m0 ->
  exists m',
    DestructThreadValue tg self m = Returned tt m' /\
    @GetSize tg K T m' = Returned n m' /\
    S (length (ThreadValues (Manager m'))) = length (ThreadValues (Manager m)) /\
    DTOR_ThreadValuesSum (Manager m')
    = to_sInt tg (DTOR_ThreadValuesSum (Manager m) + Value v) /\
    Slots m' = Slots m /\ LayerLastIdx m' = LayerLastIdx m.
Proof.
  intros Hv Hn. apply GetSize_Returned in Hn as (Hml & Hvl & -> & _).
  assert (Hbk : is_Some (last (ThreadValues (Manager m)))).
  { destruct (ThreadValues (Manager m)) as [|a tvs] eqn:E; [discriminate Hv|].
    destruct (last (a :: tvs)) eqn:El; [eauto|]. apply last_None in El. discriminate El. }
  destruct Hbk as [bk Hbk].
  eexists. split; [|split; [|split; [|split; [|split]]]].
  - unfold DestructThreadValue.
    rewrite (bind_step _ _ m tt (set_Manager (set_ManagerLock true) m));
      [|unfold ManagerLock_lock; rewrite bind_get, Hml; reflexivity].
    rewrite bind_get. cbn [Manager set_Manager ThreadValues set_ManagerLock].
    rewrite Hv. cbn [checked]. rewrite bind_ret, bind_modify.
    rewrite Hbk. cbn [checked]. rewrite bind_ret, bind_modify.
    unfold ManagerLock_unlock, modify. reflexivity.
  - unfold GetSize. rewrite GetGlobalValue_run by (cbn; auto).
    f_equal. cbn [Manager set_Manager].
    change (GlobalValue' (set_ManagerLock ?x ?g)) with (GlobalValue' g).
    change (GlobalValue' (set_ThreadValues ?f (set_DTOR_ThreadValuesSum ?x
              (set_ManagerLock ?y ?g))))
      with (GlobalValue' (set_ThreadValues f (set_DTOR_ThreadValuesSum x g))).
    apply (GlobalValue_destruct _ _ _ _ Hv Hbk).
  - cbn. apply last_Some in Hbk as [tvs Htv]. rewrite Htv in *.
    assert (Hl : last (<[self := bk]> (tvs ++ [bk])) = Some bk)
      by (apply last_insert_last, last_snoc).
    apply last_Some in Hl as [tvs' Htv']. rewrite Htv', removelast_last.
    apply (f_equal length) in Htv'. rewrite length_insert, !length_app in Htv'.
    cbn in Htv'. rewrite length_app. cbn. lia.
  - reflexivity.
  - reflexivity.
  - reflexivity.
Qed.

(** ** The constructor with a size hint *)

Lemma Primes_le (i j pi pj : Z) :
  -1 <= i <= j -> j < MaxLayerCount tg ->
  Primes tg i = Some pi -> Primes tg j = Some pj -> pi <= pj.
Proof.
  intros Hij Hj Hpi Hpj.
  destruct (decide (i = j)) as [->|Hne]; [rewrite Hpi in Hpj; injection Hpj as ->; lia|].
  destruct (decide (i = -1)) as [->|Hi].
  - rewrite Primes_minus_one in Hpi. injection Hpi as <-.
    destruct (Primes_in_range j) as (p & Hp & Hpos); [lia|].
    rewrite Hpj in Hp. injection Hp as ->. lia.
  - pose proof (Primes_lt i j pi pj ltac:(lia) Hj Hpi Hpj). lia.
Qed.

Lemma grow_until_run (fuel : nat) (InitialSize pmax : Z) m :
  well_formed' m ->
  (forall l i s, layer_slot m l i = Some s -> s = Slot_new') ->
  Primes tg (MaxLayerCount tg - 1) = Some pmax -> InitialSize <= pmax ->
  (Z.to_nat (MaxLayerCount tg - LayerLastIdx m) <= fuel)%nat ->
  (forall j q, 0 <= j < LayerLastIdx m -> Primes tg j = Some q -> q < InitialSize) ->
  exists m' p,
    grow_until tg K_new T_new fuel InitialSize m = Returned tt m' /\
    well_formed' m' /\
    (forall l i s, layer_slot m' l i = Some s -> s = Slot_new') /\
    Manager m' = Manager m /\
    Primes tg (LayerLastIdx m') = Some p /\ InitialSize <= p /\
    (forall j q, 0 <= j < LayerLastIdx m' -> Primes tg j = Some q -> q < InitialSize).
Proof.
  revert m. induction fuel as [|fuel IH]; intros m Hwf Hinv Hmax Hle Hfuel Hmin.
  - exfalso. destruct Hwf as (_ & Hl & _). lia.
  - cbn [grow_until]. rewrite bind_get.
    pose proof Hwf as (_ & Hlast & _).
    destruct (Primes_in_range (LayerLastIdx m) Hlast) as (p & Hp & _).
    rewrite (bind_checked _ _ _ _ _ Hp).
    destruct (Z.ltb_spec p InitialSize) as [Hlt|Hge].
    + assert (Hnl : LayerLastIdx m + 1 < MaxLayerCount tg).
      { destruct (decide (LayerLastIdx m = MaxLayerCount tg - 1)) as [E|E]; [|lia].
        rewrite E, Hmax in Hp. injection Hp as ->. lia. }
      destruct (AllocateLayer_run m Hwf Hnl)
        as (m1 & po & pn & Hrun & Hpo & Hpn & Hl1 & Hwf1).
      rewrite (bind_step _ _ _ _ _ Hrun).
      destruct (IH m1 Hwf1) as (m' & p' & Hrun' & Hwf' & Hinv' & Hmg' & Hp' & Hle' & Hmin').
      * intros l i s Hs.
        apply (allocated_slot_origin m m1) in Hs as [Hs| ->];
          [eapply Hinv, Hs|reflexivity|].
        eapply AllocateLayer_Returned, Hrun.
      * exact Hmax.
      * exact Hle.
      * rewrite Hl1. lia.
      * intros j q Hj Hq. rewrite Hl1 in Hj.
        destruct (decide (j = LayerLastIdx m)) as [->|Hne].
        -- rewrite Hp in Hq. injection Hq as <-. exact Hlt.
        -- eapply Hmin; [|exact Hq]. lia.
      * exists m', p'. split; [exact Hrun'|]. split; [exact Hwf'|].
        split; [exact Hinv'|].
        split; [rewrite Hmg'; eapply AllocateLayer_Manager, Hrun|auto].
    + exists m, p. split; [reflexivity|]. split; [exact Hwf|]. split; [exact Hinv|].
      split; [reflexivity|]. split; [exact Hp|]. split; [lia|exact Hmin].
Qed.

Lemma grow_until_beyond (fuel : nat) (InitialSize pmax : Z) m :
  well_formed' m ->
  Primes tg (MaxLayerCount tg - 1) = Some pmax -> pmax < InitialSize ->
  (Z.to_nat (MaxLayerCount tg - LayerLastIdx m) <= fuel)%nat ->
  grow_until tg K_new T_new fuel InitialSize m = Undefined TableOutOfRange.
Proof.
  revert m. induction fuel as [|fuel IH]; intros m Hwf Hmax Hlt Hfuel.
  - exfalso. destruct Hwf as (_ & Hl & _). lia.
  - cbn [grow_until]. rewrite bind_get.
    pose proof Hwf as (_ & Hlast & _).
    destruct (Primes_in_range (LayerLastIdx m) Hlast) as (p & Hp & _).
    rewrite (bind_checked _ _ _ _ _ Hp).
    pose proof (Primes_le (LayerLastIdx m) (MaxLayerCount tg - 1) p pmax
                  ltac:(lia) ltac:(lia) Hp Hmax) as Hpp.
    destruct (Z.ltb_spec p InitialSize) as [_|Hge]; [|lia].
    destruct (decide (LayerLastIdx m = MaxLayerCount tg - 1)) as [E|E].
    + unfold bind at 1. rewrite (AllocateLayer_at_capacity m E). reflexivity.
    + destruct (AllocateLayer_run m Hwf ltac:(lia))
        as (m1 & po & pn & Hrun & Hpo & Hpn & Hl1 & Hwf1).
      rewrite (bind_step _ _ _ _ _ Hrun).
      apply IH; auto. rewrite Hl1. lia.
Qed.

Lemma LayeredHashMap_ctor_slots_new (g : ThreadManager) u m :
  LayeredHashMap_ctor tg K_new T_new g = Returned u m ->
  forall l i s, layer_slot m l i = Some s -> s = Slot_new'.
Proof.
  unfold LayeredHashMap_ctor, MAP_INIT, MAP_ALLOC. intros H.
  apply bind_Returned in H as (p0 & mx & Hp & H).
  apply checked_Returned in Hp as [Hp ->].
  rewrite bind_get in H.
  apply bind_Returned in H as (v & mx & Hv & H).
  apply checked_Returned in Hv as [Hv ->].
  unfold modify in H. injection H as _ <-.
  intros l i s Hs. unfold layer_slot in Hs.
  cbn [Slots set_Slots LayeredHashMap_members] in Hs.
  destruct (decide (Z.to_nat 0 = l)) as [<-|Hne].
  - rewrite list_lookup_alter_eq in Hs.
    destruct (replicate _ _ !! _) as [w|] eqn:Ew; [|discriminate].
    apply lookup_replicate in Ew as [-> _]. cbn in Hs.
    apply resize_layer_lookup in Hs as [Hs| ->]; [discriminate|reflexivity].
  - rewrite list_lookup_alter_ne in Hs by exact Hne.
    destruct (replicate _ _ !! _) as [w|] eqn:Ew; [|discriminate].
    apply lookup_replicate in Ew as [-> _]. discriminate.
Qed.

(** *** The constructors and the environment *)

#[local] Abbreviation layer_refused' := (layer_refused tg).
#[local] Abbreviation grow_until_in' := (grow_until_in tg K_new T_new).

Lemma Primes_below_word (i p : Z) :
  0 <= i < MaxLayerCount tg -> Primes tg i = Some p -> 0 < p < 2 ^ bits tg.
Proof.
  intros Hi Hp. pose proof (LowestExponent_pos tg).
  destruct (Primes_window tg (LowestExponent tg + i) ltac:(lia)) as (q & Hq & Hw).
  replace (LowestExponent tg + i - LowestExponent tg) with i in Hq by lia.
  rewrite Hp in Hq. injection Hq as <-.
  assert (0 < 2 ^ (LowestExponent tg + i)) by (apply Z.pow_pos_nonneg; lia).
  assert (2 ^ (LowestExponent tg + i + 1) <= 2 ^ bits tg).
  { apply Z.pow_le_mono_r; [lia|]. pose proof (MaxLayerCount_bits tg). lia. }
  lia.
Qed.

Lemma layer_refused_first (a : Allocator) (p0 : Z) :
  Primes tg 0 = Some p0 -> layer_refused' a 0 = refused a p0.
Proof.
  intros Hp0. unfold layer_refused, layer_size.
  change (0 - 1) with (-1). rewrite Primes_minus_one, Hp0. cbn.
  pose proof (MaxLayerCount_pos tg).
  pose proof (Primes_below_word 0 p0 ltac:(lia) Hp0).
  rewrite Z.sub_0_r, to_uInt_small by lia. reflexivity.
Qed.

Lemma layer_refused_next (a : Allocator) (L po pn : Z) :
  0 <= L -> L + 1 < MaxLayerCount tg ->
  Primes tg L = Some po -> Primes tg (L + 1) = Some pn ->
  layer_refused' a (L + 1) = refused a (pn - po).
Proof.
  intros H0 H1 Hpo Hpn. unfold layer_refused, layer_size.
  replace (L + 1 - 1) with L by lia. rewrite Hpo, Hpn. cbn.
  destruct (layer_size_pos po pn L H0 H1 Hpo Hpn) as [-> _]. reflexivity.
Qed.

Lemma layer_refused_cases (a : Allocator) (j : Z) e :
  layer_refused' a j = Some e -> e = length_error \/ e = bad_alloc.
Proof.
  unfold layer_refused. destruct (layer_size tg j) as [Size|]; [|discriminate].
  cbn. apply refused_cases.
Qed.

(** The layers are granted one after the other up to the first one
    that is refused. *)
Lemma first_layer_refused (a : Allocator) (n : nat) :
  (forall k, 0 <= k < Z.of_nat n -> layer_refused' a k = None) \/
  exists j e,
    0 <= j < Z.of_nat n /\
    (forall k, 0 <= k < j -> layer_refused' a k = None) /\
    layer_refused' a j = Some e.
Proof.
  induction n as [|n [Hall|(j & e & Hj & Hbefore & Hrefj)]].
  - left. intros k Hk. lia.
  - destruct (layer_refused' a (Z.of_nat n)) as [e|] eqn:E.
    + right. exists (Z.of_nat n), e. split; [lia|]. split; [|exact E].
      intros k Hk. apply Hall. lia.
    + left. intros k Hk.
      destruct (decide (k = Z.of_nat n)) as [->|Hne]; [exact E|apply Hall; lia].
  - right. exists j, e. split; [lia|]. split; assumption.
Qed.

Lemma grow_until_LayerLastIdx (fuel : nat) (InitialSize : Z) m u m' :
  0 <= LayerLastIdx m < MaxLayerCount tg ->
  grow_until tg K_new T_new fuel InitialSize m = Returned u m' ->
  LayerLastIdx m <= LayerLastIdx m'.
Proof.
  revert m. induction fuel as [|fuel IH]; intros m Hlast H; [discriminate|].
  cbn [grow_until] in H. rewrite bind_get in H.
  apply bind_Returned in H as (p & mx & Hp & H).
  apply checked_Returned in Hp as [Hp ->].
  destruct (p <? InitialSize).
  - apply bind_Returned in H as (x & m1 & Hrun & H).
    apply AllocateLayer_Returned in Hrun.
    destruct (allocated_LayerLastIdx m m1 Hlast Hrun) as [Hl1 Hlt].
    apply IH in H; lia.
  - apply Returned_state in H. subst m'. lia.
Qed.

(** The loop of the sized constructor, when the environment grants the
    layers it allocates, is the loop with granted storage. *)
Lemma grow_until_in_granted (a : Allocator) (fuel : nat) (InitialSize : Z) m u m' :
  table_shape' m ->
  grow_until tg K_new T_new fuel InitialSize m = Returned u m' ->
  (forall j, LayerLastIdx m < j <= LayerLastIdx m' -> layer_refused' a j = None) ->
  grow_until_in' a fuel InitialSize m = Returned u m'.
Proof.
  revert m. induction fuel as [|fuel IH]; intros m Hsh H Hg; [discriminate|].
  cbn [grow_until] in H. cbn [grow_until_in]. rewrite bind_get in H. rewrite bind_get.
  pose proof Hsh as (_ & Hlast & _).
  destruct (Primes_in_range (LayerLastIdx m) Hlast) as (p & Hp & _).
  rewrite (bind_checked _ _ _ _ _ Hp) in H. rewrite (bind_checked _ _ _ _ _ Hp).
  destruct (p <? InitialSize); [|exact H].
  apply bind_Returned in H as (x & m1 & Hrun & H).
  pose proof (AllocateLayer_Returned _ _ _ Hrun) as Ha.
  destruct (allocated_LayerLastIdx m m1 Hlast Ha) as [Hl1 Hlt].
  pose proof (grow_until_LayerLastIdx fuel InitialSize m1 u m' ltac:(lia) H) as Hmono.
  destruct (AllocateLayer_in_run a m Hsh Hlt) as (po & pn & Hpo & Hpn & Hout).
  rewrite <- (layer_refused_next a (LayerLastIdx m) po pn) in Hout by (auto; lia).
  rewrite Hg in Hout by lia.
  destruct Hout as (m1' & Hin & Hrun' & _ & Hsh1 & _).
  rewrite Hrun in Hrun'. apply Returned_state in Hrun'. subst m1'.
  rewrite (bind_step _ _ _ _ _ Hin).
  apply IH; [exact Hsh1|exact H|]. intros j Hj. apply Hg. lia.
Qed.

(** The loop ends at the first layer that the environment refuses. *)
Lemma grow_until_in_refused (a : Allocator) (fuel : nat) (InitialSize : Z) m (j : Z) e :
  table_shape' m ->
  LayerLastIdx m < j < MaxLayerCount tg ->
  (Z.to_nat (j - LayerLastIdx m) <= fuel)%nat ->
  (forall k q, LayerLastIdx m <= k < j -> Primes tg k = Some q -> q < InitialSize) ->
  (forall k, LayerLastIdx m < k < j -> layer_refused' a k = None) ->
  layer_refused' a j = Some e ->
  exists m',
    grow_until_in' a fuel InitialSize m = Thrown e m' /\
    LayerLastIdx m' = j /\ Slots m' !! Z.to_nat j = Some [] /\
    Manager m' = Manager m.
Proof.
  revert m. induction fuel as [|fuel IH]; intros m Hsh Hj Hfuel Hneed Hg Hr; [lia|].
  cbn [grow_until_in]. rewrite bind_get.
  pose proof Hsh as (_ & Hlast & _).
  destruct (Primes_in_range (LayerLastIdx m) Hlast) as (p & Hp & _).
  rewrite (bind_checked _ _ _ _ _ Hp).
  pose proof (Hneed (LayerLastIdx m) p ltac:(lia) Hp) as Hlt.
  destruct (Z.ltb_spec p InitialSize) as [_|Hge]; [|lia].
  destruct (AllocateLayer_in_run a m Hsh ltac:(lia)) as (po & pn & Hpo & Hpn & Hout).
  rewrite <- (layer_refused_next a (LayerLastIdx m) po pn) in Hout by (auto; lia).
  destruct (decide (LayerLastIdx m + 1 = j)) as [E|E].
  - rewrite E, Hr in Hout. destruct Hout as (_ & Ht & _).
    unfold bind at 1. rewrite Ht. eexists. split; [reflexivity|].
    cbn [set_LayerLastIdx LayerLastIdx Slots Manager].
    split; [reflexivity|]. split; [|reflexivity].
    rewrite <- E. apply table_shape_next; [exact Hsh|lia].
  - rewrite Hg in Hout by lia.
    destruct Hout as (m1 & Hin & Hrun & Hl1 & Hsh1 & _).
    rewrite (bind_step _ _ _ _ _ Hin).
    destruct (IH m1 Hsh1) as (m' & Hrun' & Hl' & Hs' & Hmg'); try assumption.
    + lia.
    + lia.
    + intros k q Hk. apply Hneed. lia.
    + intros k Hk. apply Hg. lia.
    + exists m'. split; [exact Hrun'|]. split; [exact Hl'|]. split; [exact Hs'|].
      rewrite Hmg'. eapply AllocateLayer_Manager, Hrun.
Qed.

(** Were every layer granted, the loop would leave the table. *)
Lemma grow_until_in_beyond (a : Allocator) (fuel : nat) (InitialSize pmax : Z) m :
  table_shape' m ->
  Primes tg (MaxLayerCount tg - 1) = Some pmax -> pmax < InitialSize ->
  (Z.to_nat (MaxLayerCount tg - LayerLastIdx m) <= fuel)%nat ->
  (forall k, LayerLastIdx m < k < MaxLayerCount tg -> layer_refused' a k = None) ->
  grow_until_in' a fuel InitialSize m = Undefined TableOutOfRange.
Proof.
  revert m. induction fuel as [|fuel IH]; intros m Hsh Hmax Hlt Hfuel Hg.
  - exfalso. destruct Hsh as (_ & Hl & _). lia.
  - cbn [grow_until_in]. rewrite bind_get.
    pose proof Hsh as (_ & Hlast & _).
    destruct (Primes_in_range (LayerLastIdx m) Hlast) as (p & Hp & _).
    rewrite (bind_checked _ _ _ _ _ Hp).
    pose proof (Primes_le (LayerLastIdx m) (MaxLayerCount tg - 1) p pmax
                  ltac:(lia) ltac:(lia) Hp Hmax) as Hpp.
    destruct (Z.ltb_spec p InitialSize) as [_|Hge]; [|lia].
    destruct (decide (LayerLastIdx m = MaxLayerCount tg - 1)) as [E|E].
    + unfold bind at 1. rewrite (AllocateLayer_in_at_capacity a m E). reflexivity.
    + destruct (AllocateLayer_in_run a m Hsh ltac:(lia)) as (po & pn & Hpo & Hpn & Hout).
      rewrite <- (layer_refused_next a (LayerLastIdx m) po pn) in Hout by (auto; lia).
      rewrite Hg in Hout by lia.
      destruct Hout as (m1 & Hin & _ & Hl1 & Hsh1 & _).
      rewrite (bind_step _ _ _ _ _ Hin).
      apply IH; auto; [lia|]. intros k Hk. apply Hg. lia.
Qed.

(** X7.  [LayeredHashMap(InitialSize)], [n] being the first layer with
    [InitialSize <= Primes[n]]: in an environment that grants the layers
    [0 .. n] the constructor returns, and the map is the one the
    constructor with granted storage returns: well formed, on the
    manager given, with [LayerLastIdx = n] and every slot a new slot. *)
Theorem LayeredHashMap_ctor_sized_returns (a : Allocator) (g : ThreadManager)
    (InitialSize n p : Z) :
  0 <= n < MaxLayerCount tg ->
  Primes tg n = Some p -> InitialSize <= p ->
  (forall j q, 0 <= j < n -> Primes tg j = Some q -> q < InitialSize) ->
  (forall j, 0 <= j <= n -> layer_refused' a j = None) ->
  exists m,
    LayeredHashMap_ctor_sized_in tg K_new T_new a g InitialSize = Returned tt m /\
    LayeredHashMap_ctor_sized tg K_new T_new g InitialSize = Returned tt m /\
    well_formed' m /\
    (forall l i s, layer_slot m l i = Some s -> s = Slot_new') /\
    Manager m = g /\
    LayerLastIdx m = n.
Proof.
  intros Hn Hp Hle Hmin Hg.
  destruct (Primes_in_range (MaxLayerCount tg - 1)) as (pmax & Hmax & _); [lia|].
  pose proof (Primes_le n (MaxLayerCount tg - 1) p pmax ltac:(lia) ltac:(lia) Hp Hmax).
  destruct (LayeredHashMap_ctor_in_run a g) as (p0 & Hp0 & Hout).
  rewrite <- (layer_refused_first a p0 Hp0), Hg in Hout by lia.
  destruct Hout as (m0 & Hin & Hc & Hwf0 & Hsh0 & Hl0 & Hmg0).
  pose proof (LayeredHashMap_ctor_slots_new _ _ _ Hc) as Hinv0.
  destruct (grow_until_run (S (Z.to_nat (MaxLayerCount tg))) InitialSize pmax m0
              Hwf0 Hinv0 Hmax ltac:(lia))
    as (m & p' & Hrun & Hwf & Hinv & Hmg & Hp' & Hge & Hmin').
  { rewrite Hl0. lia. }
  { intros j q Hj. rewrite Hl0 in Hj. lia. }
  assert (Hl : LayerLastIdx m = n).
  { pose proof (proj1 (proj2 Hwf)) as Hlast.
    destruct (Z.lt_trichotomy (LayerLastIdx m) n) as [Hlt|[E|Hgt]]; [|exact E|].
    - pose proof (Hmin (LayerLastIdx m) p' ltac:(lia) Hp'). lia.
    - pose proof (Hmin' n p ltac:(lia) Hp). lia. }
  exists m. split; [|split; [|split; [exact Hwf|split; [exact Hinv|split; [congruence|exact Hl]]]]].
  - unfold LayeredHashMap_ctor_sized_in. unfold LayeredHashMap_ctor_in in Hin.
    rewrite (bind_step _ _ _ _ _ Hin).
    apply grow_until_in_granted; [exact Hsh0|exact Hrun|].
    intros j Hj. apply Hg. lia.
  - unfold LayeredHashMap_ctor_sized. unfold LayeredHashMap_ctor in Hc.
    rewrite (bind_step _ _ _ _ _ Hc). exact Hrun.
Qed.

(** The sized constructor with [InitialSize] above the last prime of
    the table, by the first layer that the environment refuses. *)
Lemma LayeredHashMap_ctor_sized_in_beyond (a : Allocator) (g : ThreadManager)
    (InitialSize pmax : Z) :
  Primes tg (MaxLayerCount tg - 1) = Some pmax -> pmax < InitialSize ->
  ((forall j, 0 <= j < MaxLayerCount tg -> layer_refused' a j = None) /\
   LayeredHashMap_ctor_sized_in tg K_new T_new a g InitialSize
   = Undefined TableOutOfRange)
  \/
  (exists j e m,
     0 <= j < MaxLayerCount tg /\
     (forall k, 0 <= k < j -> layer_refused' a k = None) /\
     layer_refused' a j = Some e /\
     (e = length_error \/ e = bad_alloc) /\
     LayeredHashMap_ctor_sized_in tg K_new T_new a g InitialSize = Thrown e m /\
     LayerLastIdx m = j /\ Slots m !! Z.to_nat j = Some []).
Proof.
  intros Hmax Hlt. pose proof (MaxLayerCount_pos tg) as HM.
  destruct (LayeredHashMap_ctor_in_run a g) as (p0 & Hp0 & Hout).
  rewrite <- (layer_refused_first a p0 Hp0) in Hout.
  destruct (first_layer_refused a (Z.to_nat (MaxLayerCount tg)))
    as [Hall|(j & e & Hj & Hbefore & Hrefj)].
  - left. split; [intros j Hj; apply Hall; lia|].
    rewrite Hall in Hout by lia.
    destruct Hout as (m0 & Hin & _ & _ & Hsh0 & Hl0 & _).
    unfold LayeredHashMap_ctor_sized_in. unfold LayeredHashMap_ctor_in in Hin.
    rewrite (bind_step _ _ _ _ _ Hin).
    apply (grow_until_in_beyond a _ _ pmax); auto; [rewrite Hl0; lia|].
    intros k Hk. apply Hall. lia.
  - right. exists j, e.
    destruct (decide (j = 0)) as [->|Hne].
    + rewrite Hrefj in Hout. eexists.
      split; [lia|]. split; [exact Hbefore|]. split; [exact Hrefj|].
      split; [eapply layer_refused_cases, Hrefj|]. split; [|split].
      * unfold LayeredHashMap_ctor_sized_in, bind.
        unfold LayeredHashMap_ctor_in in Hout. rewrite Hout. reflexivity.
      * reflexivity.
      * unfold LayeredHashMap_members. cbn [Slots]. apply lookup_replicate_2. lia.
    + rewrite Hbefore in Hout by lia.
      destruct Hout as (m0 & Hin & _ & _ & Hsh0 & Hl0 & _).
      destruct (grow_until_in_refused a (S (Z.to_nat (MaxLayerCount tg))) InitialSize
                  m0 j e Hsh0)
        as (m & Hrun & Hl & Hs & _).
      * rewrite Hl0. lia.
      * rewrite Hl0. lia.
      * intros k q Hk Hq. rewrite Hl0 in Hk.
        pose proof (Primes_le k (MaxLayerCount tg - 1) q pmax
                      ltac:(lia) ltac:(lia) Hq Hmax). lia.
      * intros k Hk. rewrite Hl0 in Hk. apply Hbefore. lia.
      * exact Hrefj.
      * exists m. split; [lia|]. split; [exact Hbefore|]. split; [exact Hrefj|].
        split; [eapply layer_refused_cases, Hrefj|]. split; [|split; assumption].
        unfold LayeredHashMap_ctor_sized_in. unfold LayeredHashMap_ctor_in in Hin.
        rewrite (bind_step _ _ _ _ _ Hin). exact Hrun.
Qed.

(** X8.  [LayeredHashMap(InitialSize)] with [InitialSize] above the last
    prime of the table: the loop has no bound of its own and ends at the
    first layer that the environment refuses, the [std::length_error] or
    [std::bad_alloc] of the resize leaving the constructor with
    [LayerLastIdx] advanced to that layer; were every layer of the table
    granted, it would read [Primes] past its end.  On the 32-bit table
    the last layer has more slots than any vector can hold
    ([max_size()] is at most [PTRDIFF_MAX = 2^31 - 1]), so the
    constructor throws. *)
Theorem LayeredHashMap_ctor_sized_beyond_table (a : Allocator) (g : ThreadManager)
    (InitialSize pmax : Z) :
  Primes tg (MaxLayerCount tg - 1) = Some pmax -> pmax < InitialSize ->
  (((forall j, 0 <= j < MaxLayerCount tg -> layer_refused' a j = None) /\
    LayeredHashMap_ctor_sized_in tg K_new T_new a g InitialSize
    = Undefined TableOutOfRange)
   \/
   (exists j e m,
      0 <= j < MaxLayerCount tg /\
      (forall k, 0 <= k < j -> layer_refused' a k = None) /\
      layer_refused' a j = Some e /\
      (e = length_error \/ e = bad_alloc) /\
      LayeredHashMap_ctor_sized_in tg K_new T_new a g InitialSize = Thrown e m /\
      LayerLastIdx m = j /\ Slots m !! Z.to_nat j = Some [])) /\
  (word tg = W32 -> max_size a < 2 ^ 31 ->
   exists e m,
     (e = length_error \/ e = bad_alloc) /\
     LayeredHashMap_ctor_sized_in tg K_new T_new a g InitialSize = Thrown e m).
Proof.
  intros Hmax Hlt.
  pose proof (LayeredHashMap_ctor_sized_in_beyond a g InitialSize pmax Hmax Hlt) as Hcases.
  split; [exact Hcases|].
  intros Hw Hms.
  destruct Hcases as [[Hall _]|(j & e & m & _ & _ & _ & He & Hrun & _)].
  - exfalso.
    assert (Hlast : layer_refused' a 22 = Some length_error).
    { assert (Hsz : layer_size tg 22 = Some 2147483662).
      { clear -Hw. destruct tg as [[] pl]; [reflexivity|discriminate Hw]. }
      unfold layer_refused. rewrite Hsz. cbn. unfold refused.
      destruct (Z.ltb_spec (max_size a) 2147483662) as [_|Hge]; [reflexivity|lia]. }
    rewrite Hall in Hlast; [discriminate|].
    unfold MaxLayerCount. rewrite Hw. lia.
  - exists e, m. split; assumption.
Qed.

(** ** Slot addressing *)

Lemma Primes_nonneg (i p : Z) :
  -1 <= i < MaxLayerCount tg -> Primes tg i = Some p -> 0 <= p.
Proof.
  intros Hi Hp. destruct (decide (i = -1)) as [->|Hne].
  - rewrite Primes_minus_one in Hp. injection Hp as <-. lia.
  - destruct (Primes_in_range i) as (q & Hq & Hpos); [lia|].
    rewrite Hp in Hq. injection Hq as ->. lia.
Qed.

(** X2.  For a table whose last layer is [last], slot addressing is a
    bijection between the raw hashes below [Primes[last]] and the slots
    of the layers [0 .. last]: two raw hashes with the same layer and
    offset are equal, and the slot at offset [off] of layer [L] is the
    address of the raw hash [Primes[L-1] + off]. *)
Theorem slot_address_bijective (last pl : Z) :
  0 <= last < MaxLayerCount tg -> Primes tg last = Some pl ->
  (forall rh1 rh2, 0 <= rh1 < pl -> 0 <= rh2 < pl ->
     slot_address tg rh1 = slot_address tg rh2 -> rh1 = rh2) /\
  (forall L lo hi off, 0 <= L <= last ->
     Primes tg (L - 1) = Some lo -> Primes tg L = Some hi -> 0 <= off < hi - lo ->
     slot_address tg (lo + off) = Some (L, off)).
Proof.
  intros Hlast Hpl.
  assert (Haddr : forall rh, 0 <= rh < pl ->
            exists layer lo hi,
              0 <= layer <= last /\
              slot_address tg rh = Some (layer, rh - lo) /\
              Primes tg (layer - 1) = Some lo /\ Primes tg layer = Some hi /\
              lo <= rh < hi).
  { intros rh Hrh.
    destruct (address_spec tg last pl rh Hlast Hpl Hrh)
      as (layer & lo & hi & Hl & HGL & HGS & Hlo & Hhi & Hb).
    exists layer, lo, hi. split; [exact Hl|]. split; [|auto].
    unfold slot_address. rewrite HGL. cbn. rewrite HGS. reflexivity. }
  split.
  - intros rh1 rh2 H1 H2 E.
    destruct (Haddr rh1 H1) as (l1 & lo1 & hi1 & _ & Ha1 & Hlo1 & _).
    destruct (Haddr rh2 H2) as (l2 & lo2 & hi2 & _ & Ha2 & Hlo2 & _).
    rewrite Ha1, Ha2 in E. injection E as -> E.
    rewrite Hlo1 in Hlo2. injection Hlo2 as ->. lia.
  - intros L lo hi off HL Hlo Hhi Hoff.
    pose proof (Primes_nonneg (L - 1) lo ltac:(lia) Hlo) as Hlo0.
    pose proof (Primes_le L last hi pl ltac:(lia) ltac:(lia) Hhi Hpl) as Hhp.
    destruct (Haddr (lo + off) ltac:(lia)) as (l' & lo' & hi' & Hl' & Ha & Hlo' & Hhi' & Hb).
    assert (l' = L) as ->.
    { destruct (Z.lt_trichotomy l' L) as [Hlt|[E|Hgt]]; [|exact E|].
      - pose proof (Primes_le l' (L - 1) hi' lo ltac:(lia) ltac:(lia) Hhi' Hlo). lia.
      - pose proof (Primes_le L (l' - 1) hi lo' ltac:(lia) ltac:(lia) Hhi Hlo'). lia. }
    rewrite Hlo in Hlo'. injection Hlo' as <-.
    rewrite Ha. do 2 f_equal. lia.
Qed.

Lemma locate_hash_zero (Key : K) m :
  well_formed' m -> to_uInt tg (Hash Key) = 0 -> locate' Key m = Returned (0, 0) m.
Proof.
  intros (_ & Hlast & _) H0.
  destruct (Primes_in_range _ Hlast) as (p & Hp & Hpos).
  unfold locate. rewrite bind_get, H0.
  rewrite (RawHash_small _ p 0 Hlast Hp) by lia. cbn [checked]. rewrite bind_ret.
  assert (HL : GetLayer tg 0 = Some 0) by (destruct tg as [[] []]; reflexivity).
  assert (HS : GetSlot tg 0 0 = Some 0) by (destruct tg as [[] []]; reflexivity).
  rewrite HL. cbn [checked]. rewrite bind_ret, HS. reflexivity.
Qed.

(** ** The pool of instances *)

Lemma total_pairs_slots_new m :
  (forall l i s, layer_slot m l i = Some s -> s = Slot_new') -> total_pairs' m = 0.
Proof.
  intros H. unfold total_pairs. apply sum_with_zero. intros v Hv.
  apply list_elem_of_lookup in Hv as [l Hv].
  apply sum_with_zero. intros s Hs. apply list_elem_of_lookup in Hs as [i Hs].
  rewrite (H l i s); [reflexivity|]. unfold layer_slot. rewrite Hv. exact Hs.
Qed.

(** X13.  When a map is destroyed and the next map is constructed, the
    new map gets the instance index of the old one and its manager, on
    which [Reset] has cleared [DTOR_ThreadValuesSum] and left the
    counters registered: the new map holds no pair and its [GetSize]
    returns the sum of the values of the counters of the old map. *)
Theorem map_on_Reset_manager (w : Process) (InstanceIdx : nat) m :
  (InstanceIdx < length (Managers w))%nat ->
  ManagerLock (Manager m) = false ->
  exists m2 w',
    LayeredHashMap_construct tg K_new T_new (LayeredHashMap_destruct InstanceIdx m w)
    = Some (InstanceIdx, m2, w') /\
    AvailableInstanceIdx w' = AvailableInstanceIdx w /\
    Manager m2 = ThreadManager_Reset (Manager m) /\
    total_pairs' m2 = 0 /\
    @GetSize tg K T m2
    = Returned (to_uInt tg (sum_with Value (ThreadValues (Manager m)))) m2.
Proof.
  intros Hidx Hml.
  destruct (LayeredHashMap_ctor_well_formed (ThreadManager_Reset (Manager m)))
    as (m2 & Hc & Hwf & Hl & Hmg).
  exists m2. eexists. split; [|split; [|split; [|split]]].
  - unfold LayeredHashMap_construct, LayeredHashMap_destruct.
    cbn [AvailableInstanceIdx Managers push_front pop_front mbind option_bind].
    rewrite list_lookup_insert_eq by exact Hidx. cbn [mbind option_bind].
    rewrite Hc. reflexivity.
  - reflexivity.
  - exact Hmg.
  - apply total_pairs_slots_new. eapply LayeredHashMap_ctor_slots_new, Hc.
  - unfold GetSize. rewrite GetGlobalValue_run by (rewrite Hmg; cbn; auto).
    rewrite Hmg, GlobalValue_sum_Value. cbn. rewrite Z.add_0_r. reflexivity.
Qed.

Lemma construct_many_pool (Data : list nat) (Ms : list ThreadManager) :
  (forall i, i ∈ Data -> (i < length Ms)%nat) ->
  construct_many tg K_new T_new (length Data)
    {| AvailableInstanceIdx := Data; Managers := Ms |}
  = Some (Data, {| AvailableInstanceIdx := []; Managers := Ms |}).
Proof.
  induction Data as [|i Data IH]; intros Hb; [reflexivity|].
  cbn [length construct_many].
  assert (Hi : is_Some (Ms !! i)) by (apply lookup_lt_is_Some, Hb; left).
  destruct Hi as [g Hg].
  destruct (LayeredHashMap_ctor_well_formed g) as (m & Hc & _).
  unfold LayeredHashMap_construct at 1.
  cbn [AvailableInstanceIdx Managers pop_front mbind option_bind].
  rewrite Hg. cbn [mbind option_bind]. rewrite Hc. cbn [mbind option_bind].
  rewrite IH by (intros j Hj; apply Hb; right; exact Hj). reflexivity.
Qed.

(** X14.  From the start of the process, [MAX_INSTANCE_COUNT] maps can
    be constructed; they get the instance indices
    [MAX_INSTANCE_COUNT - 1, ..., 0], in this order.  With all of them
    alive the pool is empty and the constructor of one more map takes
    [front()] of an empty list: the behaviour is undefined, no error is
    raised. *)
Theorem instance_pool_exhausted :
  exists w,
    construct_many tg K_new T_new MAX_INSTANCE_COUNT Process_start
    = Some (rev (seq 0 MAX_INSTANCE_COUNT), w) /\
    LayeredHashMap_construct tg K_new T_new w = None.
Proof.
  assert (Hl : ConcurrentList_ctor = rev (seq 0 MAX_INSTANCE_COUNT))
    by (vm_compute; reflexivity).
  exists {| AvailableInstanceIdx := [];
            Managers := replicate MAX_INSTANCE_COUNT ThreadManager_new |}.
  split; [|reflexivity].
  unfold Process_start. rewrite Hl.
  replace MAX_INSTANCE_COUNT
    with (length (rev (seq 0 MAX_INSTANCE_COUNT))) at 1
    by (rewrite length_rev, length_seq; reflexivity).
  apply construct_many_pool.
  intros i Hi. rewrite length_replicate.
  apply list_elem_of_In, in_rev, in_seq in Hi. lia.
Qed.

(** ** Operations one after the other *)

Lemma Write_slots self (Key : K) (Val : T) m u m' :
  well_formed' m -> slots_inv' m ->
  Write' self Key Val m = Returned u m' ->
  exists L I s s',
    locate' Key m = Returned (L, I) m /\
    slot_at m L I = Some s /\ slot_at m' L I = Some s' /\
    stored' s' = write_pairs Pred Key Val (stored' s) /\
    (forall l i x, layer_slot m' l i = Some x ->
       (l, i) = (Z.to_nat L, Z.to_nat I) \/
       layer_slot m l i = Some x \/ x = Slot_new').
Proof.
  intros Hwf Hinv H. unfold Write in H.
  apply bind_Returned in H as ([L I] & m0 & Hloc & H).
  pose proof (locate_Returned _ _ _ _ Hloc) as ->.
  destruct (locate_run m Key Hwf) as (L0 & I0 & sx & Hloc0 & HL & HI & _).
  rewrite Hloc in Hloc0. injection Hloc0 as <- <-.
  apply bind_Returned in H as (status & m1 & Hctor & H).
  apply (WriteWrapper_ctor_Returned _ _ _ _ _ Hinv) in Hctor
    as (s0 & Hs0 & -> & Hmg1 & Hch1).
  apply bind_Returned in H as (s1 & m1' & Hload & H).
  apply slot_load_Returned in Hload as [Hs1 ->].
  pose proof (slot_changed_mid _ _ _ _ _ _ _ Hch1 Hs1) as ->.
  cbn [Main Collisions set_Lock] in H.
  apply bind_Returned in H as (u3 & m3 & Hbody & Hdtor).
  apply (Write_body_Returned _ _ _ _ _ _ _ _ _ Hs0 Hs1) in Hbody
    as (m2 & s2 & Hch2 & Hg & Hst).
  apply WriteWrapper_dtor_Returned in Hdtor as (s3 & Hch3 & Hmg3).
  pose proof (slot_changed_trans _ _ _ _ _ _ _ _ _ Hch1 Hch2) as Hch12.
  pose proof (slot_changed_wf _ _ _ _ _ _ Hch12 Hwf) as Hwf2.
  assert (Hlast2 : 0 <= LayerLastIdx m2 < MaxLayerCount tg) by apply Hwf2.
  assert (Hl2 : LayerLastIdx m2 = LayerLastIdx m) by apply Hch12.
  assert (Hs3 : s3 = s2).
  { destruct Hch3 as (Ha & _). destruct Hch12 as (_ & Hb & _).
    rewrite (grown_slot_below m2 m3 L I Hlast2 Hg) in Ha by lia. congruence. }
  subst s3.
  exists L, I, s0, (set_Lock POPULATED s2).
  split; [exact Hloc|]. split; [apply Hch1|]. split; [apply Hch3|].
  split; [exact Hst|].
  intros l i x Hx.
  destruct (decide ((l, i) = (Z.to_nat L, Z.to_nat I))) as [E|Hne]; [left; exact E|].
  right. destruct Hch3 as (_ & _ & Hc3 & _). destruct Hch12 as (_ & _ & Hc12 & _).
  rewrite Hc3 in Hx by exact Hne.
  apply (grown_slot_origin m2 m3 _ _ _ Hg) in Hx as [Hx| ->]; [|right; reflexivity].
  left. rewrite <- Hc12 by exact Hne. exact Hx.
Qed.

Lemma find_if_None_snoc {A} (p : A -> bool) (ps : list A) (y : A) :
  p y = false -> find_if p (ps ++ [y]) = find_if p ps.
Proof.
  intros Hy. induction ps as [|a ps IH]; [cbn; rewrite Hy; reflexivity|].
  change ((a :: ps) ++ [y]) with (a :: (ps ++ [y])). cbn [find_if].
  rewrite IH. reflexivity.
Qed.

Lemma find_if_insert_other {A} (p : A -> bool) (ps : list A) (j : nat) (x y : A) :
  ps !! j = Some x -> p x = false -> p y = false ->
  find_if p (<[j := y]> ps) = find_if p ps.
Proof.
  revert j. induction ps as [|a ps IH]; intros [|j] Hj Hx Hy; try discriminate.
  - injection Hj as ->. change (<[0%nat := y]> (x :: ps)) with (y :: ps).
    cbn [find_if]. rewrite Hx, Hy. reflexivity.
  - change (<[S j := y]> (a :: ps)) with (a :: <[j := y]> ps).
    cbn [find_if]. rewrite (IH j Hj Hx Hy). reflexivity.
Qed.

Lemma find_if_Some {A} (p : A -> bool) (ps : list A) (i : nat) (x : A) :
  find_if p ps = Some (i, x) ->
  ps !! i = Some x /\ p x = true /\
  forall j y, (j < i)%nat -> ps !! j = Some y -> p y = false.
Proof.
  revert i. induction ps as [|a ps IH]; intros i H; [discriminate|].
  cbn [find_if] in H. destruct (p a) eqn:Ea.
  - injection H as <- <-. split; [reflexivity|]. split; [exact Ea|]. lia.
  - destruct (find_if p ps) as [[k z]|] eqn:Ef; [|discriminate].
    injection H as <- <-. destruct (IH k eq_refl) as (Hk & Hz & Hbefore).
    split; [exact Hk|]. split; [exact Hz|].
    intros [|j] y Hj Hy; [injection Hy as <-; exact Ea|].
    eapply (Hbefore j); [lia|exact Hy].
Qed.

Lemma find_if_None {A} (p : A -> bool) (ps : list A) :
  find_if p ps = None <-> forall j y, ps !! j = Some y -> p y = false.
Proof.
  induction ps as [|a ps IH]; [split; [intros _ j y Hy; discriminate|reflexivity]|].
  cbn [find_if]. destruct (p a) eqn:Ea.
  - split; [discriminate|]. intros H. specialize (H 0%nat a eq_refl). congruence.
  - destruct (find_if p ps) as [[k z]|] eqn:Ef.
    + split; [discriminate|]. intros H. exfalso.
      assert (Hn : @None (nat * A) = None) by reflexivity.
      destruct IH as [_ IH2]. discriminate IH2.
      intros j y Hy. apply (H (S j) y Hy).
    + split; [|reflexivity]. intros _ [|j] y Hy; [injection Hy as <-; exact Ea|].
      destruct IH as [IH1 _]. eapply (IH1 eq_refl j), Hy.
Qed.

Lemma delete_pairs_snoc (Key : K) (ps : list (K * T)) (kv : K * T) :
  find_if (key_is Pred Key) ps = None -> key_is Pred Key kv = true ->
  delete_pairs Pred Key (ps ++ [kv]) = ps.
Proof.
  intros Hn Hkv. unfold delete_pairs. unfold Pair in *.
  rewrite (find_if_snoc_found _ _ _ Hn Hkv), last_snoc.
  replace (length ps) with (length ps + 0)%nat by lia.
  rewrite insert_app_r. cbn. apply removelast_last.
Qed.

Lemma holds_key_false (Key : K) (ps : list (@Pair K T)) :
  holds_key' Key ps = false <-> find_if (key_is Pred Key) ps = None.
Proof.
  unfold holds_key. destruct (find_if (key_is Pred Key) ps) as [[i kv]|];
    split; intros H; try discriminate H; reflexivity.
Qed.

Lemma Read_absent (Key : K) m (L I : Z) s :
  well_formed' m -> slots_inv' m ->
  locate' Key m = Returned (L, I) m -> slot_at m L I = Some s ->
  find_if (key_is Pred Key) (stored' s) = None ->
  Read' Key m = Thrown out_of_range m.
Proof.
  intros Hwf Hinv Hloc Hs Hn.
  destruct (Read_spec Key m Hwf Hinv) as (L' & I' & s' & Hloc' & Hs' & ->).
  rewrite Hloc in Hloc'. injection Hloc' as <- <-.
  rewrite Hs in Hs'. injection Hs' as <-. rewrite Hn. reflexivity.
Qed.

(** X16.  A key that the slot it addresses does not hold is written and
    then deleted, the [Write] not growing the table: [Delete] returns
    [true], the slot holds the pairs it held before the [Write], and
    [Read] of the key throws. *)
Theorem Write_then_Delete self (Key : K) (Val : T) m u m1 (L I : Z) s :
  well_formed' m -> slots_inv' m -> quiescent' self m ->
  Pred Key Key = true ->
  locate' Key m = Returned (L, I) m -> slot_at m L I = Some s ->
  holds_key' Key (stored' s) = false ->
  Write' self Key Val m = Returned u m1 ->
  LayerLastIdx m1 = LayerLastIdx m ->
  exists m2 s2,
    Delete' self Key m1 = Returned true m2 /\
    slot_at m2 L I = Some s2 /\ stored' s2 = stored' s /\
    Read' Key m2 = Thrown out_of_range m2.
Proof.
  intros Hwf Hinv Hq Hrefl Hloc Hs Hh HW Hl.
  apply holds_key_false in Hh.
  destruct (Write_Returned _ _ _ _ _ _ Hwf Hinv HW)
    as (L' & I' & s0 & s1 & Hloc' & Hs0 & Hs1 & _ & Hst & Hinv1 & Hwf1 & _).
  rewrite Hloc in Hloc'. injection Hloc' as <- <-.
  rewrite Hs in Hs0. injection Hs0 as <-.
  destruct (Write_Manager _ _ _ _ _ _ Hwf Hinv HW) as (L3 & I3 & s3 & _ & _ & Hcnt).
  pose proof (counted_step_quiescent _ _ _ _ Hq Hcnt) as Hq1.
  destruct (Delete_returns self Key m1 Hwf1 Hinv1 Hq1) as (r & m2 & HD).
  destruct (Delete_Returned _ _ _ _ _ Hinv1 HD)
    as (L2 & I2 & s1' & s2 & Hloc2 & Hch & Hs2 & Hst2 & Hr).
  rewrite (locate_same_LayerLastIdx Key m m1 (L, I) Hl Hloc) in Hloc2.
  injection Hloc2 as <- <-.
  assert (s1' = s1) as -> by (destruct Hch as (Ha & _); congruence).
  unfold write_pairs in Hst. rewrite Hh in Hst.
  rewrite Hst in Hst2, Hr.
  assert (Hkv : key_is Pred Key (Key, Val) = true) by exact Hrefl.
  unfold Pair in *.
  rewrite (find_if_snoc_found _ _ _ Hh Hkv) in Hr. subst r.
  rewrite (delete_pairs_snoc Key _ _ Hh Hkv) in Hst2.
  exists m2, s2. split; [exact HD|]. split; [apply Hch|]. split; [exact Hst2|].
  apply (Read_absent Key m2 L I s2).
  - eapply slot_changed_wf; eassumption.
  - eapply slot_changed_inv; eassumption.
  - apply (locate_same_LayerLastIdx Key m m2 (L, I)); [|exact Hloc].
    destruct Hch as (_ & _ & _ & _ & Hl2). congruence.
  - apply Hch.
  - rewrite Hst2. exact Hh.
Qed.

Lemma find_if_write_pairs_other (Key Key' : K) (Val : T) (ps : list (@Pair K T)) :
  Pred Key Key' = false ->
  (forall a, Pred a Key = true -> Pred a Key' = false) ->
  find_if (key_is Pred Key') (write_pairs Pred Key Val ps)
  = find_if (key_is Pred Key') ps.
Proof.
  intros Hkk Hdisj. unfold write_pairs.
  destruct (find_if (key_is Pred Key) ps) as [[i kv]|] eqn:Ef.
  - apply find_if_Some in Ef as (Hi & Hkv & _).
    apply (find_if_insert_other _ _ _ kv); [exact Hi| |]; apply Hdisj, Hkv.
  - apply find_if_None_snoc. exact Hkk.
Qed.

(** X18.  A [Write] of a key that does not grow the table changes the
    result of no [Read] of another key: when [Pred] tells the two keys
    apart, and no key is equal to both, [Read] of the other key returns
    the value, or throws, as it did before the [Write]. *)
Theorem Write_keeps_other_keys self (Key Key' : K) (Val : T) m u m' :
  well_formed' m -> slots_inv' m ->
  Pred Key Key' = false ->
  (forall a, Pred a Key = true -> Pred a Key' = false) ->
  Write' self Key Val m = Returned u m' ->
  LayerLastIdx m' = LayerLastIdx m ->
  Read' Key' m' =
    match Read' Key' m with
    | Returned v _ => Returned v m'
    | Thrown e _ => Thrown e m'
    | o => o
    end.
Proof.
  intros Hwf Hinv Hkk Hdisj HW Hl.
  destruct (Write_Returned _ _ _ _ _ _ Hwf Hinv HW)
    as (L & I & s0 & s1 & Hloc & Hs0 & Hs1 & _ & Hst & Hinv' & Hwf' & _ & Hframe).
  destruct (locate_run m Key' Hwf) as (L' & I' & sx & Hloc' & HL' & _ & _).
  destruct (Read_spec Key' m Hwf Hinv) as (L1 & I1 & s & Hloc1 & Hs & ->).
  destruct (Read_spec Key' m' Hwf' Hinv') as (L2 & I2 & s' & Hloc2 & Hs' & ->).
  rewrite Hloc' in Hloc1. injection Hloc1 as <- <-.
  rewrite (locate_same_LayerLastIdx Key' m m' (L', I') Hl Hloc') in Hloc2.
  injection Hloc2 as <- <-.
  assert (Hf : find_if (key_is Pred Key') (stored' s')
               = find_if (key_is Pred Key') (stored' s)).
  { destruct (decide ((Z.to_nat L', Z.to_nat I') = (Z.to_nat L, Z.to_nat I)))
      as [E|Hne].
    - injection E as EL EI. unfold slot_at in *. rewrite EL, EI in Hs, Hs'.
      rewrite Hs0 in Hs. rewrite Hs1 in Hs'. injection Hs as <-. injection Hs' as <-.
      rewrite Hst. apply find_if_write_pairs_other; assumption.
    - rewrite (Hframe L' I' HL' Hne) in Hs'. rewrite Hs in Hs'. injection Hs' as <-.
      reflexivity. }
  rewrite Hf. destruct (find_if (key_is Pred Key') (stored' s)) as [[i kv]|]; reflexivity.
Qed.

(** X15.  [Write] by a thread whose counter is registered returns
    while the table can still grow, and when it did not grow the table
    the value written is read back: [Read] of the key returns it,
    provided [Pred] holds of the key and itself. *)
Theorem Write_is_read_back self (Key : K) (Val : T) m :
  well_formed' m -> slots_inv' m -> quiescent' self m ->
  LayerLastIdx m + 1 < MaxLayerCount tg ->
  Pred Key Key = true ->
  exists m',
    Write' self Key Val m = Returned tt m' /\
    (LayerLastIdx m' = LayerLastIdx m -> Read' Key m' = Returned Val m').
Proof.
  intros Hwf Hinv Hq Hlt Hrefl.
  destruct (Write_returns self Key Val m Hwf Hinv Hq Hlt) as (m' & HW).
  exists m'. split; [exact HW|]. intros Hl.
  destruct (Write_Returned _ _ _ _ _ _ Hwf Hinv HW)
    as (L & I & s & s' & Hloc & Hs & Hs' & HP & Hst & Hinv' & Hwf' & _).
  destruct (Read_spec Key m' Hwf' Hinv') as (L' & I' & s'' & Hloc' & Hs'' & ->).
  rewrite (locate_same_LayerLastIdx Key m m' (L, I) Hl Hloc) in Hloc'.
  injection Hloc' as <- <-. rewrite Hs' in Hs''. injection Hs'' as <-.
  rewrite Hst.
  destruct (find_if_write_pairs Key Val (stored' s) Hrefl) as (i & kv & -> & <-).
  reflexivity.
Qed.

(** X17.  [Delete] of a key that the slot it addresses does not hold
    returns [false] and leaves the map, its locks and its counters as
    they were; [Read] of the key throws. *)
Theorem Delete_of_absent_key self (Key : K) m (L I : Z) s :
  well_formed' m -> slots_inv' m ->
  locate' Key m = Returned (L, I) m -> slot_at m L I = Some s ->
  holds_key' Key (stored' s) = false ->
  Delete' self Key m = Returned false m /\
  Read' Key m = Thrown out_of_range m.
Proof.
  intros Hwf Hinv Hloc Hs Hh. apply holds_key_false in Hh.
  split; [|eapply Read_absent; eassumption].
  eapply Delete_absent; eassumption.
Qed.

(** ** The keys of a slot *)

Section EqualKeys.

(** [Pred] is [std::equal_to] on keys with a decidable equality. *)
Hypothesis Pred_eq : forall a b : K, Pred a b = true <-> a = b.

#[local] Abbreviation keys_distinct' := (@keys_distinct K T).

Lemma key_is_eq (Key : K) (kv : K * T) : key_is Pred Key kv = true <-> fst kv = Key.
Proof. unfold key_is. apply Pred_eq. Qed.

Lemma find_if_None_keys (Key : K) (ps : list (@Pair K T)) :
  find_if (key_is Pred Key) ps = None <-> Key ∉ fst <$> ps.
Proof.
  rewrite find_if_None. split.
  - intros H Hin. apply list_elem_of_fmap in Hin as (kv & -> & Hkv).
    apply list_elem_of_lookup in Hkv as [j Hj].
    specialize (H j kv Hj).
    assert (key_is Pred (fst kv) kv = true) by (apply key_is_eq; reflexivity).
    congruence.
  - intros H j kv Hj. destruct (key_is Pred Key kv) eqn:E; [|reflexivity].
    exfalso. apply H. apply key_is_eq in E. subst Key.
    apply list_elem_of_fmap. exists kv. split; [reflexivity|].
    eapply list_elem_of_lookup_2, Hj.
Qed.

Lemma NoDup_write_pairs (Key : K) (Val : T) (ps : list (@Pair K T)) :
  NoDup (fst <$> ps) -> NoDup (fst <$> write_pairs Pred Key Val ps).
Proof.
  intros Hnd. unfold write_pairs. unfold Pair in *.
  match goal with
  | |- context [@find_if ?A ?p ?l] => destruct (@find_if A p l) as [[i kv]|] eqn:Ef
  end; cbv beta iota.
  - apply find_if_Some in Ef as (Hi & _ & _).
    rewrite list_fmap_insert. cbn [fst].
    rewrite list_insert_id; [exact Hnd|].
    rewrite list_lookup_fmap, Hi. reflexivity.
  - rewrite fmap_app. apply NoDup_app. split; [exact Hnd|]. split.
    + intros x Hx Hx'. apply list_elem_of_singleton in Hx'. cbn in Hx'. subst x.
      apply find_if_None_keys in Ef. contradiction.
    + apply NoDup_singleton.
Qed.

Lemma NoDup_insert_snoc {A} (l : list A) (i : nat) (a : A) :
  NoDup (l ++ [a]) -> NoDup (<[i := a]> l).
Proof.
  intros Hnd. apply NoDup_app in Hnd as (Hl & Hdisj & _).
  destruct (decide (i < length l)%nat) as [Hi|Hi];
    [|rewrite list_insert_ge by lia; exact Hl].
  assert (Ha : a ∉ l).
  { intros Hin. apply (Hdisj a Hin). apply list_elem_of_singleton. reflexivity. }
  apply NoDup_alt. intros j1 j2 x H1 H2.
  destruct (decide (j1 = i)) as [->|N1], (decide (j2 = i)) as [->|N2];
    [reflexivity| | |].
  - rewrite list_lookup_insert_eq in H1 by exact Hi. injection H1 as <-.
    rewrite list_lookup_insert_ne in H2 by congruence.
    exfalso. apply Ha. eapply list_elem_of_lookup_2, H2.
  - rewrite list_lookup_insert_eq in H2 by exact Hi. injection H2 as <-.
    rewrite list_lookup_insert_ne in H1 by congruence.
    exfalso. apply Ha. eapply list_elem_of_lookup_2, H1.
  - rewrite list_lookup_insert_ne in H1 by congruence.
    rewrite list_lookup_insert_ne in H2 by congruence.
    eapply NoDup_lookup; eassumption.
Qed.

Lemma delete_pairs_cases (Key : K) (ps : list (@Pair K T)) :
  delete_pairs Pred Key ps = ps /\ find_if (key_is Pred Key) ps = None \/
  exists i kv qs x,
    find_if (key_is Pred Key) ps = Some (i, kv) /\ ps = qs ++ [x] /\
    ((length qs <= i)%nat /\ delete_pairs Pred Key ps = qs \/
     (i < length qs)%nat /\ delete_pairs Pred Key ps = <[i := x]> qs).
Proof.
  unfold delete_pairs. unfold Pair in *.
  match goal with
  | |- context [@find_if ?A ?p ?l] => destruct (@find_if A p l) as [[i kv]|] eqn:Ef
  end; cbv beta iota; [|left; auto].
  right. destruct (find_if_last _ _ _ _ Ef) as [x Hx]. rewrite Hx.
  apply last_Some in Hx as [qs ->].
  exists i, kv, qs, x. split; [reflexivity|]. split; [reflexivity|].
  destruct (decide (i < length qs)%nat) as [Hi|Hi].
  - right. split; [exact Hi|]. rewrite insert_app_l by exact Hi.
    apply removelast_last.
  - left. split; [lia|].
    destruct (decide (i = length qs)) as [->|Hne].
    + replace (length qs) with (length qs + 0)%nat at 1 by lia.
      rewrite insert_app_r. cbn. apply removelast_last.
    + rewrite list_insert_ge by (rewrite length_app; cbn; lia).
      apply removelast_last.
Qed.

Lemma NoDup_delete_pairs (Key : K) (ps : list (@Pair K T)) :
  NoDup (fst <$> ps) -> NoDup (fst <$> delete_pairs Pred Key ps).
Proof.
  intros Hnd.
  destruct (delete_pairs_cases Key ps)
    as [[-> _]|(i & kv & qs & x & _ & -> & [[_ ->]|[_ ->]])]; [exact Hnd| |].
  - rewrite fmap_app in Hnd. apply NoDup_app in Hnd as (Hl & _). exact Hl.
  - rewrite fmap_app in Hnd. rewrite list_fmap_insert.
    apply NoDup_insert_snoc. exact Hnd.
Qed.

(** Once deleted, a key is not held any more. *)
Lemma find_if_delete_pairs (Key : K) (ps : list (@Pair K T)) :
  NoDup (fst <$> ps) -> find_if (key_is Pred Key) (delete_pairs Pred Key ps) = None.
Proof.
  intros Hnd.
  destruct (delete_pairs_cases Key ps)
    as [[-> Hn]|(i & kv & qs & x & Hf & -> & Hcase)]; [exact Hn|].
  apply find_if_Some in Hf as (Hi & Hkv & _). apply key_is_eq in Hkv.
  unfold Pair in *.
  assert (Hat : forall j y, (qs ++ [x]) !! j = Some y -> fst y = Key -> j = i).
  { intros j y Hj Hy.
    eapply (NoDup_lookup _ _ _ Key Hnd);
      rewrite list_lookup_fmap; [rewrite Hj|rewrite Hi]; cbn; congruence. }
  apply find_if_None. intros j y Hj.
  destruct (key_is Pred Key y) eqn:E; [exfalso|reflexivity].
  apply key_is_eq in E.
  destruct Hcase as [[Hle Heq]|[Hlt Heq]]; rewrite Heq in Hj.
  - pose proof (lookup_lt_Some _ _ _ Hj) as Hjl.
    assert (j = i); [|lia].
    apply (Hat j y); [|exact E]. rewrite lookup_app_l by exact Hjl. exact Hj.
  - destruct (decide (j = i)) as [->|Hne].
    + rewrite list_lookup_insert_eq in Hj by exact Hlt. injection Hj as <-.
      assert (length qs = i); [|lia].
      apply (Hat (length qs) x); [|exact E].
      rewrite lookup_app_r by lia. rewrite Nat.sub_diag. reflexivity.
    + rewrite list_lookup_insert_ne in Hj by congruence.
      apply Hne. apply (Hat j y); [|exact E].
      rewrite lookup_app_l by (eapply lookup_lt_Some, Hj). exact Hj.
Qed.

Lemma keys_distinct_slots_new m :
  (forall l i s, layer_slot m l i = Some s -> s = Slot_new') -> keys_distinct' m.
Proof. intros H l i s Hs. rewrite (H l i s Hs). apply NoDup_nil_2. Qed.

Lemma keys_distinct_grown m m' : grown' m m' -> keys_distinct' m -> keys_distinct' m'.
Proof.
  intros Hg H l i x Hx.
  apply (grown_slot_origin m m' _ _ _ Hg) in Hx as [Hx| ->].
  - eapply H, Hx.
  - apply NoDup_nil_2.
Qed.

Lemma grow_until_keys_distinct (fuel : nat) (InitialSize : Z) m u m' :
  keys_distinct' m ->
  grow_until tg K_new T_new fuel InitialSize m = Returned u m' ->
  keys_distinct' m'.
Proof.
  revert m. induction fuel as [|fuel IH]; intros m Hk H; [discriminate H|].
  cbn [grow_until] in H. rewrite bind_get in H.
  apply bind_Returned in H as (p & m0 & Hp & H).
  apply checked_Returned in Hp as [Hp ->].
  destruct (p <? InitialSize).
  - apply bind_Returned in H as (u1 & m1 & Ha & H).
    eapply IH; [|exact H].
    eapply keys_distinct_grown; [|exact Hk].
    eapply grown_allocated, AllocateLayer_Returned, Ha.
  - apply ret_Returned in H as [_ ->]. exact Hk.
Qed.

Lemma ConstructThreadValue_grown m self m' :
  ConstructThreadValue tg K_new T_new MAX_ERROR_margin m = Returned self m' ->
  grown' m m'.
Proof.
  intros H. unfold ConstructThreadValue in H.
  apply bind_Returned in H as (u1 & m1 & Hlock & H).
  apply ManagerLock_lock_Returned in Hlock as [Hml ->].
  rewrite bind_modify in H.
  apply bind_Returned in H as (u2 & m2 & Hupd & H).
  unfold ManagerLock_unlock in H. rewrite bind_modify, bind_get in H.
  apply ret_Returned in H as [_ ->].
  eapply grown_same_r; [eapply grown_same_l; [|eapply Update_Returned, Hupd]|].
  - split; reflexivity.
  - apply same_table_set_Manager.
Qed.

Lemma Write_keys_distinct self (Key : K) (Val : T) m u m' :
  well_formed' m -> slots_inv' m -> keys_distinct' m ->
  Write' self Key Val m = Returned u m' -> keys_distinct' m'.
Proof.
  intros Hwf Hinv Hk H.
  destruct (Write_slots _ _ _ _ _ _ Hwf Hinv H)
    as (L & I & s & s' & _ & Hs & Hs' & Hst & Horigin).
  intros l i x Hx.
  destruct (Horigin l i x Hx) as [E|[Hm| ->]].
  - injection E as -> ->. unfold slot_at in Hs'. rewrite Hs' in Hx.
    injection Hx as <-. rewrite Hst. apply NoDup_write_pairs. eapply Hk, Hs.
  - eapply Hk, Hm.
  - apply NoDup_nil_2.
Qed.

Lemma Delete_keys_distinct self (Key : K) m r m' :
  slots_inv' m -> keys_distinct' m ->
  Delete' self Key m = Returned r m' -> keys_distinct' m'.
Proof.
  intros Hinv Hk H.
  destruct (Delete_Returned _ _ _ _ _ Hinv H)
    as (L & I & s & s' & _ & (Hs & Hs' & Hframe & _) & _ & Hst & _).
  intros l i x Hx.
  destruct (decide ((l, i) = (Z.to_nat L, Z.to_nat I))) as [E|Hne].
  - injection E as -> ->. unfold slot_at in Hs'. rewrite Hs' in Hx.
    injection Hx as <-. rewrite Hst. apply NoDup_delete_pairs. eapply Hk, Hs.
  - rewrite (Hframe l i Hne) in Hx. eapply Hk, Hx.
Qed.

Lemma reachable_keys_distinct m : reachable' m -> keys_distinct' m.
Proof.
  intros Hr. pose proof (reachable_consistent m Hr) as Hc. revert Hc.
  induction Hr as [g u m Hg H|g IS u m Hg H|m self m' Hr IH H|m self u m' Hr IH H
                  |m self Key Val u m' Hr IH H|m self Key r m' Hr IH H
                  |m Key v m' Hr IH H|m Key e m' Hr IH H|m n m' Hr IH H];
    intros _; try pose proof (reachable_consistent m Hr) as (Hwf & Hinv & _).
  - eapply keys_distinct_slots_new, LayeredHashMap_ctor_slots_new, H.
  - unfold LayeredHashMap_ctor_sized in H.
    apply bind_Returned in H as (u0 & m0 & Hc & H).
    eapply grow_until_keys_distinct; [|exact H].
    eapply keys_distinct_slots_new, LayeredHashMap_ctor_slots_new, Hc.
  - eapply keys_distinct_grown; [eapply ConstructThreadValue_grown, H|].
    apply IH. eapply reachable_consistent, Hr.
  - apply DestructThreadValue_Returned in H as (v & bk & _ & _ & _ & ->).
    apply (IH (reachable_consistent m Hr)).
  - eapply Write_keys_distinct; [exact Hwf|exact Hinv| |exact H].
    apply IH. eapply reachable_consistent, Hr.
  - eapply Delete_keys_distinct; [exact Hinv| |exact H].
    apply IH. eapply reachable_consistent, Hr.
  - destruct (Read_same_state Key m Hwf Hinv) as [Hsame _].
    rewrite (Hsame _ _ H). apply IH. eapply reachable_consistent, Hr.
  - destruct (Read_same_state Key m Hwf Hinv) as [_ Hsame].
    rewrite (Hsame _ _ H). apply IH. eapply reachable_consistent, Hr.
  - apply GetSize_Returned in H as (_ & _ & _ & ->).
    apply IH. eapply reachable_consistent, Hr.
Qed.

(** X19.  With [Pred] the equality of keys, in every state a
    sequential execution reaches a [Delete] that returns leaves the
    key absent: a second [Delete] of the key returns [false] and
    changes nothing, and [Read] of the key throws. *)
Theorem Delete_removes_key self (Key : K) m (r : bool) m' :
  reachable' m ->
  Delete tg Hash Pred self Key m = Returned r m' ->
  Delete tg Hash Pred self Key m' = Returned false m' /\
  Read tg Hash Pred Key m' = Thrown out_of_range m'.
Proof.
  intros Hr H.
  pose proof (reachable_consistent m Hr) as (Hwf & Hinv & _).
  pose proof (reachable_keys_distinct m Hr) as Hk.
  destruct (Delete_Returned _ _ _ _ _ Hinv H)
    as (L & I & s & s' & Hloc & Hch & Hs' & Hst & _).
  pose proof (slot_changed_wf _ _ _ _ _ _ Hch Hwf) as Hwf'.
  pose proof (slot_changed_inv _ _ _ _ _ _ Hch Hinv Hs') as Hinv'.
  assert (Hloc' : locate' Key m' = Returned (L, I) m').
  { apply (locate_same_LayerLastIdx Key m m' (L, I)); [apply Hch|exact Hloc]. }
  assert (Hn : find_if (key_is Pred Key) (stored' s') = None).
  { rewrite Hst. apply find_if_delete_pairs. eapply Hk. apply Hch. }
  split.
  - eapply Delete_absent; try eassumption. apply Hch.
  - eapply Read_absent; try eassumption. apply Hch.
Qed.

(** X20.  With [Pred] the equality of keys, in every state a
    sequential execution reaches the pairs a slot holds have pairwise
    different keys. *)
Theorem slots_hold_distinct_keys m (L I : Z) s :
  reachable' m -> slot_at m L I = Some s -> NoDup (fst <$> stored' s).
Proof. intros Hr Hs. eapply (reachable_keys_distinct m Hr), Hs. Qed.

Lemma find_if_by_key (ps : list (@Pair K T)) (kv : @Pair K T) :
  NoDup (fst <$> ps) -> kv ∈ ps ->
  exists i, find_if (key_is Pred (fst kv)) ps = Some (i, kv).
Proof.
  intros Hnd Hin. apply list_elem_of_lookup in Hin as [j Hj].
  destruct (find_if (key_is Pred (fst kv)) ps) as [[i kv']|] eqn:Ef.
  - exists i. apply find_if_Some in Ef as (Hi & Hk & _). apply key_is_eq in Hk.
    unfold Pair in *.
    assert (i = j).
    { apply (NoDup_lookup _ _ _ (fst kv) Hnd);
        rewrite list_lookup_fmap; [rewrite Hi|rewrite Hj]; cbn; congruence. }
    subst i. rewrite Hi in Hj. injection Hj as ->. reflexivity.
  - exfalso. pose proof (proj1 (find_if_None _ _) Ef j kv Hj) as Hn.
    assert (key_is Pred (fst kv) kv = true) by (apply key_is_eq; reflexivity).
    congruence.
Qed.

Lemma delete_pairs_elem (Key : K) (ps : list (@Pair K T)) (y : @Pair K T) :
  fst y <> Key -> y ∈ delete_pairs Pred Key ps <-> y ∈ ps.
Proof.
  intros Hy.
  destruct (delete_pairs_cases Key ps)
    as [[-> _]|(i & kv & qs & x & Hf & -> & Hcase)]; [reflexivity|].
  apply find_if_Some in Hf as (Hi & Hkv & _). apply key_is_eq in Hkv.
  destruct Hcase as [[Hle ->]|[Hlt ->]].
  - assert (i = length qs) as ->.
    { apply lookup_lt_Some in Hi. rewrite length_app in Hi. cbn in Hi. lia. }
    rewrite lookup_app_r, Nat.sub_diag in Hi by lia. injection Hi as <-.
    rewrite elem_of_app, list_elem_of_singleton. split; [auto|].
    intros [H|H]; [exact H|]. subst y. contradiction.
  - rewrite lookup_app_l in Hi by exact Hlt.
    rewrite elem_of_app, list_elem_of_singleton. split.
    + intros Hin. apply list_elem_of_lookup in Hin as [j Hj].
      destruct (decide (j = i)) as [->|Hne].
      * rewrite list_lookup_insert_eq in Hj by exact Hlt. injection Hj as <-. auto.
      * rewrite list_lookup_insert_ne in Hj by congruence.
        left. eapply list_elem_of_lookup_2, Hj.
    + intros [Hin| ->].
      * apply list_elem_of_lookup in Hin as [j Hj].
        apply (list_elem_of_lookup_2 _ j).
        rewrite list_lookup_insert_ne; [exact Hj|].
        intros <-. rewrite Hi in Hj. injection Hj as <-. contradiction.
      * apply (list_elem_of_lookup_2 _ i).
        apply list_lookup_insert_eq. exact Hlt.
Qed.

Lemma find_if_delete_pairs_other (Key Key' : K) (ps : list (@Pair K T)) :
  NoDup (fst <$> ps) -> Key' <> Key ->
  snd <$> find_if (key_is Pred Key') (delete_pairs Pred Key ps)
  = snd <$> find_if (key_is Pred Key') ps.
Proof.
  intros Hnd Hne.
  destruct (find_if (key_is Pred Key') ps) as [[i kv]|] eqn:Ef.
  - apply find_if_Some in Ef as (Hi & Hk & _). apply key_is_eq in Hk.
    assert (Hin : kv ∈ delete_pairs Pred Key ps).
    { apply delete_pairs_elem; [congruence|]. eapply list_elem_of_lookup_2, Hi. }
    destruct (find_if_by_key _ kv (NoDup_delete_pairs Key ps Hnd) Hin) as [j Hj].
    rewrite Hk in Hj. rewrite Hj. reflexivity.
  - destruct (find_if (key_is Pred Key') (delete_pairs Pred Key ps))
      as [[j kv]|] eqn:Ef'; [exfalso|reflexivity].
    apply find_if_Some in Ef' as (Hj & Hk & _).
    pose proof Hk as Hk'. apply key_is_eq in Hk'.
    assert (Hin : kv ∈ ps).
    { apply (delete_pairs_elem Key); [congruence|]. eapply list_elem_of_lookup_2, Hj. }
    apply list_elem_of_lookup in Hin as [k Hkv].
    pose proof (proj1 (find_if_None _ _) Ef k kv Hkv). congruence.
Qed.

(** X21.  With [Pred] the equality of keys, in every state a
    sequential execution reaches a [Delete] of a key changes the
    result of no [Read] of another key, although it moves the last
    pair of the slot to the place of the pair it removes. *)
Theorem Delete_keeps_other_keys self (Key Key' : K) m (r : bool) m' :
  reachable' m -> Key' <> Key ->
  Delete tg Hash Pred self Key m = Returned r m' ->
  Read tg Hash Pred Key' m' =
    match Read tg Hash Pred Key' m with
    | Returned v _ => Returned v m'
    | Thrown e _ => Thrown e m'
    | o => o
    end.
Proof.
  intros Hr Hne H.
  pose proof (reachable_consistent m Hr) as (Hwf & Hinv & _).
  pose proof (reachable_keys_distinct m Hr) as Hk.
  destruct (Delete_Returned _ _ _ _ _ Hinv H)
    as (L & I & s0 & s1 & Hloc & Hch & Hsi & Hst & _).
  pose proof (slot_changed_wf _ _ _ _ _ _ Hch Hwf) as Hwf'.
  pose proof (slot_changed_inv _ _ _ _ _ _ Hch Hinv Hsi) as Hinv'.
  destruct Hch as (Hs0 & Hs1 & Hframe & _ & Hl).
  destruct (Read_spec Key' m Hwf Hinv) as (L' & I' & s & Hloc' & Hs & ->).
  destruct (Read_spec Key' m' Hwf' Hinv') as (L2 & I2 & s' & Hloc2 & Hs' & ->).
  rewrite (locate_same_LayerLastIdx Key' m m' (L', I') Hl Hloc') in Hloc2.
  injection Hloc2 as <- <-.
  assert (Hf : snd <$> find_if (key_is Pred Key') (stored' s')
               = snd <$> find_if (key_is Pred Key') (stored' s)).
  { destruct (decide ((Z.to_nat L', Z.to_nat I') = (Z.to_nat L, Z.to_nat I)))
      as [E|Hd].
    - injection E as EL EI. unfold slot_at in *. rewrite EL, EI in Hs, Hs'.
      rewrite Hs0 in Hs. rewrite Hs1 in Hs'. injection Hs as <-. injection Hs' as <-.
      rewrite Hst. apply find_if_delete_pairs_other; [|exact Hne].
      eapply Hk, Hs0.
    - unfold slot_at in *. rewrite (Hframe _ _ Hd) in Hs'. rewrite Hs in Hs'.
      injection Hs' as <-. reflexivity. }
  destruct (find_if (key_is Pred Key') (stored' s')) as [[i kv]|],
           (find_if (key_is Pred Key') (stored' s)) as [[j kv']|];
    cbn in Hf; try discriminate Hf; [|reflexivity].
  injection Hf as ->. reflexivity.
Qed.
End EqualKeys.

(** ** A thread registers its counter *)

(** X22.  [ConstructThreadValue] on a map whose manager holds no lock
    and whose table can still grow returns: the counter is appended to
    the registry with the value 0, at the position returned, the values
    of the other counters and the result of [GetSize] are as before, and
    the table is as it was or has one more layer. *)
Theorem ConstructThreadValue_registers m (n : Z) m0 :
  well_formed' m -> LayerLastIdx m + 1 < MaxLayerCount tg ->
  @GetSize tg K T m = Returned n m0 ->
  exists m',
    ConstructThreadValue tg K_new T_new MAX_ERROR_margin m
    = Returned (length (ThreadValues (Manager m))) m' /\
    Value <$> ThreadValues (Manager m') = (Value <$> ThreadValues (Manager m)) ++ [0] /\
    @GetSize tg K T m' = Returned n m' /\
    quiescent' (length (ThreadValues (Manager m))) m' /\
    grown' m m'.
Proof.
  intros Hwf Hlt Hn. apply GetSize_Returned in Hn as (Hml & Hvl & -> & _).
  destruct (ConstructThreadValue_returns m Hwf Hlt Hml Hvl) as (m' & Hrun & Hg & Hq).
  exists m'. split; [exact Hrun|].
  assert (Hvals : DTOR_ThreadValuesSum (Manager m') = DTOR_ThreadValuesSum (Manager m) /\
                  Value <$> ThreadValues (Manager m')
                  = (Value <$> ThreadValues (Manager m)) ++ [0]).
  { pose proof Hrun as H. unfold ConstructThreadValue in H.
    apply bind_Returned in H as (u1 & m1 & Hlock & H).
    apply ManagerLock_lock_Returned in Hlock as [_ ->].
    rewrite bind_modify in H.
    apply bind_Returned in H as (u2 & m2 & Hupd & H).
    unfold ManagerLock_unlock in H. rewrite bind_modify, bind_get in H.
    apply ret_Returned in H as [_ ->].
    pose proof (Update_values _ _ _ Hupd) as (Hd & Hv & _).
    cbn [Manager set_Manager ThreadValues DTOR_ThreadValuesSum set_ManagerLock
         set_ThreadValues] in *.
    split; [exact Hd|]. rewrite Hv, fmap_app. reflexivity. }
  destruct Hvals as [Hd Hv].
  split; [exact Hv|]. split; [|split; [exact Hq|exact Hg]].
  destruct Hq as (_ & Hml' & Hvl').
  unfold GetSize. rewrite (GetGlobalValue_run m' Hml' Hvl'). f_equal.
  rewrite !GlobalValue_sum, Hd, Hv, sum_with_app. f_equal.
  change (sum_with id [0]) with 0. lia.
Qed.

End MapProperties.

(** ** The theorems at concrete inputs *)

Lemma locate_by_LayerLastIdx (tg : target) (Key : Z) (m : Ints.St) (last : Z) (a : Z * Z) :
  LayerLastIdx m = last ->
  (rawHash ← RawHash tg last (to_uInt tg (Ints.Hash Key)); slot_address tg rawHash) = Some a ->
  locate tg Ints.Hash Key m = Returned a m.
Proof.
  intros <- H. unfold locate, bind, get, checked, ret.
  destruct (RawHash tg _ _) as [rawHash|]; [|discriminate]. cbn in H.
  unfold slot_address in H.
  destruct (GetLayer tg rawHash) as [L|]; [|discriminate]. cbn in H.
  destruct (GetSlot tg rawHash L) as [I|]; [|discriminate]. cbn in H.
  injection H as <-. reflexivity.
Qed.

Lemma address_stable_below_prime_witness :
  exists m m' : Ints.St,
    LayeredHashMap_ctor x86_msvc 0 0 ThreadManager_new = Returned tt m /\
    AllocateLayers x86_msvc 0 0 2 m = Returned tt m' /\
    exists a,
      locate x86_msvc Ints.Hash 700 m = Returned a m /\
      locate x86_msvc Ints.Hash 700 m' = Returned a m' /\
      LayerLastIdx m' = LayerLastIdx m + Z.of_nat 2 /\
      forall L I, 0 <= L <= LayerLastIdx m -> slot_at m' L I = slot_at m L I.
Proof.
  destruct (LayeredHashMap_ctor_well_formed x86_msvc (K:=Z) (T:=Z) 0 0 ThreadManager_new)
    as (m & Hc & Hwf & Hl & _).
  destruct (AllocateLayers_run x86_msvc 0 0 2 m Hwf) as (m' & Hrun).
  { rewrite Hl. reflexivity. }
  exists m, m'. split; [exact Hc|]. split; [exact Hrun|].
  apply (address_stable_below_prime x86_msvc Ints.Hash 0 0 m 2 m' 700 757).
  - exact Hwf.
  - rewrite Hl. reflexivity.
  - reflexivity.
  - exact Hrun.
Defined.

(** C2 (as stated): on the 32-bit tables the key 757 is located at layer 0,
    offset 0 in a new map and at layer 1, offset 0 after one
    [AllocateLayer]. *)
Lemma address_not_stable : ~ address_stable x86_msvc Ints.Hash 0 0.
Proof.
  intros H.
  destruct (LayeredHashMap_ctor_well_formed x86_msvc (K:=Z) (T:=Z) 0 0 ThreadManager_new)
    as (m & Hc & Hwf & Hl & _).
  destruct (AllocateLayer_run x86_msvc 0 0 m Hwf)
    as (m' & _ & _ & Hrun & _ & _ & Hl' & _).
  { rewrite Hl. reflexivity. }
  rewrite Hl in Hl'.
  assert (Hloc : locate x86_msvc Ints.Hash 757 m = Returned (0, 0) m).
  { apply (locate_by_LayerLastIdx x86_msvc 757 m 0); [exact Hl|reflexivity]. }
  assert (Hloc' : locate x86_msvc Ints.Hash 757 m' = Returned (1, 0) m').
  { apply (locate_by_LayerLastIdx x86_msvc 757 m' 1); [exact Hl'|reflexivity]. }
  assert (Hruns : AllocateLayers x86_msvc 0 0 1 m = Returned tt m').
  { cbn [AllocateLayers]. rewrite (bind_step _ _ _ _ _ Hrun). reflexivity. }
  specialize (H 757 m m' 1%nat (0, 0) Hwf Hruns Hloc).
  rewrite Hloc' in H. injection H as H. discriminate H.
Qed.

Lemma slot_invariant_preserved_witness :
  exists m0 m : Ints.St,
    LayeredHashMap_ctor x86_msvc 0 0 ThreadManager_new = Returned tt m0 /\
    Ints.ConstructThreadValue x86_msvc m0 = Returned 0%nat m /\
    (forall self Key Val u m',
        Ints.Write x86_msvc self Key Val m = Returned u m' ->
        slots_inv m' /\
        exists L I s s',
          locate x86_msvc Ints.Hash Key m = Returned (L, I) m /\
          slot_at m L I = Some s /\ slot_at m' L I = Some s' /\
          Lock s' = POPULATED /\
          stored s' = write_pairs Ints.Pred Key Val (stored s)) /\
    (forall self Key r m',
        Ints.Delete x86_msvc self Key m = Returned r m' ->
        slots_inv m' /\
        exists L I s s',
          locate x86_msvc Ints.Hash Key m = Returned (L, I) m /\
          slot_at m L I = Some s /\ slot_at m' L I = Some s' /\
          stored s' = delete_pairs Ints.Pred Key (stored s) /\
          (Lock s' = EMPTY <-> stored s' = []) /\
          (Lock s' = POPULATED <-> stored s' <> []) /\
          (forall kv, stored s = [kv] -> key_is Ints.Pred Key kv = true ->
                      r = true /\ Lock s' = EMPTY) /\
          (forall i kv x,
              find_if (key_is Ints.Pred Key) (stored s) = Some (i, kv) ->
              last (stored s) = Some x ->
              (2 <= length (stored s))%nat ->
              r = true /\ Lock s' = POPULATED /\
              stored s' = removelast (<[i := x]> (stored s)))) /\
    (forall Key,
        (exists v, Ints.Read x86_msvc Key m = Returned v m) \/
        Ints.Read x86_msvc Key m = Thrown out_of_range m) /\
    (forall self Key Val,
        quiescent self m -> LayerLastIdx m + 1 < MaxLayerCount x86_msvc ->
        exists m', Ints.Write x86_msvc self Key Val m = Returned tt m') /\
    (forall self Key,
        quiescent self m -> exists r m', Ints.Delete x86_msvc self Key m = Returned r m').
Proof.
  destruct (LayeredHashMap_ctor_well_formed x86_msvc (K:=Z) (T:=Z) 0 0 ThreadManager_new)
    as (m0 & Hc & Hwf0 & Hl0 & Hmg0).
  destruct (ConstructThreadValue_returns x86_msvc 0 0 Ints.MAX_ERROR_margin m0 Hwf0)
    as (m & Hreg & Hg & Hq).
  { rewrite Hl0. reflexivity. }
  { rewrite Hmg0. reflexivity. }
  { rewrite Hmg0. reflexivity. }
  rewrite Hmg0 in Hreg. cbn [ThreadValues ThreadManager_new length] in Hreg.
  exists m0, m. split; [exact Hc|]. split; [exact Hreg|].
  apply (slot_invariant_preserved x86_msvc Ints.Hash Ints.Pred 0 0 Ints.MAX_ERROR_margin m).
  - exact (well_formed_grown x86_msvc 0 0 m0 m Hg Hwf0).
  - apply (slots_inv_grown x86_msvc 0 0 m0 m Hg).
    exact (LayeredHashMap_ctor_slots_inv x86_msvc 0 0 ThreadManager_new tt m0 Hc).
Defined.

(** The scenario of C7, run: the constructor and 22 calls of
    [AllocateLayer] in the environment [Ints.small_heap]. *)
Lemma Ints_constructed_in :
  LayeredHashMap_ctor_in x86_msvc 0 0 Ints.small_heap ThreadManager_new
  = Returned tt Ints.constructed.
Proof. vm_compute. reflexivity. Qed.

Lemma Ints_at_capacity :
  AllocateLayers_caught x86_msvc 0 0 Ints.small_heap 22 Ints.constructed
  = Returned tt Ints.at_capacity.
Proof. vm_compute. reflexivity. Qed.

Lemma Ints_constructed_shape : table_shape x86_msvc Ints.constructed.
Proof.
  apply (grown_by_calls_shape x86_msvc 0 0).
  exact (grown_ctor x86_msvc 0 0 Ints.small_heap ThreadManager_new _ Ints_constructed_in).
Qed.

Lemma AllocateLayer_within_table_witness :
  exists OldPrime NewPrime,
    Primes x86_msvc (LayerLastIdx Ints.constructed) = Some OldPrime /\
    Primes x86_msvc (LayerLastIdx Ints.constructed + 1) = Some NewPrime /\
    match refused Ints.small_heap (NewPrime - OldPrime) with
    | None =>
        exists m',
          AllocateLayer_in x86_msvc 0 0 Ints.small_heap Ints.constructed
          = Returned tt m' /\
          AllocateLayer x86_msvc 0 0 Ints.constructed = Returned tt m' /\
          LayerLastIdx m' = LayerLastIdx Ints.constructed + 1 /\
          table_shape x86_msvc m' /\
          (well_formed x86_msvc Ints.constructed -> well_formed x86_msvc m')
    | Some e =>
        (e = length_error \/ e = bad_alloc) /\
        AllocateLayer_in x86_msvc 0 0 Ints.small_heap Ints.constructed
        = Thrown e (set_LayerLastIdx (LayerLastIdx Ints.constructed + 1)
                      Ints.constructed) /\
        table_shape x86_msvc
          (set_LayerLastIdx (LayerLastIdx Ints.constructed + 1) Ints.constructed)
    end /\
    forall G,
      RESIZE_FUNC_in x86_msvc 0 0 Ints.small_heap G Ints.constructed =
        if OldPrime <? G then
          match AllocateLayer_in x86_msvc 0 0 Ints.small_heap Ints.constructed with
          | Returned _ m' => Returned NewPrime m'
          | Thrown e m' => Thrown e m'
          | Undefined f => Undefined f
          | Spins => Spins
          end
        else Returned OldPrime Ints.constructed.
Proof.
  apply (AllocateLayer_within_table x86_msvc 0 0 Ints.small_heap Ints.constructed).
  - exact Ints_constructed_shape.
  - vm_compute. reflexivity.
Defined.

(** C7 (as stated): a program constructs a map and calls the public
    [AllocateLayer] 22 times, catching what the calls throw.
    [LayerLastIdx] then names the last layer of the table, and the next
    call raises no error: its read of [Primes[MaxLayerCount]] is outside
    the table. *)
Lemma capacity_not_checked : ~ capacity_checked x86_msvc (K:=Z) (T:=Z) 0 0.
Proof.
  intros H.
  destruct (H Ints.small_heap Ints.at_capacity) as (e & m' & Hthrown).
  - destruct (AllocateLayers_caught_run x86_msvc 0 0 Ints.small_heap 22 Ints.constructed)
      as (m & Hrun & Hg & _).
    + exact (grown_ctor x86_msvc 0 0 Ints.small_heap ThreadManager_new _
               Ints_constructed_in).
    + vm_compute. reflexivity.
    + rewrite Ints_at_capacity in Hrun. apply Returned_state in Hrun.
      rewrite Hrun. exact Hg.
  - vm_compute. reflexivity.
  - rewrite (AllocateLayer_in_at_capacity x86_msvc 0 0 Ints.small_heap Ints.at_capacity)
      in Hthrown by (vm_compute; reflexivity).
    discriminate Hthrown.
Qed.

Lemma slot_in_bounds_witness :
  exists m : Ints.St,
    LayeredHashMap_ctor amd64_msvc 0 0 ThreadManager_new = Returned tt m /\
    exists rawHash pl LayerIdx SlotIdx lo hi s,
      RawHash amd64_msvc (LayerLastIdx m) (to_uInt amd64_msvc (Ints.Hash 1000000))
        = Some rawHash /\
      Primes amd64_msvc (LayerLastIdx m) = Some pl /\
      0 <= rawHash < pl /\
      GetLayer amd64_msvc rawHash = Some LayerIdx /\
      GetSlot amd64_msvc rawHash LayerIdx = Some SlotIdx /\
      0 <= LayerIdx <= LayerLastIdx m /\
      Primes amd64_msvc (LayerIdx - 1) = Some lo /\
      Primes amd64_msvc LayerIdx = Some hi /\
      0 <= SlotIdx < hi - lo /\
      slot_at m LayerIdx SlotIdx = Some s.
Proof.
  destruct (LayeredHashMap_ctor_well_formed amd64_msvc (K:=Z) (T:=Z) 0 0 ThreadManager_new)
    as (m & Hc & Hwf & _).
  exists m. split; [exact Hc|].
  apply (slot_in_bounds amd64_msvc Ints.Hash m 1000000).
  exact Hwf.
Defined.

(** ** Growth without moving the stored pairs

    [AllocateLayer] is documented as the method that "allocates a new
    Layer, and moves the currently stored elements to their new position";
    its body ends with "Move elements: To do".  The raw hash of a key
    depends on [LayerLastIdx], so after a growth the operations look for
    some of the keys written before in another slot.  On the 32-bit tables
    a new map grows at the 758th insertion. *)

(** Before the growth every key written is read back. *)
Lemma read_before_growth :
  Ints.result
    (Ints.fresh x86_msvc (fun self =>
       bind (Ints.write_keys x86_msvc self 0 757) (fun _ => Ints.Read x86_msvc 756)))
  = Returned 1756 tt.
Proof. vm_compute. reflexivity. Qed.

(** C1 (code): after [Write(k, k + 1000)] for the 758 distinct keys
    [0 .. 757], [Read(757)] throws [std::out_of_range] although 757 was
    written; the key 756 is still read. *)
Theorem read_after_growth_not_found :
  Ints.result
    (Ints.fresh x86_msvc (fun self =>
       bind (Ints.write_keys x86_msvc self 0 758) (fun _ => Ints.Read x86_msvc 757)))
  = Thrown out_of_range tt /\
  Ints.result
    (Ints.fresh x86_msvc (fun self =>
       bind (Ints.write_keys x86_msvc self 0 758) (fun _ => Ints.Read x86_msvc 756)))
  = Returned 1756 tt.
Proof. split; vm_compute; reflexivity. Qed.

(** C4 (code): after the same 758 writes [GetSize()] is 758; writing the
    key 757 once more puts it in a second slot and [GetSize()] becomes 759
    for 758 distinct keys; [Delete(757)] after the 758 writes returns
    [false]. *)
Theorem size_counts_rewritten_key :
  Ints.result
    (Ints.fresh x86_msvc (fun self =>
       bind (Ints.write_keys x86_msvc self 0 758) (fun _ => Ints.GetSize x86_msvc)))
  = Returned 758 tt /\
  Ints.result
    (Ints.fresh x86_msvc (fun self =>
       bind (Ints.write_keys x86_msvc self 0 758) (fun _ =>
       bind (Ints.Write x86_msvc self 757 5) (fun _ => Ints.GetSize x86_msvc))))
  = Returned 759 tt /\
  Ints.result
    (Ints.fresh x86_msvc (fun self =>
       bind (Ints.write_keys x86_msvc self 0 758) (fun _ => Ints.Delete x86_msvc self 757)))
  = Returned false tt.
Proof. split; [|split]; vm_compute; reflexivity. Qed.

(** C5 (code): after the same 758 writes the slot at layer 0, offset 0
    holds the pair of key 757, and [Read(757)] throws
    [std::out_of_range]. *)
Theorem stored_key_not_found :
  Ints.final_stored
    (Ints.fresh x86_msvc (fun self => Ints.write_keys x86_msvc self 0 758)) 0 0
  = Some [(0, 1000); (757, 1757)] /\
  Ints.result
    (Ints.fresh x86_msvc (fun self =>
       bind (Ints.write_keys x86_msvc self 0 758) (fun _ => Ints.Read x86_msvc 757)))
  = Thrown out_of_range tt.
Proof. split; vm_compute; reflexivity. Qed.

(** ** The value of [INCREMENT] *)

(** C8 (code): two counters are registered and the first has the value 377
    and the threshold 378.  With the native macros the next [Increment]
    reaches the threshold and updates the manager (new thresholds 567 and
    189); with [std::atomic] the same [Increment] sets the value to 378 and
    leaves the thresholds as they were: [fetch_add] returns 377. *)
Theorem Increment_StdAtomic_skips_update :
  Ints.counters (Ints.two_counters generic32 377)
  = [{| Value := 377; Threshold := 378 |}; {| Value := 0; Threshold := 378 |}] /\
  Ints.counters (Ints.two_counters generic32 378)
  = [{| Value := 378; Threshold := 378 |}; {| Value := 0; Threshold := 378 |}] /\
  Ints.counters (Ints.two_counters x86_msvc 377)
  = [{| Value := 377; Threshold := 378 |}; {| Value := 0; Threshold := 378 |}] /\
  Ints.counters (Ints.two_counters x86_msvc 378)
  = [{| Value := 378; Threshold := 567 |}; {| Value := 0; Threshold := 189 |}].
Proof. split; [|split; [|split]]; vm_compute; reflexivity. Qed.

(** ** X1: [IntLog2] *)

(** X1.  For every nonzero word [X], [IntLog2(X)] is the position of the
    highest set bit of [X]: [2^IntLog2(X) <= X < 2^(IntLog2(X) + 1)]. *)
Theorem IntLog2_floor_log2 (tg : target) (X : Z) :
  0 < X < 2 ^ bits tg ->
  2 ^ IntLog2 tg X <= X < 2 ^ (IntLog2 tg X + 1).
Proof.
  intros HX. rewrite (IntLog2_spec tg X HX).
  pose proof (Z.log2_spec X ltac:(lia)). lia.
Qed.

Lemma IntLog2_floor_log2_witness :
  2 ^ IntLog2 amd64_msvc 1000000 <= 1000000 < 2 ^ (IntLog2 amd64_msvc 1000000 + 1).
Proof.
  apply (IntLog2_floor_log2 amd64_msvc 1000000). vm_compute. split; reflexivity.
Defined.

(** ** The lock word *)

Lemma land_pow2 (a n : Z) :
  0 <= n -> Z.land a (2 ^ n) = if Z.testbit a n then 2 ^ n else 0.
Proof.
  intros Hn. apply Z.bits_inj'. intros k Hk.
  rewrite Z.land_spec, Z.pow2_bits_eqb by exact Hn.
  destruct (Z.eqb_spec n k) as [->|Hne].
  - rewrite andb_true_r. destruct (Z.testbit a k) eqn:E.
    + symmetry. apply Z.pow2_bits_true. exact Hk.
    + symmetry. apply Z.bits_0.
  - rewrite andb_false_r. destruct (Z.testbit a n).
    + symmetry. apply Z.pow2_bits_false. exact Hne.
    + symmetry. apply Z.bits_0.
Qed.

Lemma land_pow2_div (a n : Z) :
  0 <= n -> Z.land a (2 ^ n) = 2 ^ n * ((a / 2 ^ n) mod 2).
Proof.
  intros Hn. rewrite (land_pow2 a n Hn), <- (Z.testbit_spec' a n Hn).
  destruct (Z.testbit a n); cbn [Z.b2z]; lia.
Qed.

Lemma reader_count_mod (l : Z) : reader_count l = l mod 2 ^ 30.
Proof. unfold reader_count. change READER_COUNT_MASK with (Z.ones 30). apply Z.land_ones. lia. Qed.

Lemma writer_bit_div (l : Z) : writer_bit l = 2 ^ 30 * ((l / 2 ^ 30) mod 2).
Proof. unfold writer_bit. change WRITER_BIT_MASK with (2 ^ 30). apply land_pow2_div. lia. Qed.

Lemma value_bits_div (l : Z) : value_bits l = 2 ^ 31 * ((l / 2 ^ 31) mod 2).
Proof. unfold value_bits. change VALUE_BITS_MASK with (2 ^ 31). apply land_pow2_div. lia. Qed.

Lemma reader_count_writer_set (l : Z) :
  Z.land (Z.lor l WRITER_BIT_MASK) READER_COUNT_MASK = reader_count l.
Proof.
  rewrite Z.land_lor_distr_l.
  change (Z.land WRITER_BIT_MASK READER_COUNT_MASK) with 0. apply Z.lor_0_r.
Qed.

(** X3.  On a lock word without writer whose count of readers is below
    its maximum, [read_lock] returns at once: it adds one reader, returns
    the occupancy bit and leaves it and the writer bit as they were; on
    the new word [write_lock] does not return before a reader leaves, and
    [read_unlock] gives the word back. *)
Theorem read_lock_counts_readers (ThisLock : Z) :
  0 <= ThisLock < 2 ^ 32 ->
  writer_bit ThisLock = 0 ->
  reader_count ThisLock < READER_COUNT_MASK ->
  read_lock ThisLock = Some (ThisLock + 1, value_bits ThisLock) /\
  reader_count (ThisLock + 1) = reader_count ThisLock + 1 /\
  writer_bit (ThisLock + 1) = 0 /\
  value_bits (ThisLock + 1) = value_bits ThisLock /\
  write_lock (ThisLock + 1) = None /\
  read_unlock (ThisLock + 1) = ThisLock.
Proof.
  intros Hr Hw Hc.
  assert (Hrc : reader_count (ThisLock + 1) = reader_count ThisLock + 1).
  { rewrite !reader_count_mod in *. change READER_COUNT_MASK with (2 ^ 30 - 1) in Hc.
    change (2 ^ 30) with 1073741824 in *. Z.div_mod_to_equations. lia. }
  assert (Hwb : writer_bit (ThisLock + 1) = 0).
  { rewrite writer_bit_div in *. rewrite reader_count_mod in Hc.
    change READER_COUNT_MASK with (2 ^ 30 - 1) in Hc.
    change (2 ^ 30) with 1073741824 in *. Z.div_mod_to_equations. lia. }
  assert (Hvb : value_bits (ThisLock + 1) = value_bits ThisLock).
  { rewrite !value_bits_div. rewrite reader_count_mod in Hc.
    change READER_COUNT_MASK with (2 ^ 30 - 1) in Hc.
    change (2 ^ 30) with 1073741824 in *. change (2 ^ 31) with 2147483648.
    Z.div_mod_to_equations. lia. }
  assert (Hlt : ThisLock + 1 < 2 ^ 32).
  { rewrite reader_count_mod in Hc. change READER_COUNT_MASK with (2 ^ 30 - 1) in Hc.
    change (2 ^ 30) with 1073741824 in *. change (2 ^ 32) with 4294967296 in *.
    Z.div_mod_to_equations. lia. }
  split; [|split; [exact Hrc|split; [exact Hwb|split; [exact Hvb|split]]]].
  - unfold read_lock. fold (writer_bit ThisLock). rewrite Hw.
    change (0 =? 0) with true. cbv iota. unfold to_fast32.
    rewrite Z.mod_small by lia. reflexivity.
  - unfold write_lock. fold (writer_bit (ThisLock + 1)). rewrite Hwb.
    change (0 =? 0) with true. cbv iota zeta.
    rewrite reader_count_writer_set, Hrc.
    destruct (Z.eqb_spec (reader_count ThisLock + 1) 0) as [E|E]; [|reflexivity].
    rewrite reader_count_mod in E. change (2 ^ 30) with 1073741824 in *.
    Z.div_mod_to_equations. lia.
  - unfold read_unlock, to_fast32. replace (ThisLock + 1 - 1) with ThisLock by lia.
    apply Z.mod_small. exact Hr.
Qed.

Lemma read_lock_counts_readers_witness :
  read_lock (POPULATED + 2) = Some (POPULATED + 2 + 1, value_bits (POPULATED + 2)) /\
  reader_count (POPULATED + 2 + 1) = reader_count (POPULATED + 2) + 1 /\
  writer_bit (POPULATED + 2 + 1) = 0 /\
  value_bits (POPULATED + 2 + 1) = value_bits (POPULATED + 2) /\
  write_lock (POPULATED + 2 + 1) = None /\
  read_unlock (POPULATED + 2 + 1) = POPULATED + 2.
Proof.
  apply (read_lock_counts_readers (POPULATED + 2));
    vm_compute; [split; [discriminate|reflexivity]|reflexivity|reflexivity].
Defined.

(** X4.  Without another thread releasing the lock, [write_lock]
    returns exactly on a lock word without writer and without readers; it
    returns the occupancy bit, sets the writer bit and leaves the
    occupancy bit as it was, and on the word it leaves neither
    [read_lock] nor [write_lock] returns. *)
Theorem write_lock_excludes (ThisLock : Z) :
  (is_Some (write_lock ThisLock) <->
   writer_bit ThisLock = 0 /\ reader_count ThisLock = 0) /\
  (forall NewLock Val,
     write_lock ThisLock = Some (NewLock, Val) ->
     Val = value_bits ThisLock /\
     writer_bit NewLock = WRITER_BIT_MASK /\
     value_bits NewLock = value_bits ThisLock /\
     reader_count NewLock = 0 /\
     read_lock NewLock = None /\ write_lock NewLock = None).
Proof.
  unfold write_lock. fold (writer_bit ThisLock). cbv zeta.
  rewrite reader_count_writer_set.
  destruct (Z.eqb_spec (writer_bit ThisLock) 0) as [Hw|Hw];
    [destruct (Z.eqb_spec (reader_count ThisLock) 0) as [Hc|Hc]|].
  - split; [split; [auto|eauto]|].
    intros NewLock Val H. injection H as <- <-.
    assert (Hwb : writer_bit (Z.lor ThisLock WRITER_BIT_MASK) = WRITER_BIT_MASK).
    { unfold writer_bit in *. rewrite Z.land_lor_distr_l, Hw. reflexivity. }
    split; [reflexivity|]. split; [exact Hwb|]. split; [|split; [|split]].
    + unfold value_bits. rewrite Z.land_lor_distr_l.
      change (Z.land WRITER_BIT_MASK VALUE_BITS_MASK) with 0. apply Z.lor_0_r.
    + unfold reader_count at 1. rewrite reader_count_writer_set. exact Hc.
    + unfold read_lock. fold (writer_bit (Z.lor ThisLock WRITER_BIT_MASK)).
      rewrite Hwb. reflexivity.
    + fold (writer_bit (Z.lor ThisLock WRITER_BIT_MASK)). rewrite Hwb. reflexivity.
  - split; [split; [intros [x Hx]; discriminate Hx|intros [_ E]; contradiction]|].
    intros NewLock Val H. discriminate H.
  - split; [split; [intros [x Hx]; discriminate Hx|intros [E _]; contradiction]|].
    intros NewLock Val H. discriminate H.
Qed.

Lemma write_lock_excludes_witness :
  (is_Some (write_lock POPULATED) <->
   writer_bit POPULATED = 0 /\ reader_count POPULATED = 0) /\
  (forall NewLock Val,
     write_lock POPULATED = Some (NewLock, Val) ->
     Val = value_bits POPULATED /\
     writer_bit NewLock = WRITER_BIT_MASK /\
     value_bits NewLock = value_bits POPULATED /\
     reader_count NewLock = 0 /\
     read_lock NewLock = None /\ write_lock NewLock = None).
Proof. exact (write_lock_excludes POPULATED). Defined.

(** ** LayeredHash.h *)

Lemma _Hash_step_mod (tg : target) (Hash c : Z) :
  _Hash_step tg Hash c = to_uInt tg (33 * (Hash + c)).
Proof.
  unfold _Hash_step. cbv zeta. rewrite Z.shiftl_mul_pow2 by lia.
  change (2 ^ 5) with 32.
  replace (to_uInt tg (Hash + c) * 32 + to_uInt tg (Hash + c))
    with (33 * to_uInt tg (Hash + c)) by lia.
  unfold to_uInt. apply Zmult_mod_idemp_r.
Qed.

(** X5.  The hash of strings collides on a family of pairs of strings: a
    character raised by one followed by a character lowered by 33 gives
    the hash of the two characters it replaces, whatever comes before and
    after them. *)
Theorem Hash_string_collision (tg : target) (Str1 Str2 : list Z) (a b : Z) :
  _Hash_string tg (Str1 ++ a :: b :: Str2)
  = _Hash_string tg (Str1 ++ (a + 1) :: (b - 33) :: Str2).
Proof.
  unfold _Hash_string. rewrite !fold_left_app. cbn [fold_left]. f_equal.
  rewrite !_Hash_step_mod. unfold to_uInt.
  rewrite <- (Zmult_mod_idemp_r (_ + b)), <- (Zmult_mod_idemp_r (_ + (b - 33))).
  rewrite !Zplus_mod_idemp_l.
  rewrite !Zmult_mod_idemp_r. f_equal. lia.
Qed.

(** X6.  With the hash of [std::pair] over one hash of the components,
    every pair of two equal components is addressed at layer 0, offset 0,
    whatever the size of the table, and a pair and the pair of its
    components swapped are addressed at the same slot. *)
Theorem Hash_pair_collisions (tg : target) {X T : Type} (h : X -> Z) (a b : X)
    (m : @LayeredHashMap (X * X) T) :
  well_formed tg m ->
  locate tg (_Hash_pair h h) (a, a) m = Returned (0, 0) m /\
  locate tg (_Hash_pair h h) (a, b) m = locate tg (_Hash_pair h h) (b, a) m.
Proof.
  intros Hwf. split.
  - apply locate_hash_zero; [exact Hwf|].
    unfold _Hash_pair. cbn [fst snd]. rewrite Z.lxor_nilpotent.
    unfold to_uInt. apply Z.mod_0_l. destruct tg as [[] p]; discriminate.
  - unfold locate, _Hash_pair. cbn [fst snd]. rewrite (Z.lxor_comm (h a) (h b)).
    reflexivity.
Qed.

Lemma Hash_pair_collisions_witness :
  exists m : @LayeredHashMap (Z * Z) Z,
    locate x86_msvc (_Hash_pair Ints.Hash Ints.Hash) (1, 1) m = Returned (0, 0) m /\
    locate x86_msvc (_Hash_pair Ints.Hash Ints.Hash) (1, 2) m
    = locate x86_msvc (_Hash_pair Ints.Hash Ints.Hash) (2, 1) m.
Proof.
  destruct (LayeredHashMap_ctor_well_formed x86_msvc (K:=Z * Z) (T:=Z) (0, 0) 0
              ThreadManager_new) as (m & _ & Hwf & _).
  exists m. apply (Hash_pair_collisions x86_msvc Ints.Hash 1 2 m Hwf).
Defined.

(** ** Concrete states *)

Lemma Ints_constructed :
  LayeredHashMap_ctor x86_msvc 0 0 ThreadManager_new = Returned tt Ints.constructed.
Proof. vm_compute. reflexivity. Qed.

Lemma Ints_new_map :
  ConstructThreadValue x86_msvc 0 0 Ints.MAX_ERROR_margin Ints.constructed
  = Returned 0%nat Ints.new_map.
Proof. vm_compute. reflexivity. Qed.

Lemma Ints_one_key :
  Write x86_msvc Ints.Hash Ints.Pred 0 0 Ints.MAX_ERROR_margin 0 5 7 Ints.new_map
  = Returned tt Ints.one_key.
Proof. vm_compute. reflexivity. Qed.

Lemma Ints_deleted :
  Delete x86_msvc Ints.Hash Ints.Pred 0 5 Ints.one_key = Returned true Ints.deleted.
Proof. vm_compute. reflexivity. Qed.

Lemma Ints_two_keys :
  Write x86_msvc Ints.Hash Ints.Pred 0 0 Ints.MAX_ERROR_margin 0 9 3 Ints.one_key
  = Returned tt Ints.two_keys.
Proof. vm_compute. reflexivity. Qed.

Lemma ThreadManager_new_unused (tg : target) : unused tg ThreadManager_new.
Proof. destruct tg as [[] p]; repeat split. Qed.

Lemma Ints_constructed_reachable :
  reachable x86_msvc Ints.Hash Ints.Pred 0 0 Ints.MAX_ERROR_margin Ints.constructed.
Proof.
  eapply reach_ctor; [apply ThreadManager_new_unused|exact Ints_constructed].
Qed.

Lemma Ints_new_map_reachable :
  reachable x86_msvc Ints.Hash Ints.Pred 0 0 Ints.MAX_ERROR_margin Ints.new_map.
Proof.
  eapply reach_ConstructThreadValue; [exact Ints_constructed_reachable|exact Ints_new_map].
Qed.

Lemma Ints_one_key_reachable :
  reachable x86_msvc Ints.Hash Ints.Pred 0 0 Ints.MAX_ERROR_margin Ints.one_key.
Proof. eapply reach_Write; [exact Ints_new_map_reachable|exact Ints_one_key]. Qed.

Lemma Ints_Pred_eq (a b : Z) : Ints.Pred a b = true <-> a = b.
Proof. apply Z.eqb_eq. Qed.

Lemma Ints_new_map_quiescent : quiescent 0 Ints.new_map.
Proof.
  split; [|split; vm_compute; reflexivity].
  exists {| Value := 0; Threshold := 757 |}. vm_compute. reflexivity.
Qed.

(** ** Instances of the statements *)

Lemma slot_address_bijective_witness :
  (forall rh1 rh2, 0 <= rh1 < 1783 -> 0 <= rh2 < 1783 ->
     slot_address x86_msvc rh1 = slot_address x86_msvc rh2 -> rh1 = rh2) /\
  (forall L lo hi off, 0 <= L <= 1 ->
     Primes x86_msvc (L - 1) = Some lo -> Primes x86_msvc L = Some hi ->
     0 <= off < hi - lo ->
     slot_address x86_msvc (lo + off) = Some (L, off)).
Proof.
  apply (slot_address_bijective x86_msvc 1 1783);
    [change (0 <= 1 < 23); lia|reflexivity].
Defined.

Lemma LayeredHashMap_ctor_sized_returns_witness :
  exists m : Ints.St,
    LayeredHashMap_ctor_sized_in x86_msvc 0 0 Ints.small_heap ThreadManager_new 1000
    = Returned tt m /\
    LayeredHashMap_ctor_sized x86_msvc 0 0 ThreadManager_new 1000 = Returned tt m /\
    well_formed x86_msvc m /\
    (forall l i s, layer_slot m l i = Some s -> s = Slot_new 0 0) /\
    Manager m = ThreadManager_new /\
    LayerLastIdx m = 1.
Proof.
  apply (LayeredHashMap_ctor_sized_returns x86_msvc (K:=Z) (T:=Z) 0 0
           Ints.small_heap ThreadManager_new 1000 1 1783).
  - change (0 <= 1 < 23). lia.
  - reflexivity.
  - lia.
  - intros j q Hj Hq. assert (j = 0) as -> by lia.
    vm_compute in Hq. injection Hq as <-. lia.
  - intros j Hj. assert (j = 0 \/ j = 1) as [-> | ->] by lia; reflexivity.
Defined.

Lemma LayeredHashMap_ctor_sized_beyond_table_witness :
  (((forall j, 0 <= j < MaxLayerCount x86_msvc ->
       layer_refused x86_msvc Ints.small_heap j = None) /\
    LayeredHashMap_ctor_sized_in x86_msvc (K:=Z) (T:=Z) 0 0 Ints.small_heap
      ThreadManager_new 4294967295
    = Undefined TableOutOfRange)
   \/
   (exists j e (m : Ints.St),
      0 <= j < MaxLayerCount x86_msvc /\
      (forall k, 0 <= k < j -> layer_refused x86_msvc Ints.small_heap k = None) /\
      layer_refused x86_msvc Ints.small_heap j = Some e /\
      (e = length_error \/ e = bad_alloc) /\
      LayeredHashMap_ctor_sized_in x86_msvc 0 0 Ints.small_heap
        ThreadManager_new 4294967295
      = Thrown e m /\
      LayerLastIdx m = j /\ Slots m !! Z.to_nat j = Some [])) /\
  (word x86_msvc = W32 -> max_size Ints.small_heap < 2 ^ 31 ->
   exists e (m : Ints.St),
     (e = length_error \/ e = bad_alloc) /\
     LayeredHashMap_ctor_sized_in x86_msvc 0 0 Ints.small_heap
       ThreadManager_new 4294967295
     = Thrown e m).
Proof.
  apply (LayeredHashMap_ctor_sized_beyond_table x86_msvc (K:=Z) (T:=Z) 0 0
           Ints.small_heap ThreadManager_new 4294967295 4294967291);
    [reflexivity|lia].
Defined.

Lemma GetSize_counts_stored_pairs_witness :
  GetSize x86_msvc Ints.one_key
  = Returned (to_uInt x86_msvc (total_pairs Ints.one_key)) Ints.one_key.
Proof.
  apply (GetSize_counts_stored_pairs x86_msvc Ints.Hash Ints.Pred 0 0
           Ints.MAX_ERROR_margin Ints.one_key).
  exact Ints_one_key_reachable.
Defined.

Lemma Ints_new_map_consistent : consistent x86_msvc Ints.new_map.
Proof. eapply reachable_consistent, Ints_new_map_reachable. Qed.

Lemma Ints_one_key_consistent : consistent x86_msvc Ints.one_key.
Proof. eapply reachable_consistent, Ints_one_key_reachable. Qed.

Lemma Write_moves_GetSize_witness :
  exists L I s,
    locate x86_msvc Ints.Hash 5 Ints.new_map = Returned (L, I) Ints.new_map /\
    slot_at Ints.new_map L I = Some s /\
    GetSize x86_msvc Ints.one_key
    = Returned (to_uInt x86_msvc
                  (0 + (if holds_key Ints.Pred 5 (stored s) then 0 else 1)))
               Ints.one_key.
Proof.
  apply (Write_moves_GetSize x86_msvc Ints.Hash Ints.Pred 0 0 Ints.MAX_ERROR_margin
           0 5 7 Ints.new_map tt Ints.one_key 0 Ints.new_map).
  - apply Ints_new_map_consistent.
  - apply Ints_new_map_consistent.
  - vm_compute. reflexivity.
  - exact Ints_one_key.
Defined.

Lemma Delete_moves_GetSize_witness :
  GetSize x86_msvc Ints.deleted
  = Returned (to_uInt x86_msvc (1 - (if true then 1 else 0))) Ints.deleted.
Proof.
  apply (Delete_moves_GetSize x86_msvc Ints.Hash Ints.Pred 0 5 Ints.one_key true
           Ints.deleted 1 Ints.one_key).
  - apply Ints_one_key_consistent.
  - vm_compute. reflexivity.
  - exact Ints_deleted.
Defined.

Lemma DestructThreadValue_keeps_GetSize_witness :
  exists m',
    DestructThreadValue x86_msvc 0 Ints.one_key = Returned tt m' /\
    GetSize x86_msvc m' = Returned 1 m' /\
    S (length (ThreadValues (Manager m'))) = length (ThreadValues (Manager Ints.one_key)) /\
    DTOR_ThreadValuesSum (Manager m')
    = to_sInt x86_msvc (DTOR_ThreadValuesSum (Manager Ints.one_key)
                        + Value {| Value := 1; Threshold := 757 |}) /\
    Slots m' = Slots Ints.one_key /\ LayerLastIdx m' = LayerLastIdx Ints.one_key.
Proof.
  apply (DestructThreadValue_keeps_GetSize x86_msvc 0 {| Value := 1; Threshold := 757 |}
           Ints.one_key 1 Ints.one_key); vm_compute; reflexivity.
Defined.

Lemma map_on_Reset_manager_witness :
  exists (m2 : Ints.St) (w' : Process),
    LayeredHashMap_construct x86_msvc 0 0
      (LayeredHashMap_destruct 1023 Ints.one_key Ints.after_first_map)
    = Some (1023%nat, m2, w') /\
    AvailableInstanceIdx w' = AvailableInstanceIdx Ints.after_first_map /\
    Manager m2 = ThreadManager_Reset (Manager Ints.one_key) /\
    total_pairs m2 = 0 /\
    GetSize x86_msvc m2
    = Returned (to_uInt x86_msvc (sum_with Value (ThreadValues (Manager Ints.one_key))))
               m2.
Proof.
  apply (map_on_Reset_manager x86_msvc 0 0 Ints.after_first_map 1023 Ints.one_key).
  - apply Nat.ltb_lt. vm_compute. reflexivity.
  - vm_compute. reflexivity.
Defined.

Lemma Write_is_read_back_witness :
  exists m',
    Write x86_msvc Ints.Hash Ints.Pred 0 0 Ints.MAX_ERROR_margin 0 5 7 Ints.new_map
    = Returned tt m' /\
    (LayerLastIdx m' = LayerLastIdx Ints.new_map ->
     Read x86_msvc Ints.Hash Ints.Pred 5 m' = Returned 7 m').
Proof.
  apply (Write_is_read_back x86_msvc Ints.Hash Ints.Pred 0 0 Ints.MAX_ERROR_margin
           0 5 7 Ints.new_map).
  - apply Ints_new_map_consistent.
  - apply Ints_new_map_consistent.
  - exact Ints_new_map_quiescent.
  - vm_compute. reflexivity.
  - reflexivity.
Defined.

Lemma Write_then_Delete_witness :
  exists m2 s2,
    Delete x86_msvc Ints.Hash Ints.Pred 0 5 Ints.one_key = Returned true m2 /\
    slot_at m2 0 5 = Some s2 /\ stored s2 = stored (Slot_new 0 0) /\
    Read x86_msvc Ints.Hash Ints.Pred 5 m2 = Thrown out_of_range m2.
Proof.
  apply (Write_then_Delete x86_msvc Ints.Hash Ints.Pred 0 0 Ints.MAX_ERROR_margin
           0 5 7 Ints.new_map tt Ints.one_key 0 5 (Slot_new 0 0)).
  - apply Ints_new_map_consistent.
  - apply Ints_new_map_consistent.
  - exact Ints_new_map_quiescent.
  - reflexivity.
  - vm_compute. reflexivity.
  - vm_compute. reflexivity.
  - reflexivity.
  - exact Ints_one_key.
  - vm_compute. reflexivity.
Defined.

Lemma Delete_of_absent_key_witness :
  Delete x86_msvc Ints.Hash Ints.Pred 0 5 Ints.new_map = Returned false Ints.new_map /\
  Read x86_msvc Ints.Hash Ints.Pred 5 Ints.new_map = Thrown out_of_range Ints.new_map.
Proof.
  apply (Delete_of_absent_key x86_msvc Ints.Hash Ints.Pred 0 5 Ints.new_map 0 5
           (Slot_new 0 0)).
  - apply Ints_new_map_consistent.
  - apply Ints_new_map_consistent.
  - vm_compute. reflexivity.
  - vm_compute. reflexivity.
  - reflexivity.
Defined.

Lemma Write_keeps_other_keys_witness :
  Read x86_msvc Ints.Hash Ints.Pred 5 Ints.two_keys =
    match Read x86_msvc Ints.Hash Ints.Pred 5 Ints.one_key with
    | Returned v _ => Returned v Ints.two_keys
    | Thrown e _ => Thrown e Ints.two_keys
    | o => o
    end.
Proof.
  apply (Write_keeps_other_keys x86_msvc Ints.Hash Ints.Pred 0 0 Ints.MAX_ERROR_margin
           0 9 5 3 Ints.one_key tt Ints.two_keys).
  - apply Ints_one_key_consistent.
  - apply Ints_one_key_consistent.
  - reflexivity.
  - intros a Ha. apply Z.eqb_eq in Ha. subst a. reflexivity.
  - exact Ints_two_keys.
  - vm_compute. reflexivity.
Defined.

Lemma Delete_removes_key_witness :
  Delete x86_msvc Ints.Hash Ints.Pred 0 5 Ints.deleted = Returned false Ints.deleted /\
  Read x86_msvc Ints.Hash Ints.Pred 5 Ints.deleted = Thrown out_of_range Ints.deleted.
Proof.
  apply (Delete_removes_key x86_msvc Ints.Hash Ints.Pred 0 0 Ints.MAX_ERROR_margin
           Ints_Pred_eq 0 5 Ints.one_key true Ints.deleted).
  - exact Ints_one_key_reachable.
  - exact Ints_deleted.
Defined.

Lemma slots_hold_distinct_keys_witness :
  NoDup (fst <$> stored {| Lock := POPULATED; Main := (5, 7); Collisions := [] |}).
Proof.
  apply (slots_hold_distinct_keys x86_msvc Ints.Hash Ints.Pred 0 0 Ints.MAX_ERROR_margin
           Ints_Pred_eq Ints.one_key 0 5).
  - exact Ints_one_key_reachable.
  - vm_compute. reflexivity.
Defined.

Lemma Ints_colliding :
  Write x86_msvc Ints.Hash Ints.Pred 0 0 Ints.MAX_ERROR_margin 0 762 3 Ints.one_key
  = Returned tt Ints.colliding.
Proof. vm_compute. reflexivity. Qed.

Lemma Ints_colliding_deleted :
  Delete x86_msvc Ints.Hash Ints.Pred 0 5 Ints.colliding
  = Returned true Ints.colliding_deleted.
Proof. vm_compute. reflexivity. Qed.

Lemma Delete_keeps_other_keys_witness :
  Read x86_msvc Ints.Hash Ints.Pred 762 Ints.colliding_deleted =
    match Read x86_msvc Ints.Hash Ints.Pred 762 Ints.colliding with
    | Returned v _ => Returned v Ints.colliding_deleted
    | Thrown e _ => Thrown e Ints.colliding_deleted
    | o => o
    end.
Proof.
  apply (Delete_keeps_other_keys x86_msvc Ints.Hash Ints.Pred 0 0 Ints.MAX_ERROR_margin
           Ints_Pred_eq 0 5 762 Ints.colliding true Ints.colliding_deleted).
  - eapply reach_Write; [exact Ints_one_key_reachable|exact Ints_colliding].
  - discriminate.
  - exact Ints_colliding_deleted.
Defined.

Lemma ConstructThreadValue_registers_witness :
  exists m',
    ConstructThreadValue x86_msvc 0 0 Ints.MAX_ERROR_margin Ints.constructed
    = Returned (length (ThreadValues (Manager Ints.constructed))) m' /\
    Value <$> ThreadValues (Manager m')
    = (Value <$> ThreadValues (Manager Ints.constructed)) ++ [0] /\
    GetSize x86_msvc m' = Returned 0 m' /\
    quiescent (length (ThreadValues (Manager Ints.constructed))) m' /\
    grown x86_msvc 0 0 Ints.constructed m'.
Proof.
  apply (ConstructThreadValue_registers x86_msvc 0 0 Ints.MAX_ERROR_margin
           Ints.constructed 0 Ints.constructed).
  - apply (reachable_consistent x86_msvc Ints.Hash Ints.Pred 0 0 Ints.MAX_ERROR_margin).
    exact Ints_constructed_reachable.
  - vm_compute. reflexivity.
  - vm_compute. reflexivity.
Defined.
